(** * ECS175 assignment 1: OBJ loader and scenegraph

    A shallow embedding of [assignment1.objloader.js] (the mesh loader) and
    [assignment1.scene.js] (the scenegraph), with the properties of the
    design document stated and proved against them.

    Conventions of the embedding.
    - A JavaScript string is a [string]; its characters are the code units
      below 256.  The built-ins the loader calls ([trim], [split],
      [startsWith], [parseInt], [parseFloat]) are written out below.
    - A JavaScript number is a [Number]: a double, that is a rational, [-0]
      or one of [NaN], [+Infinity], [-Infinity].  Every operation returns
      the double nearest to its exact result, with ties to even, an infinity
      on overflow and a signed zero on underflow ([round]).
    - A [throw] is the [Throw] outcome of an error monad.
    - Scene nodes are mutable objects that point at each other; they live in
      a store ([Heap]) and are named by their address.
    - The methods that follow the links between nodes take a bound ([fuel])
      on the depth of their recursion; [None] is the outcome of a bound
      that is too small, or of an address that the store does not hold.
      The properties show that on a tree the calls return as soon as the
      bound is twice the number of nodes.
    - The table of the models of a scene is a JavaScript object used as a
      map from names to meshes: a finite map here, which is what the object
      is as long as no model is named [__proto__]. *)

From Stdlib Require Import ZArith QArith Qcanon Qround Qpower Ascii String List.
From stdpp Require Import base option list numbers strings gmap.

Local Open Scope string_scope.
Local Open Scope list_scope.

(** ** Outcomes of a call *)

Inductive Exn : Type :=
  | ThrowString (msg : string)   (* throw "..." *)
  | TypeError.                   (* raised by the runtime *)

Inductive result (A : Type) : Type :=
  | Ok (a : A)
  | Throw (e : Exn).
Arguments Ok {A} a.
Arguments Throw {A} e.

#[global] Instance result_ret : MRet result := fun A a => Ok a.
#[global] Instance result_bind : MBind result := fun A B k m =>
  match m with
  | Ok a => k a
  | Throw e => Throw e
  end.

(** ** Strings *)

Module JSString.

(** WhiteSpace and LineTerminator code units below 256: TAB, LF, VT, FF, CR,
    SP and NBSP.  [trim] and the regular expression class [\s] both use it. *)
Definition is_whitespace (c : ascii) : bool :=
  let n := N_of_ascii c in
  (N.eqb n 9 || N.eqb n 10 || N.eqb n 11 || N.eqb n 12 || N.eqb n 13
   || N.eqb n 32 || N.eqb n 160)%bool.

Fixpoint trimStart (s : string) : string :=
  match s with
  | EmptyString => EmptyString
  | String c s' => if is_whitespace c then trimStart s' else s
  end.

Fixpoint trimEnd (s : string) : string :=
  match s with
  | EmptyString => EmptyString
  | String c s' =>
      match trimEnd s' with
      | EmptyString => if is_whitespace c then EmptyString else String c EmptyString
      | t => String c t
      end
  end.

(** [s.trim()] *)
Definition trim (s : string) : string := trimEnd (trimStart s).

(** [s.startsWith(p)] *)
Fixpoint startsWith (s p : string) : bool :=
  match p, s with
  | EmptyString, _ => true
  | String a p', String b s' => if Ascii.eqb a b then startsWith s' p' else false
  | String _ _, EmptyString => false
  end.

Definition cons_head (c : ascii) (l : list string) : list string :=
  match l with
  | t :: ts => String c t :: ts
  | [] => [String c EmptyString]
  end.

(** [s.split(sep)] for a separator of one character: the pieces between
    the occurrences of [sep]; never empty. *)
Fixpoint split_char (sep : ascii) (s : string) : list string :=
  match s with
  | EmptyString => [EmptyString]
  | String c s' =>
      if Ascii.eqb c sep then EmptyString :: split_char sep s'
      else cons_head c (split_char sep s')
  end.

(** [s.split(/\s+/)]: the pieces between maximal runs of white space.
    [in_sep] tells that the previous character belonged to a run. *)
Fixpoint split_ws_from (in_sep : bool) (s : string) : list string :=
  match s with
  | EmptyString => [EmptyString]
  | String c s' =>
      if is_whitespace c then
        if in_sep then split_ws_from true s'
        else EmptyString :: split_ws_from true s'
      else cons_head c (split_ws_from false s')
  end.

Definition split_ws (s : string) : list string := split_ws_from false s.

End JSString.

(** ** Numbers *)

Module JSNumber.

(** The values of the Number type: the doubles of IEEE 754 (binary64). *)
Inductive Number : Type :=
  | NaN
  | PInf             (* +Infinity *)
  | NInf             (* -Infinity *)
  | NZero            (* -0 *)
  | Fin (q : Qc).    (* a finite number other than -0; [Fin 0] is +0 *)

(** *** Rounding to the nearest double *)

Definition pow2 (k : Z) : Q := (2 # 1) ^ k.

(** The exponent of a positive rational: the [e] with 2^e <= q < 2^(e+1). *)
Definition ilog2 (q : Q) : Z :=
  let e := (Z.log2 (Qnum q) - Z.log2 (Z.pos (Qden q)))%Z in
  if Qle_bool (pow2 e) q then e else (e - 1)%Z.

(** The integer nearest to [t]; of two that are as near, the even one. *)
Definition nearest_even (t : Q) : Z :=
  let f := Qfloor t in
  match (t - inject_Z f ?= 1 # 2)%Q with
  | Lt => f
  | Gt => (f + 1)%Z
  | Eq => if Z.even f then f else (f + 1)%Z
  end.

(** The spacing of the doubles around a positive [q] is 2^u, where [u] is
    52 below the exponent of [q] (a mantissa of 53 bits), and -1074 for the
    subnormal numbers, below 2^-1022. *)
Definition ulp_exponent (q : Q) : Z := Z.max (ilog2 q - 52) (-1074).

(** The double nearest to a positive [q], as a rational: the nearest
    multiple of the spacing; it may be 0, and 2^1024 stands for an
    overflow. *)
Definition round_magnitude (q : Q) : Q :=
  let u := ulp_exponent q in
  (inject_Z (nearest_even (q / pow2 u)) * pow2 u)%Q.

Definition zero (negative : bool) : Number :=
  if negative then NZero else Fin 0.

Definition infinity (negative : bool) : Number :=
  if negative then NInf else PInf.

(** The Number value of a rational: the nearest double, ties to even; an
    infinity from 2^1024 on; on underflow, a zero that keeps the sign. *)
Definition round (q : Q) : Number :=
  match (q ?= 0)%Q with
  | Eq => Fin 0
  | Gt =>
      let v := round_magnitude q in
      if Qle_bool (pow2 1024) v then PInf else Fin (Q2Qc v)
  | Lt =>
      let v := round_magnitude (- q) in
      if Qle_bool (pow2 1024) v then NInf
      else if Qeq_bool v 0 then NZero else Fin (Q2Qc (- v))
  end.

(** A literal that is a whole number, as [1] and [2.0] in the loader. *)
Definition of_Z (z : Z) : Number := Fin (Q2Qc (inject_Z z)).

(** [Number.MAX_VALUE], the largest finite double: 2^1024 - 2^971. *)
Definition MAX_VALUE_Qc : Qc := Q2Qc (inject_Z (2 ^ 1024 - 2 ^ 971)).
Definition MAX_VALUE : Number := Fin MAX_VALUE_Qc.

(** *** Operators *)

(** The value of a finite number. *)
Definition val (a : Number) : option Qc :=
  match a with
  | Fin q => Some q
  | NZero => Some 0%Qc
  | _ => None
  end.

(** The sign bit of a number that is not [NaN]. *)
Definition negative (a : Number) : bool :=
  match a with
  | NInf | NZero => true
  | Fin q => bool_decide (q < 0)%Qc
  | _ => false
  end.

(** Sign of a number that is not [NaN]; the zeros are [Eq]. *)
Definition sgn (a : Number) : comparison :=
  match a with
  | NaN => Eq
  | PInf => Gt
  | NInf => Lt
  | NZero => Eq
  | Fin q => (q ?= 0)%Qc
  end.

(** Unary minus: the sign bit is flipped. *)
Definition neg (a : Number) : Number :=
  match a with
  | NaN => NaN
  | PInf => NInf
  | NInf => PInf
  | NZero => Fin 0
  | Fin q => if decide (q = 0)%Qc then NZero else Fin (- q)
  end.

(** [a + b]: the sum of two infinities of opposite signs is [NaN]; [-0] is
    neutral; a sum of finite numbers that is zero is [+0], but for
    [-0 + -0]. *)
Definition add (a b : Number) : Number :=
  match a, b with
  | NaN, _ | _, NaN => NaN
  | PInf, NInf | NInf, PInf => NaN
  | PInf, _ | _, PInf => PInf
  | NInf, _ | _, NInf => NInf
  | NZero, _ => b
  | _, NZero => a
  | Fin x, Fin y => round (x + y)%Qc
  end.

(** [a - b] *)
Definition sub (a b : Number) : Number := add a (neg b).

(** [a * b]: an infinity times a zero is [NaN]; the sign of the result is
    the product of the signs, also for a zero. *)
Definition mul (a b : Number) : Number :=
  match val a, val b with
  | Some x, Some y =>
      if decide (x * y = 0)%Qc then zero (xorb (negative a) (negative b))
      else round (x * y)%Qc
  | _, _ =>
      match a, b with
      | NaN, _ | _, NaN => NaN
      | _, _ =>
          match sgn a, sgn b with
          | Eq, _ | _, Eq => NaN
          | _, _ => infinity (xorb (negative a) (negative b))
          end
      end
  end.

(** [a / b]: no exception on a zero divisor; a non-zero number over a zero
    is an infinity, a zero over a zero and an infinity over an infinity are
    [NaN]; the sign of the result is the product of the signs, that of a
    zero divisor included. *)
Definition div (a b : Number) : Number :=
  match val a, val b with
  | Some x, Some y =>
      if decide (y = 0)%Qc then
        if decide (x = 0)%Qc then NaN
        else infinity (xorb (negative a) (negative b))
      else if decide (x = 0)%Qc then zero (xorb (negative a) (negative b))
      else round (x / y)%Qc
  | Some _, None =>
      match b with
      | NaN => NaN
      | _ => zero (xorb (negative a) (negative b))
      end
  | None, Some _ =>
      match a with
      | NaN => NaN
      | _ => infinity (xorb (negative a) (negative b))
      end
  | None, None => NaN
  end.

(** One step of [Math.min]: [number] against the [lowest] so far; [-0] is
    below [+0]. *)
Definition min2 (lowest number : Number) : Number :=
  match lowest, number with
  | NaN, _ | _, NaN => NaN
  | NInf, _ | _, NInf => NInf
  | PInf, x | x, PInf => x
  | _, _ =>
      match val lowest, val number with
      | Some x, Some y =>
          if decide (y < x)%Qc then number
          else if decide (x < y)%Qc then lowest
          else if negative number then number else lowest
      | _, _ => NaN
      end
  end.

(** One step of [Math.max]: [number] against the [highest] so far. *)
Definition max2 (highest number : Number) : Number :=
  match highest, number with
  | NaN, _ | _, NaN => NaN
  | PInf, _ | _, PInf => PInf
  | NInf, x | x, NInf => x
  | _, _ =>
      match val highest, val number with
      | Some x, Some y =>
          if decide (x < y)%Qc then number
          else if decide (y < x)%Qc then highest
          else if negative highest then number else highest
      | _, _ => NaN
      end
  end.

(** [Math.min(...args)] and [Math.max(...args)]: [NaN] as soon as one
    argument is [NaN]; with no argument, [+Infinity] and [-Infinity]. *)
Definition Math_min (args : list Number) : Number := fold_left min2 args PInf.
Definition Math_max (args : list Number) : Number := fold_left max2 args NInf.

End JSNumber.
Export JSNumber.

(** ** Global functions [parseInt] and [parseFloat] *)

Module JSGlobal.
Import JSString.

Definition digit_value (c : ascii) : option Z :=
  let n := Z.of_N (N_of_ascii c) in
  if ((48 <=? n) && (n <=? 57))%Z then Some (n - 48)%Z else None.

Definition hex_digit_value (c : ascii) : option Z :=
  let n := Z.of_N (N_of_ascii c) in
  if ((48 <=? n) && (n <=? 57))%Z then Some (n - 48)%Z
  else if ((97 <=? n) && (n <=? 102))%Z then Some (n - 87)%Z
  else if ((65 <=? n) && (n <=? 70))%Z then Some (n - 55)%Z
  else None.

(** Value of the longest prefix of [s] made of digits; [acc] is the value
    read so far, [None] as long as no digit was read. *)
Fixpoint digits_prefix (digit : ascii -> option Z) (radix : Z)
    (acc : option Z) (s : string) : option Z :=
  match s with
  | EmptyString => acc
  | String c s' =>
      match digit c with
      | Some d => digits_prefix digit radix (Some (default 0 acc * radix + d)%Z) s'
      | None => acc
      end
  end.

(** The Number value of the numeral of magnitude [q] that follows a sign:
    [-0] for a zero after a minus. *)
Definition of_magnitude (negative : bool) (q : Q) : Number :=
  if Qeq_bool q 0 then zero negative
  else round (if negative then - q else q).

(** An optional sign: [true] for a minus. *)
Definition strip_sign (s : string) : bool * string :=
  match s with
  | String "-" s' => (true, s')
  | String "+" s' => (false, s')
  | _ => (false, s)
  end.

Definition drop2 (s : string) : string :=
  match s with
  | String _ (String _ s') => s'
  | _ => EmptyString
  end.

(** [parseInt(s)] with no radix: leading white space is skipped, then an
    optional sign, then hexadecimal digits after [0x] or [0X], decimal
    digits otherwise; what follows the digits is ignored; [NaN] when there
    is no digit.  The result is the double nearest to the whole number
    read. *)
Definition parseInt (s : string) : Number :=
  let (negative, s1) := strip_sign (trimStart s) in
  let magnitude :=
    if (startsWith s1 "0x" || startsWith s1 "0X")%bool
    then digits_prefix hex_digit_value 16 None (drop2 s1)
    else digits_prefix digit_value 10 None s1 in
  match magnitude with
  | None => NaN
  | Some m => of_magnitude negative (inject_Z m)
  end.

(** The digits at the head of [s], and the rest of [s]. *)
Fixpoint span_digits (s : string) : list Z * string :=
  match s with
  | EmptyString => ([], EmptyString)
  | String c s' =>
      match digit_value c with
      | Some d => let (ds, r) := span_digits s' in (d :: ds, r)
      | None => ([], s)
      end
  end.

Definition digits_to_Z (ds : list Z) : Z :=
  fold_left (fun acc d => acc * 10 + d)%Z ds 0%Z.

(** ExponentPart, when one is there: [e] or [E], an optional sign, at least
    one digit.  [0] otherwise. *)
Definition parse_exponent (s : string) : Z :=
  match s with
  | String c s' =>
      if (Ascii.eqb c "e" || Ascii.eqb c "E")%bool then
        let (negative, s2) := strip_sign s' in
        match span_digits s2 with
        | ([], _) => 0%Z
        | (ds, _) => if negative then (- digits_to_Z ds)%Z else digits_to_Z ds
        end
      else 0%Z
  | EmptyString => 0%Z
  end.

(** The value of the longest prefix of [s] that is an unsigned decimal
    literal: digits, an optional fraction, an optional exponent. *)
Definition parse_decimal (s : string) : option Q :=
  let (ip, r1) := span_digits s in
  match r1 with
  | String "." r2 =>
      let (fp, r3) := span_digits r2 in
      match ip, fp with
      | [], [] => None
      | _, _ =>
          Some ((inject_Z (digits_to_Z ip)
                 + inject_Z (digits_to_Z fp) / (10 # 1) ^ Z.of_nat (length fp))
                * (10 # 1) ^ parse_exponent r3)%Q
      end
  | _ =>
      match ip with
      | [] => None
      | _ => Some (inject_Z (digits_to_Z ip) * (10 # 1) ^ parse_exponent r1)%Q
      end
  end.

(** [parseFloat(s)]: leading white space is skipped, then an optional sign,
    then [Infinity] or a decimal literal; what follows is ignored; [NaN]
    when there is neither.  The result is the double nearest to the
    decimal read. *)
Definition parseFloat (s : string) : Number :=
  let (negative, s1) := strip_sign (trimStart s) in
  if startsWith s1 "Infinity" then (if negative then NInf else PInf)
  else match parse_decimal s1 with
       | Some q => of_magnitude negative q
       | None => NaN
       end.

End JSGlobal.

(** ** The OBJ loader ([assignment1.objloader.js]) *)

Module OBJLoader.
Import JSString JSGlobal.

(** A JavaScript array of three numbers: a vertex, or the extents
    [minExtent] and [maxExtent]; [c0], [c1], [c2] are its entries 0, 1, 2. *)
Record Vec3 : Type := mkVec3 { c0 : Number; c1 : Number; c2 : Number }.

Definition vec3_zip (f : Number -> Number -> Number) (a b : Vec3) : Vec3 :=
  mkVec3 (f (c0 a) (c0 b)) (f (c1 a) (c1 b)) (f (c2 a) (c2 b)).

(** [vertices.flat()] *)
Definition flat (vertices : list Vec3) : list Number :=
  concat (map (fun v => [c0 v; c1 v; c2 v]) vertices).

(** An entry of an array of strings handed to [parseInt] or [parseFloat]:
    a missing entry is [undefined], which these functions read as the
    string ["undefined"]. *)
Definition entry (parts : list string) (i : nat) : string :=
  default "undefined" (parts !! i).

(** [parseVertex(vertex_string)] *)
Definition parseVertex (vertex_string : string) : Vec3 :=
  let parts := split_ws vertex_string in
  let x := parseFloat (entry parts 1) in
  let y := parseFloat (entry parts 2) in
  let z := parseFloat (entry parts 3) in
  mkVec3 x y z.

(** [triangulateFace(face)]; [parseFace] calls it on four indices only. *)
Definition triangulateFace (face : list Number) : list Number :=
  let at_ i := nth i face NaN in
  [at_ 0%nat; at_ 1%nat; at_ 2%nat; at_ 0%nat; at_ 2%nat; at_ 3%nat].

(** The index a face reference stands for:
    [parseInt(part.split('/')[0]) - 1]. *)
Definition face_index (part : string) : Number :=
  sub (parseInt (entry (split_char "/" part) 0)) (of_Z 1).

(** [face_string.split(/\s+/).slice(1)] *)
Definition face_parts (face_string : string) : list string :=
  tail (split_ws face_string).

(** [parseFace(face_string)] *)
Definition parseFace (face_string : string) : result (list Number) :=
  let parts := face_parts face_string in
  let indices := map face_index parts in
  if (length indices =? 3)%nat then Ok indices
  else if (length indices =? 4)%nat then Ok (triangulateFace indices)
  else Throw (ThrowString "Unsupported face format").

(** The variables of [load] that its loop over the lines updates. *)
Record LoadState : Type := mkLoadState {
  vertices : list Vec3;
  indices : list Number;
  minExtent : Vec3;
  maxExtent : Vec3
}.

Definition load_init : LoadState :=
  {| vertices := [];
     indices := [];
     minExtent := mkVec3 MAX_VALUE MAX_VALUE MAX_VALUE;
     maxExtent := mkVec3 (neg MAX_VALUE) (neg MAX_VALUE) (neg MAX_VALUE) |}.

(** One turn of the loop of [load]. *)
Definition load_line (st : LoadState) (line : string) : result LoadState :=
  let line := trim line in
  if startsWith line "v " then
    let vertex := parseVertex line in
    Ok {| vertices := vertices st ++ [vertex];
          indices := indices st;
          minExtent := vec3_zip (fun m c => Math_min [m; c]) (minExtent st) vertex;
          maxExtent := vec3_zip (fun m c => Math_max [m; c]) (maxExtent st) vertex |}
  else if startsWith line "f " then
    faceIndices ← parseFace line;
    Ok {| vertices := vertices st;
          indices := indices st ++ faceIndices;
          minExtent := minExtent st;
          maxExtent := maxExtent st |}
  else Ok st.

Fixpoint load_lines (st : LoadState) (lines : list string) : result LoadState :=
  match lines with
  | [] => Ok st
  | line :: rest => st' ← load_line st line; load_lines st' rest
  end.

(** The divisor of the normalization: the largest of the three extents. *)
Definition largest_extent (st : LoadState) : Number :=
  Math_max [sub (c0 (maxExtent st)) (c0 (minExtent st));
            sub (c1 (maxExtent st)) (c1 (minExtent st));
            sub (c2 (maxExtent st)) (c2 (minExtent st))].

Definition load_scale (st : LoadState) : Number :=
  div (of_Z 2) (largest_extent st).

Definition load_offset (st : LoadState) : Vec3 :=
  let half a b := div (neg (add a b)) (of_Z 2) in
  vec3_zip half (maxExtent st) (minExtent st).

(** The body of the two nested loops that rewrite the vertices. *)
Definition normalize (offset : Vec3) (scale : Number) (v : Vec3) : Vec3 :=
  vec3_zip (fun c o => mul (add c o) scale) v offset.

(** The part of [load] after the loop over the lines. *)
Definition load_finish (st : LoadState) : list Number * list Number :=
  let scale := load_scale st in
  let offset := load_offset st in
  (flat (map (normalize offset scale) (vertices st)), indices st).

(** [load()], on the contents of the file. *)
Definition load (contents : string) : result (list Number * list Number) :=
  let lines := split_char "010"%char contents in
  st ← load_lines load_init lines;
  Ok (load_finish st).

End OBJLoader.

(** ** The scenegraph ([assignment1.scene.js]) *)

(** Addresses of scene nodes in the store. *)
Abbreviation addr := nat.

(** [for (let x of l) s = f(s, x)]: a loop that threads a state and stops
    when a turn has no outcome. *)
Fixpoint for_each {A S : Type} (f : S -> A -> option S) (s : S) (l : list A)
    : option S :=
  match l with
  | [] => Some s
  | x :: rest => s' ← f s x; for_each f s' rest
  end.

(** [for (let x of l) { let r = f(x); if (r != null) return r }; return null] *)
Fixpoint first_found {A B : Type} (f : A -> option (option B)) (l : list A)
    : option (option B) :=
  match l with
  | [] => Some None
  | x :: rest =>
      r ← f x;
      match r with
      | Some b => Some (Some b)
      | None => first_found f rest
      end
  end.

Definition dquote : string := String "034"%char "".

(** What [load] returns: the vertex buffer and the index buffer. *)
Abbreviation Mesh := (list Number * list Number)%type.

Inductive DrawMode : Type := POINTS | TRIANGLES.

(** What the scenegraph imports and the sources do not contain: the matrix
    library (gl-matrix), and of [js/utils] the decoding of the
    [transformation] field of a node description and the reading of a file.
    [mat4_create] is the result of [mat4.create()], the identity matrix, and
    [mat4_multiply a b] the matrix that [mat4.multiply(out, a, b)] stores in
    [out].  The scenegraph is embedded over any of them. *)
Class Imports : Type := {
  mat4 : Type;
  mat4_create : mat4;
  mat4_multiply : mat4 -> mat4 -> mat4;
  TransformConfig : Type;
  json2transform : TransformConfig -> mat4;
  loadExternalFile : string -> string
}.

Section Scenegraph.
Context `{Imports}.

(** Modelled from the spec: [Object3D] ([js/app/object3d.js]) is not among the
    sources.  It is the renderable a model node owns: the buffers of its
    mesh, a draw mode, and the placement it is drawn with, which
    [setTransformation] replaces. *)
Record Object3D : Type := mkObject3D {
  o_vertices : list Number;
  o_indices : list Number;
  o_draw_mode : DrawMode;
  o_transformation : mat4
}.

Definition new_Object3D (vertices indices : list Number) (draw_mode : DrawMode)
    : Object3D :=
  mkObject3D vertices indices draw_mode mat4_create.

Definition Object3D_setTransformation (o : Object3D) (t : mat4) : Object3D :=
  mkObject3D (o_vertices o) (o_indices o) (o_draw_mode o) t.

(** *** Scene configuration *)

Record ModelConfig : Type := mkModelConfig {
  mc_name : string;
  mc_obj : string
}.

#[local] Unset Elimination Schemes.
Inductive NodeConfig : Type :=
  mkNodeConfig (name : string) (type : string) (transformation : TransformConfig)
               (content : string) (children : list NodeConfig).
#[local] Set Elimination Schemes.

Record SceneConfig : Type := mkSceneConfig {
  cfg_models : list ModelConfig;
  cfg_scenegraph : NodeConfig
}.

(** *** Scene nodes *)

(** A [SceneNode]; it is a [ModelNode] when it has an [obj3d]. *)
Record SceneNode : Type := mkSceneNode {
  name : string;
  type : string;
  transformation : mat4;
  world_transformation : mat4;
  parent : option addr;
  children : list addr;
  obj3d : option Object3D
}.

(** The store: the node at address [a] is the entry [a]. *)
Abbreviation Heap := (list SceneNode).

Definition with_transformation (t : mat4) (n : SceneNode) : SceneNode :=
  mkSceneNode (name n) (type n) t (world_transformation n) (parent n)
              (children n) (obj3d n).

Definition with_world_transformation (w : mat4) (n : SceneNode) : SceneNode :=
  mkSceneNode (name n) (type n) (transformation n) w (parent n)
              (children n) (obj3d n).

Definition with_parent (p : option addr) (n : SceneNode) : SceneNode :=
  mkSceneNode (name n) (type n) (transformation n) (world_transformation n) p
              (children n) (obj3d n).

Definition with_children (cs : list addr) (n : SceneNode) : SceneNode :=
  mkSceneNode (name n) (type n) (transformation n) (world_transformation n)
              (parent n) cs (obj3d n).

Definition with_obj3d (o : option Object3D) (n : SceneNode) : SceneNode :=
  mkSceneNode (name n) (type n) (transformation n) (world_transformation n)
              (parent n) (children n) o.

(** [getTransformationHierarchy(transformations)] *)
Fixpoint getTransformationHierarchy (fuel : nat) (h : Heap) (this : addr)
    (transformations : list mat4) : option (list mat4) :=
  match fuel with
  | O => None
  | S fuel' =>
      node ← h !! this;
      let transformations := transformations ++ [transformation node] in
      match parent node with
      | Some p => getTransformationHierarchy fuel' h p transformations
      | None => Some transformations
      end
  end.

(** The loop of [calculateWorldTransformation] over the reversed hierarchy,
    from [world = mat4.create()]. *)
Definition multiply_all (hierarchy : list mat4) : mat4 :=
  fold_left mat4_multiply (rev hierarchy) mat4_create.

(** [calculateWorldTransformation()] *)
Definition calculateWorldTransformation (fuel : nat) (h : Heap) (this : addr)
    : option mat4 :=
  hierarchy ← getTransformationHierarchy fuel h this [];
  Some (multiply_all hierarchy).

(** [setTransformation(transformation)], of [SceneNode] and, for a node with
    an [obj3d], the override of [ModelNode], which runs the former first. *)
Fixpoint setTransformation (fuel : nat) (h : Heap) (this : addr)
    (t : mat4) : option Heap :=
  match fuel with
  | O => None
  | S fuel' =>
      node ← h !! this;
      let h := <[this := with_transformation t node]> h in
      h ← for_each
            (fun h child =>
               child_node ← h !! child;
               setTransformation fuel' h child (transformation child_node))
            h (children node);
      world ← calculateWorldTransformation fuel h this;
      node ← h !! this;
      let h := <[this := with_world_transformation world node]> h in
      node ← h !! this;
      match obj3d node with
      | Some o =>
          let o := Object3D_setTransformation o (world_transformation node) in
          Some (<[this := with_obj3d (Some o) node]> h)
      | None => Some h
      end
  end.

(** [setParent(node)] *)
Definition setParent (h : Heap) (this : addr) (node : option addr) : Heap :=
  alter (with_parent node) this h.

(** [addChild(node)] *)
Definition addChild (h : Heap) (this : addr) (node : addr) : Heap :=
  alter (fun n => with_children (children n ++ [node]) n) this h.

(** [getNodes(nodes)]; [nodes] is the array the callers share. *)
Fixpoint getNodes (fuel : nat) (h : Heap) (this : addr) (nodes : list addr)
    : option (list addr) :=
  match fuel with
  | O => None
  | S fuel' =>
      node ← h !! this;
      for_each (fun nodes child => getNodes fuel' h child nodes)
               (nodes ++ [this]) (children node)
  end.

(** [getNode(name)]; the inner [None] is [null]. *)
Fixpoint getNode (fuel : nat) (h : Heap) (this : addr) (wanted : string)
    : option (option addr) :=
  match fuel with
  | O => None
  | S fuel' =>
      node ← h !! this;
      if decide (name node = wanted) then Some (Some this)
      else first_found (fun child => getNode fuel' h child wanted) (children node)
  end.

(** [new SceneNode(name, type, transformation)], and [new ModelNode(obj3d,
    ...)] when [obj] is given.  The constructor computes the world
    transformation while the node has no parent yet: the hierarchy is the
    node alone. *)
Definition new_node (nm ty : string) (t : mat4) (obj : option Object3D)
    (h : Heap) : addr * Heap :=
  let node := mkSceneNode nm ty t (multiply_all [t]) None [] obj in
  (length h, h ++ [node]).

(** *** The scene *)

(** [loadModels(models_config)]; [models] is the table filled so far. *)
Fixpoint loadModels_from (models : gmap string Mesh)
    (models_config : list ModelConfig) : result (gmap string Mesh) :=
  match models_config with
  | [] => Ok models
  | model_config :: rest =>
      mesh ← OBJLoader.load (loadExternalFile (mc_obj model_config));
      loadModels_from (<[mc_name model_config := mesh]> models) rest
  end.

Definition loadModels (models_config : list ModelConfig)
    : result (gmap string Mesh) :=
  loadModels_from ∅ models_config.

Definition model_not_found (nm : string) : Exn :=
  ThrowString ("Unable to find model " +:+ dquote +:+ nm +:+ dquote
               +:+ " requested by scenengraph").

(** [instantiateModel(name, gl, shader)].  The guard is written
    [!name in this.models], which is [(!name) in this.models]: [!name] is
    [false] for a name that is not empty and [true] for the empty one, and
    [in] looks up the property of that name.  Destructuring
    [this.models[name]] raises a TypeError when the table has no mesh under
    [name]: what is read is [undefined], or a property inherited from
    [Object.prototype], and neither can be iterated. *)
Definition instantiateModel (models : gmap string Mesh) (nm : string)
    : result Object3D :=
  let key := if decide (nm = "") then "true" else "false" in
  if decide (is_Some (models !! key)) then Throw (model_not_found nm)
  else
    match models !! nm with
    | Some (vertices, indices) => Ok (new_Object3D vertices indices TRIANGLES)
    | None => Throw TypeError
    end.

(** The loop of [loadScenegraphNode] over the descriptions of the children,
    [load] being [loadScenegraphNode] itself and [node] the node under
    construction.  Calling [addChild] or [setParent] on [null] raises a
    TypeError. *)
Definition load_children (load : NodeConfig -> Heap -> result (option addr * Heap))
    (node : option addr) : list NodeConfig -> Heap -> result Heap :=
  fix go (cs : list NodeConfig) (h : Heap) : result Heap :=
    match cs with
    | [] => Ok h
    | child :: rest =>
        '(child_node, h) ← load child h;
        match node, child_node with
        | Some this, Some c =>
            let h := addChild h this c in
            let h := setParent h c (Some this) in
            go rest h
        | _, _ => Throw TypeError
        end
    end.

(** The [switch] of [loadScenegraphNode]: the node it creates, [None] when
    no case matches and [node] stays [null]. *)
Definition create_node (models : gmap string Mesh) (nm ty : string)
    (tr : TransformConfig) (content : string) (h : Heap)
    : result (option addr * Heap) :=
  if decide (ty = "node") then
    Ok (prod_map Some id (new_node nm ty (json2transform tr) None h))
  else if decide (ty = "model") then
    obj ← instantiateModel models content;
    Ok (prod_map Some id (new_node nm ty (json2transform tr) (Some obj) h))
  else Ok (None, h).

(** [loadScenegraphNode(node_config, gl, shader)] *)
Fixpoint loadScenegraphNode (models : gmap string Mesh)
    (node_config : NodeConfig) (h : Heap) : result (option addr * Heap) :=
  match node_config with
  | mkNodeConfig nm ty tr content cs =>
      '(node, h) ← create_node models nm ty tr content h;
      h ← load_children (loadScenegraphNode models) node cs h;
      Ok (node, h)
  end.

Record Scene : Type := mkScene {
  scene_config : SceneConfig;
  models : gmap string Mesh;
  scenegraph : addr;
  heap : Heap
}.

(** [new Scene(scene_config, gl, shader)]: the nodes of a scene are
    allocated in a store of its own. *)
Definition new_Scene (fuel : nat) (config : SceneConfig) : option (result Scene) :=
  match (models ← loadModels (cfg_models config);
         '(root, h) ← loadScenegraphNode models (cfg_scenegraph config) [];
         Ok (models, root, h)) with
  | Throw e => Some (Throw e)
  | Ok (_, None, _) => Some (Throw TypeError)
  | Ok (models, Some root, h) =>
      node ← h !! root;
      h ← setTransformation fuel h root (transformation node);
      Some (Ok (mkScene config models root h))
  end.

(** [Scene.getNodes()] *)
Definition Scene_getNodes (fuel : nat) (sc : Scene) : option (list addr) :=
  getNodes fuel (heap sc) (scenegraph sc) [].

Definition node_not_found (nm : string) : Exn :=
  ThrowString ("Node " +:+ dquote +:+ nm +:+ dquote +:+ " not found in scenegraph").

(** [Scene.getNode(name)] *)
Definition Scene_getNode (fuel : nat) (sc : Scene) (wanted : string)
    : option (result addr) :=
  node ← getNode fuel (heap sc) (scenegraph sc) wanted;
  match node with
  | None => Some (Throw (node_not_found wanted))
  | Some a => Some (Ok a)
  end.

End Scenegraph.


(** ** Vocabulary of the statements *)

#[global] Instance Number_eq_dec : EqDecision Number.
Proof. solve_decision. Defined.

#[global] Instance Vec3_eq_dec : EqDecision OBJLoader.Vec3.
Proof. solve_decision. Defined.

#[global] Instance Exn_eq_dec : EqDecision Exn.
Proof. solve_decision. Defined.

#[global] Instance result_eq_dec {A : Type} `{EqDecision A} : EqDecision (result A).
Proof. solve_decision. Defined.

(** The line feed, and a file made of lines. *)
Definition LF : ascii := "010"%char.

Fixpoint unlines (lines : list string) : string :=
  match lines with
  | [] => ""
  | [l] => l
  | l :: rest => l +:+ String LF (unlines rest)
  end.




(** The lines of a file as [load] sees them, and the kinds of record. *)
Definition file_lines (contents : string) : list string :=
  map JSString.trim (JSString.split_char LF contents).

Definition is_vertex_line (line : string) : bool := JSString.startsWith line "v ".
Definition is_face_line (line : string) : bool := JSString.startsWith line "f ".

(** What a line hands to the index buffer: the indices of its face, when
    it is a face record that [parseFace] accepts. *)
Definition emitted_indices (line : string) : list Number :=
  if is_vertex_line line then []
  else if is_face_line line then
    match OBJLoader.parseFace line with
    | Ok faceIndices => faceIndices
    | Throw _ => []
    end
  else [].

Definition unsupported_face : Exn := ThrowString "Unsupported face format".

(** The three axes, and the coordinate of a vertex on each. *)
Inductive Axis : Type := Axis0 | Axis1 | Axis2.

Definition coord (a : Axis) (v : OBJLoader.Vec3) : Number :=
  match a with
  | Axis0 => OBJLoader.c0 v
  | Axis1 => OBJLoader.c1 v
  | Axis2 => OBJLoader.c2 v
  end.

(** The vertex records of a file, parsed, in the order of the file. *)
Definition parsed_vertices (contents : string) : list OBJLoader.Vec3 :=
  map OBJLoader.parseVertex
      (filter (fun l => is_vertex_line l = true) (file_lines contents)).

(** [lo] and [hi] are the least and the greatest coordinate of the vertices
    [vs] on the axis [a]; all these coordinates are finite numbers. *)
Definition bounds (a : Axis) (vs : list OBJLoader.Vec3) (lo hi : Qc) : Prop :=
  (forall v, v ∈ vs ->
     exists q, val (coord a v) = Some q /\ (lo <= q)%Qc /\ (q <= hi)%Qc) /\
  (exists v, v ∈ vs /\ val (coord a v) = Some lo) /\
  (exists v, v ∈ vs /\ val (coord a v) = Some hi).

Definition two_Qc : Qc := Q2Qc (inject_Z 2).

(** The doubles: the multiples [m * 2^k] of a spacing of the format, with a
    mantissa [m] of at most 53 bits, below 2^1024 in magnitude. *)
Definition representable (r : Q) : Prop :=
  exists m k, (r == inject_Z m * pow2 k)%Q /\ (- 2 ^ 53 < m < 2 ^ 53)%Z /\
              (-1074 <= k)%Z /\ (- pow2 1024 < r)%Q /\ (r < pow2 1024)%Q.

(** [q] is a double: the rounding keeps it. *)
Definition is_double (q : Qc) : Prop := round q = Fin q.

#[global] Instance is_double_dec q : Decision (is_double q).
Proof. unfold is_double. apply _. Defined.

(** The offset that centres the interval from [lo] to [hi], minus the sum
    of the two over two, and the scale that brings an extent [E] to 2, as
    rationals. *)
Definition offset_of (lo hi : Qc) : Qc := (- (hi + lo) / two_Qc)%Qc.
Definition scale_of (E : Qc) : Qc := (two_Qc / E)%Qc.

(** The normalization rounds nothing on the vertices [vs], of bounds [lo]
    and [hi] and of largest extent [E]: the extents, the sums of the bounds,
    the offsets, the scale, and the sum and the product computed for each
    coordinate are doubles as they are. *)
Definition normalization_exact (vs : list OBJLoader.Vec3)
    (lo hi : Axis -> Qc) (E : Qc) : Prop :=
  (forall a, is_double (hi a - lo a)%Qc /\ is_double (hi a + lo a)%Qc /\
             is_double (offset_of (lo a) (hi a))) /\
  is_double (scale_of E) /\
  (forall v a q, v ∈ vs -> val (coord a v) = Some q ->
     is_double (q + offset_of (lo a) (hi a))%Qc /\
     is_double ((q + offset_of (lo a) (hi a)) * scale_of E)%Qc).

(** Every face record of the file has three or four references. *)
Definition faces_supported (contents : string) : Prop :=
  forall line, line ∈ file_lines contents -> is_face_line line = true ->
    length (OBJLoader.face_parts line) = 3%nat \/
    length (OBJLoader.face_parts line) = 4%nat.

(** A sample mesh: two vertices, one face. *)
Definition sample_mesh : string := unlines ["v 0 0 0"; "v 1 2 4"; "f 1 2 2"].

Definition sample_lo (a : Axis) : Qc := Q2Qc 0.

Definition sample_hi (a : Axis) : Qc :=
  match a with
  | Axis0 => Q2Qc (inject_Z 1)
  | Axis1 => Q2Qc (inject_Z 2)
  | Axis2 => Q2Qc (inject_Z 4)
  end.

(** *** Trees in the store *)

(** The shape of a tree of nodes: the address of its root and the shapes of
    the subtrees of its children, in the order of the [children] array. *)
#[local] Unset Elimination Schemes.
Inductive shape : Type := Shape (root : addr) (kids : list shape).
#[local] Set Elimination Schemes.

Definition shape_root (t : shape) : addr := match t with Shape a _ => a end.

(** The addresses of a tree, depth first, a node before its children. *)
Fixpoint preorder (t : shape) : list addr :=
  match t with
  | Shape a ks => a :: concat (map preorder ks)
  end.

Fixpoint height (t : shape) : nat :=
  match t with
  | Shape _ ks => S (max_list (map height ks))
  end.

Section TreeVocabulary.
Context `{Imports}.
Abbreviation Heap := (list SceneNode).

(** The store holds at the root of [t] a node whose parent is [par], and
    whose children are the roots of the subtrees of [t], which the store
    holds in the same way. *)
Fixpoint tree_at (h : Heap) (par : option addr) (t : shape) : Prop :=
  match t with
  | Shape a ks =>
      exists n, h !! a = Some n /\ parent n = par /\
                children n = map shape_root ks /\
                foldr (fun k rest => tree_at h (Some a) k /\ rest) True ks
  end.

(** A tree of the store: hung under no parent, and no node occurs twice. *)
Definition scene_tree (h : Heap) (t : shape) : Prop :=
  tree_at h None t /\ NoDup (preorder t).

(** Walking the parents from [start] up to the root: [path] lists the
    addresses met, [start] first and the root last, and [ts] their local
    transformations, in the same order. *)
Inductive chain (h : Heap) : option addr -> list addr -> list mat4 -> Prop :=
  | chain_nil : chain h None [] []
  | chain_cons a n path ts :
      h !! a = Some n ->
      chain h (parent n) path ts ->
      chain h (Some a) (a :: path) (transformation n :: ts).

(** The product of matrices, from the left, starting from the identity. *)
Definition product (ms : list mat4) : mat4 := fold_left mat4_multiply ms mat4_create.

(** The cached world transformation of the node at [a] is the product of
    the local transformations from the root down to [a]. *)
Definition world_fresh (h : Heap) (a : addr) : Prop :=
  exists n path ts,
    h !! a = Some n /\ chain h (Some a) path ts /\
    world_transformation n = product (rev ts).

(** The renderable of the node at [a], when it has one, is placed by the
    cached world transformation of the node. *)
Definition obj3d_synced (h : Heap) (a : addr) : Prop :=
  forall n o, h !! a = Some n -> obj3d n = Some o ->
              o_transformation o = world_transformation n.

(** What of a node the cached fields leave aside, and two stores whose
    nodes differ at most by their cached world transformations and by their
    renderables. *)
Definition skeleton (n : SceneNode)
    : string * string * mat4 * option addr * list addr :=
  (name n, type n, transformation n, parent n, children n).

Definition same_skeleton (h h' : Heap) : Prop :=
  forall a, skeleton <$> h !! a = skeleton <$> h' !! a.

(** The end of [setTransformation] on a node: the world transformation is
    stored, and handed to the renderable when there is one. *)
Definition refreshed (world : mat4) (n : SceneNode) : SceneNode :=
  let n := with_world_transformation world n in
  match obj3d n with
  | Some o => with_obj3d (Some (Object3D_setTransformation o world)) n
  | None => n
  end.

(** The loop of [setTransformation] over the children. *)
Definition refresh_children (fuel : nat) (h : Heap) (cs : list addr) : option Heap :=
  for_each (fun h child =>
              child_node ← h !! child;
              setTransformation fuel h child (transformation child_node))
           h cs.

(** What a call leaves behind, from the store [h0] to the store [h']: the
    skeleton is kept, the nodes outside [nodes] are untouched, and those of
    [nodes] have a fresh world transformation, handed to their renderable. *)
Definition refresh_post (h0 h' : Heap) (nodes : list addr) : Prop :=
  same_skeleton h0 h' /\
  (forall b, b ∉ nodes -> h' !! b = h0 !! b) /\
  (forall b, b ∈ nodes -> world_fresh h' b /\ obj3d_synced h' b).

(** [setTransformation] on the root of the tree [t], hung under [par] whose
    ancestors are [path], returns and refreshes the nodes of [t]. *)
Definition refreshes_subtree (t : shape) : Prop :=
  forall h par m path ts fuel node,
    tree_at h par t -> NoDup (preorder t) ->
    chain h par path ts -> (forall x, x ∈ path -> x ∉ preorder t) ->
    length path + 2 * height t <= S fuel ->
    h !! shape_root t = Some node ->
    exists h',
      setTransformation fuel h (shape_root t) m = Some h' /\
      refresh_post (<[shape_root t := with_transformation m node]> h) h'
                   (preorder t).

(** The links of a node, and two stores with the same links. *)
Definition links (n : SceneNode) : option addr * list addr := (parent n, children n).

Definition same_links (h h' : Heap) : Prop :=
  forall a, links <$> h !! a = links <$> h' !! a.

(** Loading a node description allocates the nodes of a tree, a node
    before its children, at the end of the store, and changes nothing of
    what the store held. *)
Definition loads_tree (node_config : NodeConfig) : Prop :=
  forall models h a h',
    loadScenegraphNode models node_config h = Ok (Some a, h') ->
    a = length h /\ length h < length h' /\
    (forall x, x < length h -> h' !! x = h !! x) /\
    exists t, shape_root t = a /\
              preorder t = seq (length h) (length h' - length h) /\
              tree_at h' None t.

(** A client calling [setTransformation] on one node after another. *)
Definition setTransformations (fuel : nat) (h : Heap) (calls : list (addr * mat4))
    : option Heap :=
  for_each (fun h call => setTransformation fuel h (fst call) (snd call)) h calls.

(** The first address of [l] whose node has the name [wanted]. *)
Definition has_name (h : Heap) (wanted : string) (a : addr) : bool :=
  bool_decide (name <$> h !! a = Some wanted).

Definition first_named (h : Heap) (wanted : string) (l : list addr) : option addr :=
  find (has_name h wanted) l.

End TreeVocabulary.




(** *** A sample scene *)

(** Stand-ins for what the scenegraph imports.  The matrices are words
    over numbers and their product is concatenation, which like the product
    of matrices is associative, has a unit and does not commute; a
    transformation is described by its word; every file holds one face and
    no vertex. *)
Definition sample_imports : Imports :=
  {| mat4 := list nat;
     mat4_create := [];
     mat4_multiply := @app nat;
     TransformConfig := list nat;
     json2transform := fun t => t;
     loadExternalFile := fun _ => "f 1 2 3" |}.

Definition sample_graph : @NodeConfig sample_imports :=
  mkNodeConfig (H := sample_imports) "root" "node" [1] ""
    [mkNodeConfig (H := sample_imports) "a" "model" [2] "mesh" [mkNodeConfig (H := sample_imports) "c" "node" [4] "" []];
     mkNodeConfig (H := sample_imports) "b" "node" [3] "" []].

Definition sample_config : @SceneConfig sample_imports :=
  {| cfg_models := [mkModelConfig "mesh" "mesh.obj"];
     cfg_scenegraph := sample_graph |}.

(** The same scene, whose model node asks for a model that was not
    declared. *)
Definition missing_config : @SceneConfig sample_imports :=
  {| cfg_models := [mkModelConfig "mesh" "mesh.obj"];
     cfg_scenegraph :=
       mkNodeConfig (H := sample_imports) "root" "node" [1] ""
         [mkNodeConfig (H := sample_imports) "a" "model" [2] "teapot" []] |}.

(** The nodes of the sample scene as [loadScenegraphNode] leaves them, the
    mesh of the renderable apart; the cached world transformations of the
    children are those that their constructors computed, before they had a
    parent. *)
Definition sample_heap : list (@SceneNode sample_imports) :=
  [ mkSceneNode (H := sample_imports) "root" "node" [1] [1] None [1; 3] None;
    mkSceneNode (H := sample_imports) "a" "model" [2] [2] (Some 0) [2]
                (Some (mkObject3D (H := sample_imports) [] [] TRIANGLES []));
    mkSceneNode (H := sample_imports) "c" "node" [4] [4] (Some 1) [] None;
    mkSceneNode (H := sample_imports) "b" "node" [3] [3] (Some 0) [] None ].

Definition sample_shape : shape :=
  Shape 0 [Shape 1 [Shape 2 []]; Shape 3 []].

Definition sample_scene : @Scene sample_imports :=
  mkScene (H := sample_imports) sample_config ∅ 0 sample_heap.

(** *** Vocabulary: the records of a file *)

(** The records of a file that [load] reads: the lines that, once trimmed,
    start a vertex or a face. *)
Definition is_record (line : string) : bool :=
  (is_vertex_line line || is_face_line line)%bool.

Definition records (contents : string) : list string :=
  filter (fun l => is_record l = true) (file_lines contents).

Definition vertex_records (contents : string) : list string :=
  filter (fun l => is_vertex_line l = true) (file_lines contents).

Definition face_records (contents : string) : list string :=
  filter (fun l => is_face_line l = true) (file_lines contents).

(** The face records with [k] references. *)
Definition faces_of_arity (k : nat) (contents : string) : list string :=
  filter (fun l => length (OBJLoader.face_parts l) = k) (face_records contents).

Definition CR : ascii := "013"%char.

(** The sample mesh in another dress: a comment, indented records, a blank
    line, a normal, line ends of two characters. *)
Definition dressed_mesh : string :=
  unlines ["# two vertices" +:+ String CR "";
           "  v 0 0 0" +:+ String CR "";
           "";
           "vn 0 0 1";
           "v 1 2 4  ";
           "f 1 2 2" +:+ String CR ""].

(** A mesh whose second vertex record lacks a coordinate. *)
Definition truncated_mesh : string := unlines ["v 0 0 0"; "v 1 2"; "f 1 2 2"].

(** ** The rest of the scenegraph, and the application that drives it *)

Section SceneClients.
Context `{Imports}.
Abbreviation Heap := (list SceneNode).

(** [getWorldTransformation()], [getTransformation()] and [getParent()], of a
    node of the store. *)
Definition getWorldTransformation (h : Heap) (this : addr) : option mat4 :=
  world_transformation <$> h !! this.

Definition getTransformation (h : Heap) (this : addr) : option mat4 :=
  transformation <$> h !! this.

Definition getParent (h : Heap) (this : addr) : option (option addr) :=
  parent <$> h !! this.

(** Modelled from the spec: [Object3D.setDrawMode] and [Object3D.render]
    ([js/app/object3d.js]) are not among the sources.  The former replaces
    the draw mode of the renderable; the latter issues the draw call of the
    renderable, which the embedding records: a rendering pass yields the
    list of the renderables drawn, in the order of the calls. *)
Definition Object3D_setDrawMode (o : Object3D) (draw_mode : DrawMode) : Object3D :=
  mkObject3D (o_vertices o) (o_indices o) draw_mode (o_transformation o).

(** [ModelNode.setDrawMode(draw_mode)].  A node that is no [ModelNode] has
    no such method: calling it raises a TypeError. *)
Definition setDrawMode (h : Heap) (this : addr) (draw_mode : DrawMode)
    : option (result Heap) :=
  node ← h !! this;
  match obj3d node with
  | Some o =>
      let o := Object3D_setDrawMode o draw_mode in
      Some (Ok (<[this := with_obj3d (Some o) node]> h))
  | None => Some (Throw TypeError)
  end.

(** [render(gl)], of [SceneNode] and, for a node with an [obj3d], the
    override of [ModelNode], which draws the renderable and then runs the
    former.  [drawn] lists the renderables drawn so far. *)
Fixpoint render (fuel : nat) (h : Heap) (this : addr) (drawn : list Object3D)
    : option (list Object3D) :=
  match fuel with
  | O => None
  | S fuel' =>
      node ← h !! this;
      let drawn :=
        match obj3d node with
        | Some o => drawn ++ [o]
        | None => drawn
        end in
      for_each (fun drawn child => render fuel' h child drawn) drawn (children node)
  end.

(** [Scene.render(gl)] *)
Definition Scene_render (fuel : nat) (sc : Scene) : option (list Object3D) :=
  render fuel (heap sc) (scenegraph sc) [].

(** The loop of [WebGlApp.update] that hands the draw mode [glDrawMode] to
    the nodes of [nodes] whose type is [model].  [update] takes the mode
    from the state of the interface, [gl.POINTS] or [gl.TRIANGLES]; a state
    that names neither leaves the variable undefined, a case that is left
    out here. *)
Fixpoint setDrawModes (glDrawMode : DrawMode) (nodes : list addr) (h : Heap)
    : option (result Heap) :=
  match nodes with
  | [] => Some (Ok h)
  | node :: rest =>
      n ← h !! node;
      if decide (type n = "model") then
        r ← setDrawMode h node glDrawMode;
        match r with
        | Ok h => setDrawModes glDrawMode rest h
        | Throw e => Some (Throw e)
        end
      else setDrawModes glDrawMode rest h
  end.

(** The part of [WebGlApp.update] that applies the draw mode to the scene,
    [this.scene.getNodes()] being the nodes it visits. *)
Definition update_draw_mode (fuel : nat) (sc : Scene) (glDrawMode : DrawMode)
    : option (result Heap) :=
  nodes ← Scene_getNodes fuel sc;
  setDrawModes glDrawMode nodes (heap sc).

(** The end of [WebGlApp.updateSceneNode], once the mouse has given the
    matrices [rotation], [scale] and [translation]: when the node is dirty
    its transformation is multiplied on the left by each of them in turn,
    in the matrix that the node holds, and handed to [setTransformation]. *)
Definition updateSceneNode_apply (fuel : nat) (h : Heap) (node : addr)
    (node_dirty : bool) (rotation scale translation : mat4) : option Heap :=
  if node_dirty then
    transformation ← getTransformation h node;
    let transformation := mat4_multiply rotation transformation in
    let transformation := mat4_multiply scale transformation in
    let transformation := mat4_multiply translation transformation in
    n ← h !! node;
    let h := <[node := with_transformation transformation n]> h in
    setTransformation fuel h node transformation
  else Some h.

(** *** Vocabulary: descriptions and what the constructor makes of them *)

Definition cfg_name (c : NodeConfig) : string :=
  match c with mkNodeConfig nm _ _ _ _ => nm end.
Definition cfg_type (c : NodeConfig) : string :=
  match c with mkNodeConfig _ ty _ _ _ => ty end.
Definition cfg_transformation (c : NodeConfig) : TransformConfig :=
  match c with mkNodeConfig _ _ tr _ _ => tr end.
Definition cfg_content (c : NodeConfig) : string :=
  match c with mkNodeConfig _ _ _ content _ => content end.

(** The descriptions of a scenegraph, depth first, a description before
    those of its children. *)
Fixpoint config_nodes (c : NodeConfig) : list NodeConfig :=
  match c with
  | mkNodeConfig _ _ _ _ cs => c :: concat (map config_nodes cs)
  end.

(** What a renderable draws: its buffers and its draw mode. *)
Definition mesh_of (o : Object3D) : list Number * list Number * DrawMode :=
  (o_vertices o, o_indices o, o_draw_mode o).

(** A node without its caches, which are the cached world transformation
    and the placement of its renderable: its name, type, local
    transformation, parent, children, and what its renderable draws. *)
Abbreviation Outline :=
  (string * string * mat4 * option addr * list addr
   * option (list Number * list Number * DrawMode))%type.

Definition outline (n : SceneNode) : Outline :=
  (name n, type n, transformation n, parent n, children n, mesh_of <$> obj3d n).

(** The mesh of the renderable of a node of type [ty] and content
    [content]. *)
Definition expected_mesh (models : gmap string Mesh) (ty content : string)
    : option (list Number * list Number * DrawMode) :=
  if decide (ty = "model")
  then (fun mesh : Mesh => (mesh.1, mesh.2, TRIANGLES)) <$> models !! content
  else None.

(** The addresses of the nodes of the descriptions [cs] when they are
    allocated one after the other from the address [a] on, each with its
    descendants. *)
Fixpoint child_addrs (a : addr) (cs : list NodeConfig) : list addr :=
  match cs with
  | [] => []
  | c :: cs => a :: child_addrs (a + length (config_nodes c)) cs
  end.

(** The outlines of the nodes of the description [c], allocated depth
    first from the address [a] on, under the parent [par]. *)
Fixpoint layout (models : gmap string Mesh) (par : option addr) (a : addr)
    (c : NodeConfig) : list Outline :=
  match c with
  | mkNodeConfig nm ty tr content cs =>
      (nm, ty, json2transform tr, par, child_addrs (S a) cs,
       expected_mesh models ty content)
      :: (fix forest (b : addr) (cs : list NodeConfig) :=
            match cs with
            | [] => []
            | c' :: cs' =>
                layout models (Some a) b c'
                ++ forest (b + length (config_nodes c')) cs'
            end) (S a) cs
  end.

(** The same for the descriptions [cs], children of the node at [a],
    allocated from [b] on. *)
Fixpoint layout_forest (models : gmap string Mesh) (a : addr) (b : addr)
    (cs : list NodeConfig) : list Outline :=
  match cs with
  | [] => []
  | c' :: cs' =>
      layout models (Some a) b c'
      ++ layout_forest models a (b + length (config_nodes c')) cs'
  end.

(** A model is declared under the name [nm]. *)
Definition declared (models_config : list ModelConfig) (nm : string) : Prop :=
  exists mc, mc ∈ models_config /\ mc_name mc = nm.

(** The last declaration of a model under the name [nm]. *)
Definition last_declared (models_config : list ModelConfig) (nm : string)
    : option ModelConfig :=
  last (filter (fun mc => mc_name mc = nm) models_config).

(** A scene configuration that the constructor accepts: its meshes have
    supported faces only, no model is named like a truth value, and each
    node is a plain node or a model node whose content is declared. *)
Definition well_formed (config : SceneConfig) : Prop :=
  (forall mc, mc ∈ cfg_models config ->
     faces_supported (loadExternalFile (mc_obj mc))) /\
  ~ declared (cfg_models config) "true" /\
  ~ declared (cfg_models config) "false" /\
  forall c, c ∈ config_nodes (cfg_scenegraph config) ->
    cfg_type c = "node" \/
    (cfg_type c = "model" /\ declared (cfg_models config) (cfg_content c)).

(** The renderable of a node of the store, when it has one. *)
Definition renderable (h : Heap) (a : addr) : option Object3D :=
  n ← h !! a; obj3d n.

(** A description that [loadScenegraphNode] accepts, with the table
    [models]. *)
Definition accepted (models : gmap string Mesh) (c : NodeConfig) : Prop :=
  cfg_type c = "node" \/ (cfg_type c = "model" /\ is_Some (models !! cfg_content c)).

(** What [loadScenegraphNode] builds from a description it accepts: it
    leaves the store as it was and appends the layout of the description,
    under no parent. *)
Definition builds (models : gmap string Mesh) (c : NodeConfig) : Prop :=
  forall h a h',
    loadScenegraphNode models c h = Ok (Some a, h') ->
    a = length h /\
    Forall (accepted models) (config_nodes c) /\
    exists new, h' = h ++ new /\
                map outline new = layout models None (length h) c.

(** [loadScenegraphNode] returns a node for a description whose nodes it
    accepts. *)
Definition loads (models : gmap string Mesh) (c : NodeConfig) : Prop :=
  Forall (accepted models) (config_nodes c) ->
  forall h, exists h', loadScenegraphNode models c h = Ok (Some (length h), h').

(** What [loadScenegraphNode] throws. *)
Definition throws_as_expected (models : gmap string Mesh) (c : NodeConfig) : Prop :=
  forall h e,
    loadScenegraphNode models c h = Throw e ->
    e = TypeError \/
    (exists nm, e = model_not_found nm) /\
    (is_Some (models !! "true") \/ is_Some (models !! "false")).

(** The label of a node, and the label that a description gives. *)
Definition label (n : SceneNode) : string * string * mat4 :=
  (name n, type n, transformation n).

Definition cfg_label (c : NodeConfig) : string * string * mat4 :=
  (cfg_name c, cfg_type c, json2transform (cfg_transformation c)).

(** The node [n] is the one that the constructor makes of the description
    [c]: it has its label, and a renderable with the mesh of its content
    when it is a model. *)
Definition mirrors (models : gmap string Mesh) (n : SceneNode) (c : NodeConfig)
    : Prop :=
  label n = cfg_label c /\
  mesh_of <$> obj3d n = expected_mesh models (cfg_type c) (cfg_content c).

(** A node whose renderable, when it has one, draws in the mode
    [draw_mode]. *)
Definition with_draw_mode (draw_mode : DrawMode) (n : SceneNode) : SceneNode :=
  match obj3d n with
  | Some o => with_obj3d (Some (Object3D_setDrawMode o draw_mode)) n
  | None => n
  end.

End SceneClients.

(** *** More samples *)

(** Stand-ins whose files differ: a triangle, a square, a file with a face
    of two references; any other file is empty. *)
Definition library_file (filename : string) : string :=
  if decide (filename = "triangle.obj")
  then unlines ["# triangle"; "v 0 0 0"; "v 1 0 0"; "v 0 1 0"; "f 1 2 3"]
  else if decide (filename = "square.obj")
  then unlines ["v 0 0 0"; "v 2 0 0"; "v 2 2 0"; "v 0 2 0"; "f 1/1 2/2 3/3 4/4"]
  else if decide (filename = "broken.obj")
  then unlines ["v 0 0 0"; "f 1 2"]
  else "".

Definition library_imports : Imports :=
  {| mat4 := list nat;
     mat4_create := [];
     mat4_multiply := @app nat;
     TransformConfig := list nat;
     json2transform := fun t => t;
     loadExternalFile := library_file |}.

(** Two declarations under the name [shape], the second of which wins,
    and one under [tri]. *)
Definition library_models : list ModelConfig :=
  [mkModelConfig "shape" "triangle.obj";
   mkModelConfig "tri" "triangle.obj";
   mkModelConfig "shape" "square.obj"].

(** A scene with two nodes of the same name. *)
Definition library_graph : @NodeConfig library_imports :=
  mkNodeConfig (H := library_imports) "root" "node" [1] ""
    [mkNodeConfig (H := library_imports) "wing" "model" [2] "shape"
       [mkNodeConfig (H := library_imports) "tip" "model" [4] "tri" []];
     mkNodeConfig (H := library_imports) "wing" "node" [3] "" []].

Definition library_config : @SceneConfig library_imports :=
  {| cfg_models := library_models; cfg_scenegraph := library_graph |}.

(** The same scene with a model whose file has an unsupported face, and
    which no node uses. *)
Definition broken_config : @SceneConfig library_imports :=
  {| cfg_models := library_models ++ [mkModelConfig "unused" "broken.obj"];
     cfg_scenegraph := library_graph |}.

(** A scene with a node of a type that [loadScenegraphNode] does not
    know. *)
Definition light_config : @SceneConfig library_imports :=
  {| cfg_models := library_models;
     cfg_scenegraph :=
       mkNodeConfig (H := library_imports) "root" "node" [1] ""
         [mkNodeConfig (H := library_imports) "sun" "light" [2] "" []] |}.

(** * Properties *)

(** ** The rounding *)

(** [round] returns a double, keeps the doubles and sends whole numbers to
    whole numbers; no double lies beyond [MAX_VALUE]. *)

Section Rounding.
Local Open Scope Q_scope.

Lemma pow2_pos k : 0 < pow2 k.
Proof. by apply Qpower_0_lt. Qed.

Lemma pow2_nonzero k : ~ pow2 k == 0.
Proof. intros H. pose proof (pow2_pos k) as Hp. rewrite H in Hp. by apply Qlt_irrefl in Hp. Qed.

Lemma pow2_add a b : pow2 (a + b) == pow2 a * pow2 b.
Proof. by apply Qpower_plus. Qed.

Lemma pow2_le a b : (a <= b)%Z -> pow2 a <= pow2 b.
Proof. intros H. by apply Qpower_le_compat_l. Qed.

Lemma pow2_lt_inv a b : pow2 a < pow2 b -> (a < b)%Z.
Proof. intros H. by apply (Qpower_lt_compat_l_inv (2 # 1)). Qed.

Lemma pow2_Z k : (0 <= k)%Z -> pow2 k == inject_Z (2 ^ k).
Proof. intros H. symmetry. by apply Zpower_Qpower. Qed.

Lemma pow2_quotient a b : pow2 a / pow2 b == pow2 (a - b).
Proof.
  replace a with ((a - b) + b)%Z at 1 by lia. rewrite pow2_add.
  field. apply pow2_nonzero.
Qed.

Lemma inject_Z_lt a b : (a < b)%Z -> inject_Z a < inject_Z b.
Proof. by rewrite <- Zlt_Qlt. Qed.

Lemma inject_Z_le a b : (a <= b)%Z -> inject_Z a <= inject_Z b.
Proof. by rewrite <- Zle_Qle. Qed.

(** The exponent. *)
Lemma ilog2_spec q : 0 < q -> pow2 (ilog2 q) <= q /\ q < pow2 (ilog2 q + 1).
Proof.
  intros Hq. destruct q as [n d].
  assert (0 < n)%Z as Hn.
  { unfold Qlt in Hq. simpl in Hq. lia. }
  pose proof (Z.log2_spec n Hn) as [Hn1 Hn2].
  pose proof (Z.log2_spec (Z.pos d) (Pos2Z.is_pos d)) as [Hd1 Hd2].
  pose proof (Z.log2_nonneg n) as Ha. pose proof (Z.log2_nonneg (Z.pos d)) as Hb.
  set (a := Z.log2 n) in *. set (b := Z.log2 (Z.pos d)) in *.
  assert (0 < inject_Z (Z.pos d)) as HD by (by apply (inject_Z_lt 0)).
  assert (n # d == inject_Z n / inject_Z (Z.pos d)) as Hnd by apply Qmake_Qdiv.
  assert (pow2 (a - b - 1) < n # d) as Hlow.
  { rewrite Hnd. apply Qlt_shift_div_l; [done |].
    apply (Qlt_le_trans _ (pow2 (a - b - 1) * pow2 (b + 1))).
    - apply Qmult_lt_l; [apply pow2_pos |].
      rewrite pow2_Z by lia. apply inject_Z_lt. by rewrite <- Z.add_1_r in Hd2.
    - rewrite <- pow2_add. replace (a - b - 1 + (b + 1))%Z with a by lia.
      rewrite pow2_Z by lia. by apply inject_Z_le. }
  assert (n # d < pow2 (a - b + 1)) as Hhigh.
  { rewrite Hnd. apply Qlt_shift_div_r; [done |].
    apply (Qlt_le_trans _ (pow2 (a - b + 1) * pow2 b)).
    - rewrite <- pow2_add. replace (a - b + 1 + b)%Z with (a + 1)%Z by lia.
      rewrite pow2_Z by lia. apply inject_Z_lt. by rewrite <- Z.add_1_r in Hn2.
    - apply Qmult_le_l; [apply pow2_pos |].
      rewrite pow2_Z by lia. by apply inject_Z_le. }
  unfold ilog2. cbn [Qnum Qden]. fold a b.
  destruct (Qle_bool (pow2 (a - b)) (n # d)) eqn:Hle.
  - apply Qle_bool_iff in Hle. done.
  - split; [by apply Qlt_le_weak |].
    replace (a - b - 1 + 1)%Z with (a - b)%Z by lia.
    apply Qnot_le_lt. intros H. apply Qle_bool_iff in H. congruence.
Qed.

(** The nearest integer. *)
Lemma nearest_even_Z t m : t == inject_Z m -> nearest_even t = m.
Proof.
  intros Ht. unfold nearest_even.
  assert (Qfloor t = m) as -> by (by rewrite Ht, Qfloor_Z).
  assert (t - inject_Z m == 0) as -> by (rewrite Ht; ring). done.
Qed.

Lemma nearest_even_floor t :
  (Qfloor t <= nearest_even t <= Qfloor t + 1)%Z.
Proof.
  unfold nearest_even. destruct (t - inject_Z (Qfloor t) ?= 1 # 2); [| lia | lia].
  destruct (Z.even (Qfloor t)); lia.
Qed.

Lemma nearest_even_ge t m : inject_Z m <= t -> (m <= nearest_even t)%Z.
Proof.
  intros H. apply Qfloor_resp_le in H. rewrite Qfloor_Z in H.
  pose proof (nearest_even_floor t). lia.
Qed.

Lemma nearest_even_le t m : t <= inject_Z m -> (nearest_even t <= m)%Z.
Proof.
  intros H. pose proof (nearest_even_floor t) as Hf.
  pose proof (Qfloor_resp_le _ _ H) as Hfl. rewrite Qfloor_Z in Hfl.
  destruct (Z.eq_dec (Qfloor t) m) as [Heq | Hne]; [| lia].
  rewrite (nearest_even_Z t m); [lia |].
  apply Qle_antisym; [done |]. rewrite <- Heq. apply Qfloor_le.
Qed.

(** The magnitude of the double nearest to a positive rational: a multiple
    of the spacing, between 2^52 and 2^53 spacings for a normal number. *)
Lemma ulp_exponent_min q : (-1074 <= ulp_exponent q)%Z.
Proof. unfold ulp_exponent. lia. Qed.

Lemma scaled_upper q :
  0 < q -> q / pow2 (ulp_exponent q) < pow2 53.
Proof.
  intros Hq. destruct (ilog2_spec q Hq) as [_ H].
  apply Qlt_shift_div_r; [apply pow2_pos |]. rewrite <- pow2_add.
  eapply Qlt_le_trans; [done |]. apply pow2_le. unfold ulp_exponent. lia.
Qed.

Lemma scaled_lower q :
  0 < q -> ulp_exponent q = (ilog2 q - 52)%Z ->
  pow2 52 <= q / pow2 (ulp_exponent q).
Proof.
  intros Hq Hu. destruct (ilog2_spec q Hq) as [H _].
  apply Qle_shift_div_l; [apply pow2_pos |]. rewrite <- pow2_add, Hu.
  by replace (52 + (ilog2 q - 52))%Z with (ilog2 q) by lia.
Qed.

Lemma scaled_pos q : 0 < q -> 0 < q / pow2 (ulp_exponent q).
Proof.
  intros Hq. apply Qlt_shift_div_l; [apply pow2_pos |]. by rewrite Qmult_0_l.
Qed.

Lemma mantissa_range q :
  0 < q ->
  (0 <= nearest_even (q / pow2 (ulp_exponent q)) <= 2 ^ 53)%Z.
Proof.
  intros Hq. split.
  - apply nearest_even_ge. apply Qlt_le_weak. by apply scaled_pos.
  - apply nearest_even_le. rewrite <- pow2_Z by lia.
    apply Qlt_le_weak. by apply scaled_upper.
Qed.

Lemma mantissa_normal q :
  0 < q -> ulp_exponent q = (ilog2 q - 52)%Z ->
  (2 ^ 52 <= nearest_even (q / pow2 (ulp_exponent q)))%Z.
Proof.
  intros Hq Hu. apply nearest_even_ge. rewrite <- pow2_Z by lia.
  by apply scaled_lower.
Qed.

Lemma round_magnitude_nonneg q : 0 < q -> 0 <= round_magnitude q.
Proof.
  intros Hq. unfold round_magnitude. apply Qmult_le_0_compat.
  - apply (inject_Z_le 0). by apply mantissa_range.
  - apply Qlt_le_weak, pow2_pos.
Qed.

(** Multiples of the spacing are kept. *)
Lemma round_magnitude_exact q m k :
  q == inject_Z m * pow2 k -> (0 < m < 2 ^ 53)%Z -> (-1074 <= k)%Z ->
  round_magnitude q == q.
Proof.
  intros Hq Hm Hk.
  assert (0 < q) as Hpos.
  { rewrite Hq. apply Qmult_lt_0_compat; [apply (inject_Z_lt 0); lia | apply pow2_pos]. }
  assert (ulp_exponent q <= k)%Z as Hu.
  { destruct (ilog2_spec q Hpos) as [H _].
    assert (ilog2 q < k + 53)%Z; [| unfold ulp_exponent; lia].
    apply pow2_lt_inv. eapply Qle_lt_trans; [done |].
    rewrite Hq, (Z.add_comm k), pow2_add. apply Qmult_lt_r; [apply pow2_pos |].
    rewrite pow2_Z by lia. apply inject_Z_lt. lia. }
  unfold round_magnitude. set (u := ulp_exponent q) in *.
  assert (q / pow2 u == inject_Z (m * 2 ^ (k - u))) as Ht.
  { rewrite inject_Z_mult, <- pow2_Z by lia. rewrite Hq, <- pow2_quotient.
    field. apply pow2_nonzero. }
  rewrite (nearest_even_Z _ _ Ht), <- Ht. field. apply pow2_nonzero.
Qed.

(** What the rounding returns is such a multiple, or zero. *)
Lemma round_magnitude_form q :
  0 < q ->
  round_magnitude q == 0 \/
  exists m k, round_magnitude q == inject_Z m * pow2 k /\
              (0 < m < 2 ^ 53)%Z /\ (-1074 <= k)%Z.
Proof.
  intros Hq. pose proof (mantissa_range q Hq) as [H0 H53].
  pose proof (ulp_exponent_min q) as Hu.
  unfold round_magnitude. set (F := nearest_even (q / pow2 (ulp_exponent q))) in *.
  destruct (Z.eq_dec F 0%Z) as [-> | Hne0]; [left; ring |].
  right. destruct (Z.eq_dec F (2 ^ 53)%Z) as [-> | Hne].
  - exists 1%Z, (ulp_exponent q + 53)%Z. split; [| lia].
    rewrite <- pow2_Z by lia. rewrite (Z.add_comm _ 53), pow2_add. ring.
  - exists F, (ulp_exponent q). split; [done | lia].
Qed.

(** Below the overflow threshold the result is at most [MAX_VALUE]. *)
Lemma round_magnitude_range q :
  0 < q -> round_magnitude q < pow2 1024 ->
  round_magnitude q <= inject_Z (2 ^ 1024 - 2 ^ 971).
Proof.
  intros Hq Hlt. pose proof (mantissa_range q Hq) as [H0 H53].
  unfold round_magnitude in *. set (u := ulp_exponent q) in *.
  set (F := nearest_even (q / pow2 u)) in *.
  destruct (Z_lt_le_dec u 971%Z) as [Hu | Hu].
  - (* at most 2^53 * 2^970 *)
    apply (Qle_trans _ (pow2 53 * pow2 970)).
    + apply Qmult_le_compat_nonneg.
      * split; [by apply (inject_Z_le 0) |]. rewrite pow2_Z by lia. by apply inject_Z_le.
      * split; [apply Qlt_le_weak, pow2_pos | apply pow2_le; lia].
    + rewrite <- pow2_add, pow2_Z by lia. apply inject_Z_le. by vm_compute.
  - destruct (Z.eq_dec u 971%Z) as [Heq | Hne].
    + rewrite Heq in *.
      assert (F < 2 ^ 53)%Z as HF.
      { rewrite Zlt_Qlt, <- pow2_Z by lia.
        apply (Qmult_lt_r _ _ (pow2 971)); [apply pow2_pos |].
        rewrite <- pow2_add. done. }
      apply (Qle_trans _ (inject_Z (2 ^ 53 - 1) * pow2 971)).
      * apply Qmult_le_compat_r; [apply inject_Z_le; lia | apply Qlt_le_weak, pow2_pos].
      * rewrite pow2_Z, <- inject_Z_mult by lia. apply inject_Z_le. by vm_compute.
    + (* a normal number of exponent 1024 or more: overflow *)
      exfalso. assert (u = (ilog2 q - 52)%Z) as Hnorm by (unfold u, ulp_exponent in *; lia).
      pose proof (mantissa_normal q Hq Hnorm) as HF. fold u F in HF.
      apply (Qlt_irrefl (pow2 1024)). eapply Qle_lt_trans; [| exact Hlt].
      apply (Qle_trans _ (pow2 52 * pow2 u)).
      * rewrite <- pow2_add. apply pow2_le. lia.
      * apply Qmult_le_compat_r; [| apply Qlt_le_weak, pow2_pos].
        rewrite pow2_Z by lia. by apply inject_Z_le.
Qed.

Lemma Q2Qc_eq (q q' : Q) : q == q' -> Q2Qc q = Q2Qc q'.
Proof. intros H. apply Qc_is_canon. simpl. by rewrite !Qred_correct. Qed.

Lemma Qle_bool_false x y : y < x -> Qle_bool x y = false.
Proof.
  intros H. destruct (Qle_bool x y) eqn:Hb; [| done].
  apply Qle_bool_iff in Hb. exfalso. by apply (Qlt_not_le _ _ H).
Qed.

Lemma Qeq_bool_false x y : ~ x == y -> Qeq_bool x y = false.
Proof.
  intros H. destruct (Qeq_bool x y) eqn:Hb; [| done].
  by apply Qeq_bool_iff in Hb.
Qed.

(** A double is its own rounding. *)
Lemma round_representable q : representable q -> round q = Fin (Q2Qc q).
Proof.
  intros (m & k & Hq & Hm & Hk & Hlo & Hhi). unfold round.
  destruct (Qcompare_spec q 0) as [H0 | Hneg | Hpos].
  - f_equal. apply Qc_is_canon. simpl. by rewrite Qred_correct, H0.
  - assert (0 < - q) as Hpos.
    { apply (Qplus_lt_l _ _ q). by ring_simplify. }
    assert (round_magnitude (- q) == - q) as Hex.
    { apply (round_magnitude_exact _ (- m) k); [| | done].
      - rewrite Hq, inject_Z_opp. ring.
      - assert (m < 0)%Z; [| lia]. rewrite Zlt_Qlt.
        apply (Qmult_lt_r _ _ (pow2 k)); [apply pow2_pos |].
        by rewrite <- Hq, Qmult_0_l. }
    rewrite Qle_bool_false, Qeq_bool_false.
    + f_equal. apply Q2Qc_eq. rewrite Hex. ring.
    + rewrite Hex. intros H. rewrite H in Hpos. by apply Qlt_irrefl in Hpos.
    + rewrite Hex. apply (Qplus_lt_l _ _ (q - pow2 1024)). by ring_simplify.
  - assert (round_magnitude q == q) as Hex.
    { apply (round_magnitude_exact _ m k); [done | | done].
      assert (0 < m)%Z; [| lia]. rewrite Zlt_Qlt.
      apply (Qmult_lt_r _ _ (pow2 k)); [apply pow2_pos |].
      by rewrite <- Hq, Qmult_0_l. }
    rewrite Qle_bool_false by (by rewrite Hex).
    f_equal. by apply Q2Qc_eq.
Qed.

Lemma representable_0 : representable 0.
Proof.
  exists 0%Z, 0%Z. split; [ring |]. split; [lia |]. split; [lia |]. split.
  - apply (Qplus_lt_l _ _ (pow2 1024)). ring_simplify. apply pow2_pos.
  - apply pow2_pos.
Qed.

Lemma representable_opp r : representable r -> representable (- r).
Proof.
  intros (m & k & Hq & Hm & Hk & Hlo & Hhi). exists (- m)%Z, k.
  split; [rewrite Hq, inject_Z_opp; ring |]. split; [lia |]. split; [done |]. split.
  - by apply Qopp_lt_compat.
  - apply Qopp_lt_compat in Hlo. by rewrite Qopp_involutive in Hlo.
Qed.

#[global] Instance representable_comp : Proper (Qeq ==> iff) representable.
Proof.
  intros r r' Hr. unfold representable.
  split; intros (m & k & H); exists m, k; [by rewrite <- Hr | by rewrite Hr].
Qed.

(** What the rounding returns is a double. *)
Lemma round_magnitude_representable q :
  0 < q -> round_magnitude q < pow2 1024 -> representable (round_magnitude q).
Proof.
  intros Hq Hlt. pose proof (round_magnitude_nonneg q Hq) as H0.
  assert (- pow2 1024 < round_magnitude q) as Hlo.
  { eapply Qlt_le_trans; [| done].
    apply (Qplus_lt_l _ _ (pow2 1024)). ring_simplify. apply pow2_pos. }
  destruct (round_magnitude_form q Hq) as [Hz | (m & k & Hv & Hm & Hk)].
  - rewrite Hz. apply representable_0.
  - exists m, k. split; [done |]. split; [lia |]. done.
Qed.

Lemma round_Fin q r : round q = Fin r -> representable r.
Proof.
  unfold round. destruct (Qcompare_spec q 0) as [H0 | Hneg | Hpos].
  - intros [= <-]. apply representable_0.
  - assert (0 < - q) as Hpos.
    { apply (Qplus_lt_l _ _ q). by ring_simplify. }
    destruct (Qle_bool (pow2 1024) (round_magnitude (- q))) eqn:Hov; [done |].
    destruct (Qeq_bool (round_magnitude (- q)) 0); [done |].
    intros [= <-]. simpl. rewrite Qred_correct. apply representable_opp.
    apply round_magnitude_representable; [done |].
    apply Qnot_le_lt. intros H. apply Qle_bool_iff in H. congruence.
  - destruct (Qle_bool (pow2 1024) (round_magnitude q)) eqn:Hov; [done |].
    intros [= <-]. simpl. rewrite Qred_correct.
    apply round_magnitude_representable; [done |].
    apply Qnot_le_lt. intros H. apply Qle_bool_iff in H. congruence.
Qed.

(** No double lies beyond [MAX_VALUE]. *)
Lemma round_Fin_range q r :
  round q = Fin r ->
  - inject_Z (2 ^ 1024 - 2 ^ 971) <= r /\ r <= inject_Z (2 ^ 1024 - 2 ^ 971).
Proof.
  assert (0 <= inject_Z (2 ^ 1024 - 2 ^ 971)) as HM by (by vm_compute).
  assert (- inject_Z (2 ^ 1024 - 2 ^ 971) <= 0) as HM' by (by vm_compute).
  unfold round. destruct (Qcompare_spec q 0) as [H0 | Hneg | Hpos].
  - intros [= <-]. done.
  - assert (0 < - q) as Hpos.
    { apply (Qplus_lt_l _ _ q). by ring_simplify. }
    destruct (Qle_bool (pow2 1024) (round_magnitude (- q))) eqn:Hov; [done |].
    destruct (Qeq_bool (round_magnitude (- q)) 0); [done |].
    intros [= <-]. simpl. rewrite Qred_correct.
    pose proof (round_magnitude_nonneg _ Hpos) as Hnn.
    split.
    + apply Qopp_le_compat. apply round_magnitude_range; [done |].
      apply Qnot_le_lt. intros H. apply Qle_bool_iff in H. congruence.
    + apply (Qle_trans _ 0); [| done]. apply (Qopp_le_compat 0) in Hnn. exact Hnn.
  - destruct (Qle_bool (pow2 1024) (round_magnitude q)) eqn:Hov; [done |].
    intros [= <-]. simpl. rewrite Qred_correct.
    pose proof (round_magnitude_nonneg _ Hpos) as Hnn.
    split.
    + by apply (Qle_trans _ 0).
    + apply round_magnitude_range; [done |].
      apply Qnot_le_lt. intros H. apply Qle_bool_iff in H. congruence.
Qed.



(** A whole number is rounded to a whole number. *)
Lemma round_magnitude_whole q z :
  q == inject_Z z -> (0 < z)%Z -> exists z', round_magnitude q == inject_Z z'.
Proof.
  intros Hq Hz.
  assert (0 < q) as Hpos by (rewrite Hq; by apply (inject_Z_lt 0)).
  destruct (Z_lt_le_dec z (2 ^ 53)) as [Hsmall | Hbig].
  - exists z. rewrite (round_magnitude_exact q z 0); [done | | lia | lia].
    rewrite Hq. change (pow2 0) with 1. ring.
  - destruct (ilog2_spec q Hpos) as [_ Hup].
    assert (53 < ilog2 q + 1)%Z as He.
    { apply pow2_lt_inv. eapply Qle_lt_trans; [| done].
      rewrite Hq, pow2_Z by lia. by apply inject_Z_le. }
    unfold round_magnitude.
    assert (0 <= ulp_exponent q)%Z as Hu by (unfold ulp_exponent; lia).
    eexists. rewrite (pow2_Z _ Hu) at 2. by rewrite <- inject_Z_mult.
Qed.

Lemma round_whole q z r :
  q == inject_Z z -> round q = Fin r -> exists z', r = Q2Qc (inject_Z z').
Proof.
  intros Hq. unfold round. destruct (Qcompare_spec q 0) as [H0 | Hneg | Hpos].
  - intros [= <-]. by exists 0%Z.
  - destruct (round_magnitude_whole (- q) (- z)) as [z' Hz'].
    { by rewrite Hq, inject_Z_opp. }
    { rewrite Hq in Hneg. change 0 with (inject_Z 0) in Hneg.
      rewrite <- Zlt_Qlt in Hneg. lia. }
    destruct (Qle_bool _ _); [done |]. destruct (Qeq_bool _ _); [done |].
    intros [= <-]. exists (- z')%Z. apply Q2Qc_eq. by rewrite Hz', inject_Z_opp.
  - destruct (round_magnitude_whole q z) as [z' Hz'].
    { done. }
    { rewrite Hq in Hpos. change 0 with (inject_Z 0) in Hpos.
      by rewrite <- Zlt_Qlt in Hpos. }
    destruct (Qle_bool _ _); [done |].
    intros [= <-]. exists z'. by apply Q2Qc_eq.
Qed.

Lemma Q2Qc_this (q : Qc) : Q2Qc q = q.
Proof. apply Qc_is_canon. simpl. by rewrite Qred_correct. Qed.

(** The doubles are the numbers that the rounding keeps. *)
Lemma is_double_representable (q : Qc) : is_double q <-> representable q.
Proof.
  unfold is_double. split; [apply round_Fin |].
  intros H. by rewrite (round_representable _ H), Q2Qc_this.
Qed.

Lemma round_is_double q r : round q = Fin r -> is_double r.
Proof. intros H. apply is_double_representable. by eapply round_Fin. Qed.



Lemma Q2Qc_plus_Z a b :
  (Q2Qc (inject_Z a) + Q2Qc (inject_Z b))%Qc = Q2Qc (inject_Z (a + b)).
Proof.
  apply Qc_is_canon. simpl. rewrite !Qred_correct. by rewrite inject_Z_plus.
Qed.

End Rounding.

(** ** The face records *)

Section Faces.
Import JSString JSGlobal OBJLoader.













Lemma parseFace_triangle s p0 p1 p2 :
  face_parts s = [p0; p1; p2] ->
  parseFace s = Ok [face_index p0; face_index p1; face_index p2].
Proof. unfold parseFace. by intros ->. Qed.

Lemma parseFace_quad s p0 p1 p2 p3 :
  face_parts s = [p0; p1; p2; p3] ->
  parseFace s = Ok [face_index p0; face_index p1; face_index p2;
                    face_index p0; face_index p2; face_index p3].
Proof. unfold parseFace. by intros ->. Qed.

Lemma parseFace_unsupported s :
  length (face_parts s) <> 3%nat -> length (face_parts s) <> 4%nat ->
  parseFace s = Throw unsupported_face.
Proof.
  intros H3 H4. unfold parseFace. rewrite length_map.
  destruct (Nat.eqb_spec (length (face_parts s)) 3); [done |].
  destruct (Nat.eqb_spec (length (face_parts s)) 4); done.
Qed.

Lemma parseFace_throws s e : parseFace s = Throw e -> e = unsupported_face.
Proof.
  unfold parseFace.
  destruct (length (map face_index (face_parts s)) =? 3)%nat; [done |].
  destruct (length (map face_index (face_parts s)) =? 4)%nat; [done |].
  by intros [= <-].
Qed.

Lemma face_line_not_vertex_line line :
  is_face_line line = true -> is_vertex_line line = false.
Proof.
  unfold is_face_line, is_vertex_line. destruct line as [| c line]; [done |].
  cbn [startsWith]. destruct (Ascii.eqb_spec "f" c) as [<- |]; done.
Qed.

(** One turn of the loop, by the kind of the line. *)
Lemma load_line_vertex st line :
  is_vertex_line (trim line) = true ->
  load_line st line =
  Ok {| vertices := vertices st ++ [parseVertex (trim line)];
        indices := indices st;
        minExtent := vec3_zip (fun m c => Math_min [m; c]) (minExtent st)
                              (parseVertex (trim line));
        maxExtent := vec3_zip (fun m c => Math_max [m; c]) (maxExtent st)
                              (parseVertex (trim line)) |}.
Proof. unfold load_line, is_vertex_line. by intros ->. Qed.

Lemma load_line_face st line :
  is_face_line (trim line) = true ->
  load_line st line =
  faceIndices ← parseFace (trim line);
  Ok {| vertices := vertices st; indices := indices st ++ faceIndices;
        minExtent := minExtent st; maxExtent := maxExtent st |}.
Proof.
  intros Hf. pose proof (face_line_not_vertex_line _ Hf) as Hv.
  unfold load_line. unfold is_vertex_line in Hv. unfold is_face_line in Hf.
  by rewrite Hv, Hf.
Qed.

Lemma load_line_other st line :
  is_vertex_line (trim line) = false -> is_face_line (trim line) = false ->
  load_line st line = Ok st.
Proof. unfold load_line, is_vertex_line, is_face_line. by intros -> ->. Qed.

Lemma load_line_throws st line e :
  load_line st line = Throw e -> e = unsupported_face.
Proof.
  destruct (is_vertex_line (trim line)) eqn:Hv.
  { by rewrite load_line_vertex. }
  destruct (is_face_line (trim line)) eqn:Hf.
  - rewrite load_line_face by done.
    destruct (parseFace (trim line)) eqn:Hp; [done |].
    apply parseFace_throws in Hp as ->. by intros [= <-].
  - by rewrite load_line_other.
Qed.

(** The index buffer after the loop: what the lines emitted, in their
    order; the vertices after the loop: the vertex records, in their
    order. *)
Lemma load_lines_buffers lines : forall st st',
  load_lines st lines = Ok st' ->
  indices st' = indices st ++ concat (map emitted_indices (map trim lines)) /\
  vertices st' =
    vertices st ++ map parseVertex (filter (fun l => is_vertex_line l = true)
                                           (map trim lines)).
Proof.
  induction lines as [| line lines IH]; intros st st' H.
  - injection H as <-. by rewrite !app_nil_r.
  - cbn [load_lines] in H. destruct (load_line st line) as [st1 |] eqn:H1; [| done].
    apply IH in H as [Hi Hv]. rewrite Hi, Hv. clear Hi Hv IH.
    cbn [map concat]. unfold emitted_indices at 2.
    destruct (is_vertex_line (trim line)) eqn:Hvl.
    + rewrite load_line_vertex in H1 by done. injection H1 as <-.
      rewrite filter_cons_True by done. simpl. by rewrite <- app_assoc.
    + rewrite filter_cons_False by (by rewrite Hvl).
      destruct (is_face_line (trim line)) eqn:Hfl.
      * rewrite load_line_face in H1 by done.
        destruct (parseFace (trim line)); [| done]. injection H1 as <-. simpl.
        by rewrite <- app_assoc.
      * rewrite load_line_other in H1 by done. by injection H1 as <-.
Qed.

Lemma load_inv contents vs ids :
  load contents = Ok (vs, ids) ->
  exists st, load_lines load_init (split_char LF contents) = Ok st /\
             load_finish st = (vs, ids).
Proof.
  unfold load. fold LF.
  destruct (load_lines load_init (split_char LF contents)) as [st |]; [| done].
  intros H. exists st. split; [done |].
  cbv [mbind result_bind] in H. congruence.
Qed.



(** C5.  A face record whose number of references is neither three nor four
    makes [load] throw the unsupported-face error: the caller gets no
    buffers. *)
Theorem load_rejects_other_arities contents line :
  line ∈ file_lines contents ->
  is_face_line line = true ->
  length (face_parts line) <> 3%nat ->
  length (face_parts line) <> 4%nat ->
  load contents = Throw unsupported_face.
Proof.
  intros Hin Hf H3 H4. unfold load. fold LF. unfold file_lines in Hin.
  assert (forall lines st,
    line ∈ map trim lines -> load_lines st lines = Throw unsupported_face) as Hloop.
  { clear Hin. induction lines as [| l lines IH]; intros st Hin.
    - by apply elem_of_nil in Hin.
    - cbn [load_lines]. destruct (load_line st l) as [st1 |] eqn:H1.
      + cbn [map] in Hin. apply elem_of_cons in Hin as [-> | Hin].
        * rewrite load_line_face, parseFace_unsupported in H1 by done. done.
        * simpl. by apply IH.
      + apply load_line_throws in H1 as ->. done. }
  by rewrite Hloop.
Qed.

Lemma load_rejects_other_arities_witness :
  load (unlines ["v 0 0 0"; "v 1 0 0"; "  f 1 2 3 4 5 "; "f 1 2 2"])
  = Throw unsupported_face.
Proof.
  apply (load_rejects_other_arities _ "f 1 2 3 4 5").
  - vm_compute. repeat constructor.
  - reflexivity.
  - vm_compute. lia.
  - vm_compute. lia.
Defined.

Lemma face_indices_not_validated_aux st line :
  is_face_line (trim line) = true ->
  (length (face_parts (trim line)) = 3%nat \/
   length (face_parts (trim line)) = 4%nat) ->
  exists emitted,
    parseFace (trim line) = Ok emitted /\
    load_line st line =
      Ok {| vertices := vertices st; indices := indices st ++ emitted;
            minExtent := minExtent st; maxExtent := maxExtent st |} /\
    forall i, i ∈ emitted ->
              exists part, part ∈ face_parts (trim line) /\ i = face_index part.
Proof.
  intros Hf Hlen. rewrite load_line_face by done.
  destruct (face_parts (trim line)) as [| p0 [| p1 [| p2 [| p3 [| p4 ps]]]]] eqn:Hp;
    simpl in Hlen; try lia.
  + rewrite (parseFace_triangle _ _ _ _ Hp). eexists. split; [done |]. split; [done |].
    intros i Hi. repeat (apply elem_of_cons in Hi as [-> | Hi]);
      [exists p0 | exists p1 | exists p2 | by apply elem_of_nil in Hi];
      (split; [| done]); repeat constructor.
  + rewrite (parseFace_quad _ _ _ _ _ Hp). eexists. split; [done |]. split; [done |].
    intros i Hi. repeat (apply elem_of_cons in Hi as [-> | Hi]);
      [exists p0 | exists p1 | exists p2 | exists p0 | exists p2 | exists p3
       | by apply elem_of_nil in Hi];
      (split; [| done]); repeat constructor.
Qed.

(** C10.  A face of three or four references is accepted whatever the
    vertices read so far, and its indices are those of its references;
    [load] returns index buffers with a negative index, and with an index
    that is not below the number of vertices. *)
Theorem face_indices_not_validated :
  (forall st line,
     is_face_line (trim line) = true ->
     (length (face_parts (trim line)) = 3%nat \/
      length (face_parts (trim line)) = 4%nat) ->
     exists emitted,
       parseFace (trim line) = Ok emitted /\
       load_line st line =
         Ok {| vertices := vertices st; indices := indices st ++ emitted;
               minExtent := minExtent st; maxExtent := maxExtent st |} /\
       forall i, i ∈ emitted ->
                 exists part, part ∈ face_parts (trim line) /\ i = face_index part) /\
  (exists contents vs ids,
     load contents = Ok (vs, ids) /\ of_Z (-1) ∈ ids) /\
  (exists contents vs ids k,
     load contents = Ok (vs, ids) /\ of_Z k ∈ ids /\
     (Z.of_nat (length vs / 3) <= k)%Z).
Proof.
  split; [| split].
  - apply face_indices_not_validated_aux.
  - exists "f 0 1 2". eexists _, _. split; [vm_compute; reflexivity |].
    apply (bool_decide_unpack _). vm_compute. exact I.
  - exists (unlines ["v 0 0 0"; "f 1 2 3"]). eexists _, _, 2%Z.
    split; [vm_compute; reflexivity |]. split.
    + apply (bool_decide_unpack _). vm_compute. exact I.
    + vm_compute. discriminate.
Qed.

Lemma face_indices_not_validated_witness :
  exists emitted,
    parseFace (trim "f 0 99 1") = Ok emitted /\
    load_line load_init "f 0 99 1" =
      Ok {| vertices := []; indices := emitted;
            minExtent := minExtent load_init; maxExtent := maxExtent load_init |} /\
    forall i, i ∈ emitted ->
              exists part, part ∈ face_parts (trim "f 0 99 1") /\ i = face_index part.
Proof.
  destruct face_indices_not_validated as (H & _ & _).
  apply (H load_init "f 0 99 1"); [reflexivity |]. left. reflexivity.
Defined.

End Faces.

(** ** The normalization *)

Section Normalization.
Import JSString JSGlobal OBJLoader.
Local Open Scope Qc_scope.

Lemma min2_PInf m : min2 PInf m = m.
Proof. by destruct m. Qed.

Lemma max2_NInf m : max2 NInf m = m.
Proof. by destruct m. Qed.

Lemma Math_min_pair m c : Math_min [m; c] = min2 m c.
Proof. unfold Math_min. cbn [fold_left]. by rewrite min2_PInf. Qed.

Lemma Math_max_pair m c : Math_max [m; c] = max2 m c.
Proof. unfold Math_max. cbn [fold_left]. by rewrite max2_NInf. Qed.

Lemma coord_fold (f : Number -> Number -> Number) a vs : forall m,
  coord a (fold_left (vec3_zip f) vs m)
  = fold_left f (map (coord a) vs) (coord a m).
Proof.
  induction vs as [| v vs IH]; intros m; [done |].
  simpl. rewrite IH. by destruct a.
Qed.

(** The extents after the loop: the running minimum and maximum over the
    vertex records. *)
Lemma load_lines_extents lines : forall st st',
  load_lines st lines = Ok st' ->
  let vs := map parseVertex (filter (fun l => is_vertex_line l = true)
                                    (map trim lines)) in
  minExtent st' = fold_left (vec3_zip (fun m c => Math_min [m; c])) vs (minExtent st) /\
  maxExtent st' = fold_left (vec3_zip (fun m c => Math_max [m; c])) vs (maxExtent st).
Proof.
  induction lines as [| line lines IH]; intros st st' H.
  - by injection H as <-.
  - cbn [load_lines] in H. destruct (load_line st line) as [st1 |] eqn:H1; [| done].
    apply IH in H as [Hmin Hmax]. rewrite Hmin, Hmax. clear Hmin Hmax IH.
    cbn [map]. destruct (is_vertex_line (trim line)) eqn:Hvl.
    + rewrite load_line_vertex in H1 by done. injection H1 as <-.
      by rewrite filter_cons_True by done.
    + rewrite filter_cons_False by (by rewrite Hvl).
      destruct (is_face_line (trim line)) eqn:Hfl.
      * rewrite load_line_face in H1 by done.
        destruct (parseFace (trim line)); [| done]. by injection H1 as <-.
      * rewrite load_line_other in H1 by done. by injection H1 as <-.
Qed.

(** With supported faces only, the loop does not throw. *)
Lemma load_lines_total lines : forall st,
  (forall line, line ∈ map trim lines -> is_face_line line = true ->
     length (face_parts line) = 3%nat \/ length (face_parts line) = 4%nat) ->
  exists st', load_lines st lines = Ok st'.
Proof.
  induction lines as [| line lines IH]; intros st Hf; [by eexists |].
  cbn [load_lines].
  assert (exists st1, load_line st line = Ok st1) as [st1 ->].
  { destruct (is_vertex_line (trim line)) eqn:Hvl.
    { rewrite load_line_vertex by done. by eexists. }
    destruct (is_face_line (trim line)) eqn:Hfl.
    - destruct (face_indices_not_validated_aux st line Hfl) as (e & _ & -> & _);
        [| by eexists].
      apply Hf; [| done]. cbn [map]. by left.
    - rewrite load_line_other by done. by eexists. }
  simpl. apply IH. intros l Hl. apply Hf. cbn [map]. by right.
Qed.

Ltac qc_flip :=
  repeat match goal with
         | H : ~ (_ < _)%Qc |- _ => apply Qcnot_lt_le in H
         | H : ~ (_ <= _)%Qc |- _ => apply Qcnot_le_lt, Qclt_le_weak in H
         end.

(** *** The value of a finite number *)

Lemma val_Fin a q : val a = Some q -> q <> 0 -> a = Fin q.
Proof. destruct a; try done; simpl; intros H; by simplify_eq. Qed.


Lemma val_zero negative : val (zero negative) = Some 0.
Proof. by destruct negative. Qed.

(** One step of [Math.min] and of [Math.max] on finite numbers. *)
Lemma min2_val a b x y :
  val a = Some x -> val b = Some y ->
  (min2 a b = a /\ x <= y) \/ (min2 a b = b /\ y <= x).
Proof.
  intros Hx Hy.
  assert (min2 a b = if decide (y < x) then b
                     else if decide (x < y) then a
                     else if negative b then b else a) as ->.
  { destruct a, b; try done; unfold min2; simpl in *; by simplify_eq. }
  repeat case_decide; qc_flip; auto using Qclt_le_weak.
  destruct (negative b); auto.
Qed.

Lemma max2_val a b x y :
  val a = Some x -> val b = Some y ->
  (max2 a b = a /\ y <= x) \/ (max2 a b = b /\ x <= y).
Proof.
  intros Hx Hy.
  assert (max2 a b = if decide (x < y) then b
                     else if decide (y < x) then a
                     else if negative a then b else a) as ->.
  { destruct a, b; try done; unfold max2; simpl in *; by simplify_eq. }
  repeat case_decide; qc_flip; auto using Qclt_le_weak.
  destruct (negative a); auto.
Qed.

Lemma fold_min_val cs : forall init m0,
  val init = Some m0 ->
  (forall c, c ∈ cs -> exists q, val c = Some q) ->
  exists r m,
    fold_left (fun m c => Math_min [m; c]) cs init = r /\ val r = Some m /\
    m <= m0 /\ (forall c q, c ∈ cs -> val c = Some q -> m <= q) /\
    (r = init \/ r ∈ cs).
Proof.
  induction cs as [| c cs IH]; intros init m0 Hinit Hfin.
  - exists init, m0. split; [done |]. split; [done |]. split; [apply Qcle_refl |].
    split; [| by left]. intros c q Hc. by apply elem_of_nil in Hc.
  - destruct (Hfin c) as [q Hq]; [by left |].
    cbn [fold_left]. rewrite Math_min_pair.
    assert (forall c, c ∈ cs -> exists q, val c = Some q) as Hfin'.
    { intros c' Hc. apply Hfin. by right. }
    destruct (min2_val init c m0 q Hinit Hq) as [[-> Hle] | [-> Hle]].
    + destruct (IH init m0 Hinit Hfin') as (r & m & Hr & Hm & Hm0 & Hall & Hor).
      exists r, m. split; [done |]. split; [done |]. split; [done |]. split.
      * intros c' q' [-> | Hc']%elem_of_cons Hq'; [| by eapply Hall].
        rewrite Hq in Hq'. injection Hq' as <-. by eapply Qcle_trans.
      * destruct Hor as [-> | Hin]; [by left | right; by right].
    + destruct (IH c q Hq Hfin') as (r & m & Hr & Hm & Hmq & Hall & Hor).
      exists r, m. split; [done |]. split; [done |].
      split; [by eapply Qcle_trans |]. split.
      * intros c' q' [-> | Hc']%elem_of_cons Hq'; [| by eapply Hall].
        rewrite Hq in Hq'. by injection Hq' as <-.
      * right. destruct Hor as [-> | Hin]; [by left | by right].
Qed.

Lemma fold_max_val cs : forall init m0,
  val init = Some m0 ->
  (forall c, c ∈ cs -> exists q, val c = Some q) ->
  exists r m,
    fold_left (fun m c => Math_max [m; c]) cs init = r /\ val r = Some m /\
    m0 <= m /\ (forall c q, c ∈ cs -> val c = Some q -> q <= m) /\
    (r = init \/ r ∈ cs).
Proof.
  induction cs as [| c cs IH]; intros init m0 Hinit Hfin.
  - exists init, m0. split; [done |]. split; [done |]. split; [apply Qcle_refl |].
    split; [| by left]. intros c q Hc. by apply elem_of_nil in Hc.
  - destruct (Hfin c) as [q Hq]; [by left |].
    cbn [fold_left]. rewrite Math_max_pair.
    assert (forall c, c ∈ cs -> exists q, val c = Some q) as Hfin'.
    { intros c' Hc. apply Hfin. by right. }
    destruct (max2_val init c m0 q Hinit Hq) as [[-> Hle] | [-> Hle]].
    + destruct (IH init m0 Hinit Hfin') as (r & m & Hr & Hm & Hm0 & Hall & Hor).
      exists r, m. split; [done |]. split; [done |]. split; [done |]. split.
      * intros c' q' [-> | Hc']%elem_of_cons Hq'; [| by eapply Hall].
        rewrite Hq in Hq'. injection Hq' as <-. by eapply Qcle_trans.
      * destruct Hor as [-> | Hin]; [by left | right; by right].
    + destruct (IH c q Hq Hfin') as (r & m & Hr & Hm & Hmq & Hall & Hor).
      exists r, m. split; [done |]. split; [done |].
      split; [by eapply Qcle_trans |]. split.
      * intros c' q' [-> | Hc']%elem_of_cons Hq'; [| by eapply Hall].
        rewrite Hq in Hq'. by injection Hq' as <-.
      * right. destruct Hor as [-> | Hin]; [by left | by right].
Qed.

(** The extents that the loop computes are the bounds of the vertices, as
    long as no coordinate lies beyond the initial values. *)
Lemma extent_min a vs lo hi init m0 :
  bounds a vs lo hi -> val init = Some m0 ->
  (forall v q, v ∈ vs -> val (coord a v) = Some q -> q <= m0) ->
  val (fold_left (fun m c => Math_min [m; c]) (map (coord a) vs) init) = Some lo.
Proof.
  intros (Hall & (vlo & Hvlo & Hlo) & _) Hinit Hrange.
  destruct (fold_min_val (map (coord a) vs) init m0 Hinit)
    as (r & m & -> & Hm & Hm0 & Hle & Hor).
  { intros c (v & -> & Hv)%list_elem_of_fmap. destruct (Hall v Hv) as (q & -> & _).
    by eexists. }
  rewrite Hm. f_equal. apply Qcle_antisym.
  - apply (Hle (coord a vlo)); [by apply list_elem_of_fmap_2 | done].
  - destruct Hor as [-> | (v & -> & Hin)%list_elem_of_fmap].
    + rewrite Hinit in Hm. injection Hm as <-. by eapply Hrange.
    + destruct (Hall v Hin) as (q & Hq & Hloq & _). congruence.
Qed.

Lemma extent_max a vs lo hi init m0 :
  bounds a vs lo hi -> val init = Some m0 ->
  (forall v q, v ∈ vs -> val (coord a v) = Some q -> m0 <= q) ->
  val (fold_left (fun m c => Math_max [m; c]) (map (coord a) vs) init) = Some hi.
Proof.
  intros (Hall & _ & (vhi & Hvhi & Hhi)) Hinit Hrange.
  destruct (fold_max_val (map (coord a) vs) init m0 Hinit)
    as (r & m & -> & Hm & Hm0 & Hle & Hor).
  { intros c (v & -> & Hv)%list_elem_of_fmap. destruct (Hall v Hv) as (q & -> & _).
    by eexists. }
  rewrite Hm. f_equal. apply Qcle_antisym.
  - destruct Hor as [-> | (v & -> & Hin)%list_elem_of_fmap].
    + rewrite Hinit in Hm. injection Hm as <-. by eapply Hrange.
    + destruct (Hall v Hin) as (q & Hq & _ & Hqhi). congruence.
  - apply (Hle (coord a vhi)); [by apply list_elem_of_fmap_2 | done].
Qed.

(** What [parseFloat] reads is a double: no number lies beyond
    [MAX_VALUE]. *)
Lemma of_magnitude_val negative q r :
  val (of_magnitude negative q) = Some r ->
  is_double r /\ - MAX_VALUE_Qc <= r /\ r <= MAX_VALUE_Qc.
Proof.
  unfold of_magnitude. destruct (Qeq_bool q 0).
  - rewrite val_zero. intros [= <-]. split; [done | by vm_compute].
  - destruct (round _) as [| | | | r'] eqn:Hr; try done.
    + intros [= <-]. split; [done | by vm_compute].
    + intros [= <-]. split; [by eapply round_is_double |].
      destruct (round_Fin_range _ _ Hr) as [H1 H2].
      unfold Qcle. simpl. rewrite !Qred_correct. done.
Qed.

Lemma parseFloat_val s r :
  val (parseFloat s) = Some r ->
  is_double r /\ - MAX_VALUE_Qc <= r /\ r <= MAX_VALUE_Qc.
Proof.
  unfold parseFloat. destruct (strip_sign (trimStart s)) as [negative s1].
  destruct (startsWith s1 "Infinity"); [by destruct negative |].
  destruct (parse_decimal s1); [| done]. apply of_magnitude_val.
Qed.

Lemma parseVertex_val a line r :
  val (coord a (parseVertex line)) = Some r ->
  is_double r /\ - MAX_VALUE_Qc <= r /\ r <= MAX_VALUE_Qc.
Proof. destruct a; apply parseFloat_val. Qed.

Lemma parsed_vertices_val contents v a r :
  v ∈ parsed_vertices contents -> val (coord a v) = Some r ->
  is_double r /\ - MAX_VALUE_Qc <= r /\ r <= MAX_VALUE_Qc.
Proof. intros (l & -> & _)%list_elem_of_fmap. apply parseVertex_val. Qed.

Lemma loop_result contents st :
  load_lines load_init (split_char LF contents) = Ok st ->
  vertices st = parsed_vertices contents /\
  indices st = concat (map emitted_indices (file_lines contents)) /\
  forall a,
    coord a (minExtent st)
    = fold_left (fun m c => Math_min [m; c])
                (map (coord a) (parsed_vertices contents)) MAX_VALUE /\
    coord a (maxExtent st)
    = fold_left (fun m c => Math_max [m; c])
                (map (coord a) (parsed_vertices contents)) (neg MAX_VALUE).
Proof.
  intros H. pose proof (load_lines_buffers _ _ _ H) as [Hi Hv].
  pose proof (load_lines_extents _ _ _ H) as [Hmin Hmax].
  split; [done |]. split; [done |]. intros a. rewrite Hmin, Hmax, !coord_fold.
  unfold parsed_vertices, file_lines. by destruct a.
Qed.

Lemma loop_bounds contents st a lo hi :
  load_lines load_init (split_char LF contents) = Ok st ->
  bounds a (parsed_vertices contents) lo hi ->
  val (coord a (minExtent st)) = Some lo /\ val (coord a (maxExtent st)) = Some hi.
Proof.
  intros H Hb. destruct (loop_result _ _ H) as (_ & _ & Hext).
  destruct (Hext a) as [-> ->]. split.
  - eapply extent_min; [done | done |]. intros v q Hv Hq.
    by eapply parsed_vertices_val.
  - change (neg MAX_VALUE) with (Fin (- MAX_VALUE_Qc)).
    eapply extent_max; [done | done |]. intros v q Hv Hq.
    by eapply parsed_vertices_val.
Qed.

Lemma load_total contents :
  faces_supported contents ->
  exists st, load_lines load_init (split_char LF contents) = Ok st /\
             load contents = Ok (load_finish st).
Proof.
  intros Hf. destruct (load_lines_total (split_char LF contents) load_init Hf)
    as [st Hst].
  exists st. split; [done |]. unfold load. fold LF. by rewrite Hst.
Qed.

(** *** Operations that round nothing *)

Lemma add_val a b x y :
  val a = Some x -> val b = Some y -> is_double (x + y) ->
  val (add a b) = Some (x + y).
Proof.
  intros Hx Hy Hd. unfold is_double in Hd.
  destruct a, b; try done; cbn [val] in Hx, Hy; simplify_eq; cbn [add val].
  - by rewrite Qcplus_0_l.
  - by rewrite Qcplus_0_l.
  - by rewrite Qcplus_0_r.
  - by rewrite Hd.
Qed.

Lemma neg_val a x : val a = Some x -> val (neg a) = Some (- x).
Proof.
  intros Hx. destruct a; try done; cbn [val] in Hx; simplify_eq; cbn [neg val].
  - done.
  - case_decide as H0; [by rewrite H0 | done].
Qed.

Lemma sub_val a b x y :
  val a = Some x -> val b = Some y -> is_double (x - y) ->
  val (sub a b) = Some (x - y).
Proof.
  intros Hx Hy Hd. unfold sub. apply add_val; [done | by apply neg_val | done].
Qed.

Lemma mul_val a b x y :
  val a = Some x -> val b = Some y -> is_double (x * y) ->
  val (mul a b) = Some (x * y).
Proof.
  intros Hx Hy Hd. unfold is_double in Hd. unfold mul. rewrite Hx, Hy.
  case_decide as H0.
  - by rewrite val_zero, H0.
  - by rewrite Hd.
Qed.

Lemma div_val a b x y :
  val a = Some x -> val b = Some y -> y <> 0 -> is_double (x / y) ->
  val (div a b) = Some (x / y).
Proof.
  intros Hx Hy Hy0 Hd. unfold is_double in Hd. unfold div. rewrite Hx, Hy.
  rewrite decide_False by done. case_decide as H0.
  - rewrite val_zero, H0. unfold Qcdiv. by rewrite Qcmult_0_l.
  - by rewrite Hd.
Qed.

Lemma two_Qc_sum : two_Qc = 1 + 1.
Proof. by apply Qc_is_canon. Qed.

Lemma largest_extent_coord st :
  largest_extent st
  = Math_max [sub (coord Axis0 (maxExtent st)) (coord Axis0 (minExtent st));
              sub (coord Axis1 (maxExtent st)) (coord Axis1 (minExtent st));
              sub (coord Axis2 (maxExtent st)) (coord Axis2 (minExtent st))].
Proof. done. Qed.

Lemma load_offset_coord st a :
  coord a (load_offset st)
  = div (neg (add (coord a (maxExtent st)) (coord a (minExtent st)))) (of_Z 2).
Proof. by destruct a. Qed.

Lemma Math_max3_val e0 e1 e2 s0 s1 s2 E :
  val e0 = Some s0 -> val e1 = Some s1 -> val e2 = Some s2 ->
  s0 <= E -> s1 <= E -> s2 <= E -> (s0 = E \/ s1 = E \/ s2 = E) ->
  val (Math_max [e0; e1; e2]) = Some E.
Proof.
  intros V0 V1 V2 H0 H1 H2 HE. unfold Math_max. cbn [fold_left].
  rewrite max2_NInf.
  destruct (max2_val e0 e1 s0 s1 V0 V1) as [[-> H01] | [-> H01]].
  - destruct (max2_val e0 e2 s0 s2 V0 V2) as [[-> H02] | [-> H02]].
    + rewrite V0. f_equal. apply Qcle_antisym; [done |].
      destruct HE as [<- | [<- | <-]]; [apply Qcle_refl | done | done].
    + rewrite V2. f_equal. apply Qcle_antisym; [done |].
      destruct HE as [<- | [<- | <-]]; [done | by eapply Qcle_trans | apply Qcle_refl].
  - destruct (max2_val e1 e2 s1 s2 V1 V2) as [[-> H12] | [-> H12]].
    + rewrite V1. f_equal. apply Qcle_antisym; [done |].
      destruct HE as [<- | [<- | <-]]; [done | apply Qcle_refl | done].
    + rewrite V2. f_equal. apply Qcle_antisym; [done |].
      destruct HE as [<- | [<- | <-]]; [by eapply Qcle_trans | done | apply Qcle_refl].
Qed.

Lemma normalize_coord a offset scale v :
  coord a (normalize offset scale v)
  = mul (add (coord a v) (coord a offset)) scale.
Proof. by destruct a. Qed.

Lemma vec3_ext (u w : Vec3) : (forall a, coord a u = coord a w) -> u = w.
Proof.
  intros H. destruct u as [u0 u1 u2], w as [w0 w1 w2].
  pose proof (H Axis0). pose proof (H Axis1). pose proof (H Axis2).
  simpl in *. congruence.
Qed.


(** *** Vertices that all lie at one point *)












(** *** Vertices of a positive extent *)

Lemma scale_positive E : 0 < E -> 0 < scale_of E.
Proof. intros HE. apply Qcmult_pos_pos; [done | by apply Qcinv_pos]. Qed.





(** What [load] computes on a mesh on which the normalization rounds
    nothing: the scale, the offsets and the coordinates. *)
Lemma load_exact contents st (lo hi : Axis -> Qc) (E : Qc) :
  load_lines load_init (split_char LF contents) = Ok st ->
  (forall a, bounds a (parsed_vertices contents) (lo a) (hi a)) ->
  (forall a, hi a - lo a <= E) ->
  (exists a, hi a - lo a = E) ->
  0 < E ->
  normalization_exact (parsed_vertices contents) lo hi E ->
  load_scale st = Fin (scale_of E) /\
  (forall a, val (coord a (load_offset st)) = Some (offset_of (lo a) (hi a))) /\
  (forall v a q, v ∈ parsed_vertices contents -> val (coord a v) = Some q ->
     val (coord a (normalize (load_offset st) (Fin (scale_of E)) v))
     = Some ((q + offset_of (lo a) (hi a)) * scale_of E)).
Proof.
  intros Hst Hb HleE [aE HaE] HE (Hax & Hscale & Hpts).
  assert (forall a, val (coord a (minExtent st)) = Some (lo a) /\
                    val (coord a (maxExtent st)) = Some (hi a)) as Hext.
  { intros a. by eapply loop_bounds. }
  assert (E <> 0) as HE0 by (intros ->; by apply Qclt_not_eq in HE).
  assert (forall a, val (sub (coord a (maxExtent st)) (coord a (minExtent st)))
                    = Some (hi a - lo a)) as Hsub.
  { intros a. destruct (Hext a) as [Hlo Hhi], (Hax a) as (Hd & _).
    by apply sub_val. }
  assert (largest_extent st = Fin E) as Hlargest.
  { apply val_Fin; [| done]. rewrite largest_extent_coord.
    eapply Math_max3_val; try apply Hsub; try apply HleE. destruct aE; auto. }
  assert (forall a, val (coord a (load_offset st))
                    = Some (offset_of (lo a) (hi a))) as Hoff.
  { intros a. destruct (Hext a) as [Hlo Hhi], (Hax a) as (_ & Hd1 & Hd2).
    rewrite load_offset_coord. unfold offset_of.
    apply div_val; [| done | done | done]. apply neg_val. by apply add_val. }
  split; [| split; [done |]].
  - apply val_Fin.
    + unfold load_scale. rewrite Hlargest. by apply div_val.
    + intros H0. pose proof (scale_positive E HE) as Hpos. rewrite H0 in Hpos.
      by apply Qclt_not_eq in Hpos.
  - intros v a q Hv Hq. destruct (Hpts v a q Hv Hq) as [Hd1 Hd2].
    rewrite normalize_coord. apply mul_val; [| done | done].
    by apply add_val.
Qed.


Lemma sample_mesh_vertices v :
  v ∈ parsed_vertices sample_mesh ->
  v = mkVec3 (of_Z 0) (of_Z 0) (of_Z 0) \/ v = mkVec3 (of_Z 1) (of_Z 2) (of_Z 4).
Proof.
  intros Hv. apply list_elem_of_In in Hv.
  destruct Hv as [<- | [<- | []]]; [left | right];
    apply (bool_decide_unpack _); by vm_compute.
Qed.

Lemma sample_mesh_bounds a :
  bounds a (parsed_vertices sample_mesh) (sample_lo a) (sample_hi a).
Proof.
  assert (mkVec3 (of_Z 0) (of_Z 0) (of_Z 0) ∈ parsed_vertices sample_mesh) as H0.
  { apply (bool_decide_unpack _). by vm_compute. }
  assert (mkVec3 (of_Z 1) (of_Z 2) (of_Z 4) ∈ parsed_vertices sample_mesh) as H1.
  { apply (bool_decide_unpack _). by vm_compute. }
  split; [| split].
  - intros v [-> | ->]%sample_mesh_vertices; destruct a;
      (eexists; split; [reflexivity |]);
      split; apply (bool_decide_unpack _); vm_compute; exact I.
  - exists (mkVec3 (of_Z 0) (of_Z 0) (of_Z 0)). split; [done | by destruct a].
  - exists (mkVec3 (of_Z 1) (of_Z 2) (of_Z 4)). split; [done | by destruct a].
Qed.

Lemma sample_mesh_exact :
  normalization_exact (parsed_vertices sample_mesh) sample_lo sample_hi
                      (Q2Qc (inject_Z 4)).
Proof.
  split; [| split].
  - intros a. destruct a; repeat split; apply (bool_decide_unpack _);
      vm_compute; exact I.
  - apply (bool_decide_unpack _). vm_compute. exact I.
  - intros v a q [-> | ->]%sample_mesh_vertices Hq;
      destruct a; cbn [coord c0 c1 c2 val of_Z] in Hq; injection Hq as <-;
      split; apply (bool_decide_unpack _); vm_compute; exact I.
Qed.





End Normalization.

(** ** Trees of scene nodes *)

Section SceneTrees.
Context `{Imports}.
Abbreviation Heap := (list SceneNode).
Implicit Types (h : Heap) (t : shape) (a b : addr) (n : SceneNode).

Lemma shape_ind' (P : shape -> Prop) :
  (forall a ks, Forall P ks -> P (Shape a ks)) -> forall t, P t.
Proof.
  intros IH. fix rec 1. intros [a ks]. apply IH.
  induction ks as [| k ks IHks]; constructor; [apply rec | apply IHks].
Qed.

Lemma tree_at_unfold h par a ks :
  tree_at h par (Shape a ks) <->
  exists n, h !! a = Some n /\ parent n = par /\
            children n = map shape_root ks /\
            Forall (tree_at h (Some a)) ks.
Proof.
  cbn [tree_at].
  assert (foldr (fun k rest => tree_at h (Some a) k /\ rest) True ks
          <-> Forall (tree_at h (Some a)) ks) as Hks.
  { induction ks as [| k ks IH]; cbn [foldr].
    - split; [constructor | done].
    - rewrite Forall_cons, IH. done. }
  split; intros (n & ? & ? & ? & ?); exists n; by rewrite ?Hks in *.
Qed.

(** *** Stores with the same skeleton *)

Lemma same_skeleton_refl h : same_skeleton h h.
Proof. done. Qed.

Lemma same_skeleton_trans h1 h2 h3 :
  same_skeleton h1 h2 -> same_skeleton h2 h3 -> same_skeleton h1 h3.
Proof. intros H12 H23 a. by rewrite H12. Qed.

Lemma same_skeleton_sym h1 h2 : same_skeleton h1 h2 -> same_skeleton h2 h1.
Proof. intros H12 a. by rewrite H12. Qed.

Lemma same_skeleton_insert h a n n' :
  h !! a = Some n -> skeleton n' = skeleton n ->
  same_skeleton h (<[a := n']> h).
Proof.
  intros Ha Hs b. destruct (decide (a = b)) as [<- |].
  - rewrite list_lookup_insert_eq by (by eapply lookup_lt_Some).
    rewrite Ha. simpl. by rewrite Hs.
  - by rewrite list_lookup_insert_ne.
Qed.

Lemma same_skeleton_lookup h h' a n :
  same_skeleton h h' -> h !! a = Some n ->
  exists n', h' !! a = Some n' /\ skeleton n' = skeleton n.
Proof.
  intros Hs Ha. specialize (Hs a). rewrite Ha in Hs.
  destruct (h' !! a) as [n' |]; [| done]. exists n'. split; [done |].
  simpl in Hs. congruence.
Qed.

Lemma skeleton_fields n n' :
  skeleton n' = skeleton n ->
  name n' = name n /\ type n' = type n /\ transformation n' = transformation n /\
  parent n' = parent n /\ children n' = children n.
Proof. unfold skeleton. intros [= -> -> -> -> ->]. done. Qed.

Lemma chain_same_skeleton h h' p path ts :
  same_skeleton h h' -> chain h p path ts -> chain h' p path ts.
Proof.
  intros Hs. induction 1 as [| a n path ts Ha _ IH]; [constructor |].
  destruct (same_skeleton_lookup _ _ _ _ Hs Ha) as (n' & Ha' & Hsk).
  apply skeleton_fields in Hsk as (_ & _ & <- & Hp & _).
  econstructor; [done |]. by rewrite Hp.
Qed.

Lemma tree_at_same_skeleton h h' t : forall par,
  same_skeleton h h' -> tree_at h par t -> tree_at h' par t.
Proof.
  induction t as [a ks IH] using shape_ind'. intros par Hs.
  rewrite !tree_at_unfold. intros (n & Ha & Hp & Hc & Hks).
  destruct (same_skeleton_lookup _ _ _ _ Hs Ha) as (n' & Ha' & Hsk).
  apply skeleton_fields in Hsk as (_ & _ & _ & Hp' & Hc').
  exists n'. split; [done |]. split; [congruence |]. split; [congruence |].
  rewrite Forall_forall in IH, Hks |- *. intros k Hk. apply IH; auto.
Qed.

Lemma world_fresh_same_skeleton h h' b :
  same_skeleton h h' ->
  world_transformation <$> h' !! b = world_transformation <$> h !! b ->
  world_fresh h b -> world_fresh h' b.
Proof.
  intros Hs Hw (n & path & ts & Hb & Hchain & Hworld).
  rewrite Hb in Hw. destruct (h' !! b) as [n' |] eqn:Hb'; [| done].
  exists n', path, ts. split; [done |].
  split; [by eapply chain_same_skeleton |]. simpl in Hw. congruence.
Qed.

(** *** Walking up to the root *)

Lemma chain_deterministic h p path ts path' ts' :
  chain h p path ts -> chain h p path' ts' -> path = path' /\ ts = ts'.
Proof.
  intros Hc. revert path' ts'.
  induction Hc as [| a n path ts Ha _ IH]; intros path' ts' Hc'; inversion Hc'; subst.
  - done.
  - simplify_eq. destruct (IH _ _ ltac:(eassumption)) as [-> ->]. done.
Qed.

Lemma chain_length h p path ts : chain h p path ts -> length ts = length path.
Proof. induction 1; simpl; congruence. Qed.

Lemma getTransformationHierarchy_chain h a path ts :
  chain h (Some a) path ts ->
  forall fuel acc, length path <= fuel ->
    getTransformationHierarchy fuel h a acc = Some (acc ++ ts).
Proof.
  remember (Some a) as p eqn:Hp. intros Hc. revert a Hp.
  induction Hc as [| a' n path ts Ha Hc IH]; intros a [= <-] fuel acc Hfuel.
  destruct fuel as [| fuel]; [simpl in Hfuel; lia |].
  cbn [getTransformationHierarchy]. rewrite Ha. simpl.
  destruct (parent n) as [p |] eqn:Hpar.
  - rewrite (IH p eq_refl) by (simpl in Hfuel; lia). by rewrite <- app_assoc.
  - by inversion Hc.
Qed.

Lemma calculateWorldTransformation_chain h a path ts fuel :
  chain h (Some a) path ts -> length path <= fuel ->
  calculateWorldTransformation fuel h a = Some (product (rev ts)).
Proof.
  intros Hc Hfuel. unfold calculateWorldTransformation.
  by rewrite (getTransformationHierarchy_chain _ _ _ _ Hc).
Qed.

(** *** [setTransformation], step by step *)

Lemma setTransformation_inv fuel h a m h' :
  setTransformation (S fuel) h a m = Some h' ->
  exists node h1 world node1,
    h !! a = Some node /\
    refresh_children fuel (<[a := with_transformation m node]> h) (children node)
      = Some h1 /\
    calculateWorldTransformation (S fuel) h1 a = Some world /\
    h1 !! a = Some node1 /\
    h' = <[a := refreshed world node1]> h1.
Proof.
  unfold refresh_children. cbn [setTransformation].
  destruct (h !! a) as [node |]; [| done]. cbn [mbind option_bind].
  destruct (for_each _ (<[a := with_transformation m node]> h) (children node))
    as [h1 |] eqn:Hloop; [| done].
  cbn [mbind option_bind].
  destruct (calculateWorldTransformation (S fuel) h1 a) as [world |] eqn:Hcalc;
    [| done].
  cbn [mbind option_bind].
  destruct (h1 !! a) as [node1 |] eqn:Hnode1; [| done]. cbn [mbind option_bind].
  rewrite list_lookup_insert_eq by (by eapply lookup_lt_Some).
  cbn [mbind option_bind]. intros Hres.
  exists node, h1, world, node1. repeat (split; [done |]).
  unfold refreshed. simpl in *.
  destruct (obj3d node1); injection Hres as <-; [| done].
  by rewrite list_insert_insert_eq.
Qed.

Lemma setTransformation_step fuel h a m node h1 world node1 :
  h !! a = Some node ->
  refresh_children fuel (<[a := with_transformation m node]> h) (children node)
    = Some h1 ->
  calculateWorldTransformation (S fuel) h1 a = Some world ->
  h1 !! a = Some node1 ->
  setTransformation (S fuel) h a m = Some (<[a := refreshed world node1]> h1).
Proof.
  unfold refresh_children. intros Ha Hloop Hcalc Hnode1.
  cbn [setTransformation].
  rewrite Ha. cbn [mbind option_bind]. rewrite Hloop. cbn [mbind option_bind].
  rewrite Hcalc. cbn [mbind option_bind]. rewrite Hnode1. cbn [mbind option_bind].
  rewrite list_lookup_insert_eq by (by eapply lookup_lt_Some).
  cbn [mbind option_bind]. unfold refreshed. simpl.
  destruct (obj3d node1); [| done]. by rewrite list_insert_insert_eq.
Qed.

(** *** More fuel changes no result *)

Lemma getTransformationHierarchy_mono fuel : forall fuel' h a acc r,
  fuel <= fuel' ->
  getTransformationHierarchy fuel h a acc = Some r ->
  getTransformationHierarchy fuel' h a acc = Some r.
Proof.
  induction fuel as [| fuel IH]; intros fuel' h a acc r Hle; [done |].
  destruct fuel' as [| fuel']; [lia |]. cbn [getTransformationHierarchy].
  destruct (h !! a) as [n |]; [| done]. cbn [mbind option_bind].
  destruct (parent n); [| done]. apply IH. lia.
Qed.

Lemma calculateWorldTransformation_mono fuel fuel' h a w :
  fuel <= fuel' ->
  calculateWorldTransformation fuel h a = Some w ->
  calculateWorldTransformation fuel' h a = Some w.
Proof.
  intros Hle. unfold calculateWorldTransformation.
  destruct (getTransformationHierarchy fuel h a []) as [r |] eqn:Hr; [| done].
  by rewrite (getTransformationHierarchy_mono _ _ _ _ _ _ Hle Hr).
Qed.

Lemma for_each_mono {A S : Type} (f g : S -> A -> option S) l : forall s r,
  (forall s x s', f s x = Some s' -> g s x = Some s') ->
  for_each f s l = Some r -> for_each g s l = Some r.
Proof.
  induction l as [| x l IH]; intros s r Hfg; [done |]. cbn [for_each].
  destruct (f s x) as [s' |] eqn:Hf; [| done]. rewrite (Hfg _ _ _ Hf).
  cbn [mbind option_bind]. by apply IH.
Qed.

Lemma setTransformation_mono fuel : forall fuel' h a m h',
  fuel <= fuel' ->
  setTransformation fuel h a m = Some h' ->
  setTransformation fuel' h a m = Some h'.
Proof.
  induction fuel as [| fuel IH]; intros fuel' h a m h' Hle Hset; [done |].
  destruct fuel' as [| fuel']; [lia |].
  apply setTransformation_inv in Hset
    as (node & h1 & world & node1 & Ha & Hloop & Hcalc & Hnode1 & ->).
  eapply setTransformation_step; [done | | | done].
  - revert Hloop. unfold refresh_children. apply for_each_mono.
    intros s c s'. destruct (s !! c); [| done]. apply IH. lia.
  - revert Hcalc. apply calculateWorldTransformation_mono. lia.
Qed.

(** *** Forests: the subtrees of the children of a node *)

Lemma elem_of_forest x (ks : list shape) :
  x ∈ concat (map preorder ks) <-> exists k, k ∈ ks /\ x ∈ preorder k.
Proof.
  induction ks as [| k ks IH]; cbn [map concat].
  - split; [by intros ?%elem_of_nil | by intros (k & ?%elem_of_nil & _)].
  - rewrite elem_of_app, IH. split.
    + intros [Hx | (k' & Hk' & Hx)]; [exists k; split; [by left | done] |].
      exists k'. split; [by right | done].
    + intros (k' & [-> | Hk']%elem_of_cons & Hx); [by left | right; eauto].
Qed.

(** *** Parts of the store that a change leaves alone *)

Lemma chain_agree h h' p path ts :
  (forall x, x ∈ path -> h' !! x = h !! x) ->
  chain h p path ts -> chain h' p path ts.
Proof.
  intros Hagree Hc. induction Hc as [| a n path ts Ha _ IH]; [constructor |].
  econstructor.
  - rewrite Hagree; [done | by left].
  - apply IH. intros x Hx. apply Hagree. by right.
Qed.

Lemma tree_at_agree h h' t : forall par,
  (forall x, x ∈ preorder t -> h' !! x = h !! x) ->
  tree_at h par t -> tree_at h' par t.
Proof.
  induction t as [a ks IH] using shape_ind'. intros par Hagree.
  rewrite !tree_at_unfold. intros (n & Ha & Hp & Hc & Hks).
  exists n. split; [rewrite Hagree; [done | by left] |].
  split; [done |]. split; [done |].
  rewrite Forall_forall in IH, Hks |- *. intros k Hk. apply IH; auto.
  intros x Hx. apply Hagree. cbn [preorder]. right.
  apply elem_of_forest. eauto.
Qed.

Lemma world_fresh_agree h h' b :
  same_skeleton h h' -> h' !! b = h !! b -> world_fresh h b -> world_fresh h' b.
Proof. intros Hs Hb. apply world_fresh_same_skeleton; [done | by rewrite Hb]. Qed.

Lemma obj3d_synced_agree h h' b :
  h' !! b = h !! b -> obj3d_synced h b -> obj3d_synced h' b.
Proof. intros Hb Hsync n o. rewrite Hb. apply Hsync. Qed.

Lemma with_transformation_id n : with_transformation (transformation n) n = n.
Proof. by destruct n. Qed.

Lemma skeleton_refreshed w n : skeleton (refreshed w n) = skeleton n.
Proof. unfold refreshed. simpl. by destruct (obj3d n). Qed.

Lemma world_refreshed w n : world_transformation (refreshed w n) = w.
Proof. unfold refreshed. simpl. by destruct (obj3d n). Qed.

Lemma obj3d_refreshed w n o :
  obj3d (refreshed w n) = Some o -> o_transformation o = w.
Proof.
  unfold refreshed. simpl. destruct (obj3d n) eqn:Ho; simpl; [| by rewrite Ho].
  by intros [= <-].
Qed.

Lemma tree_root_lookup h par t :
  tree_at h par t -> exists n, h !! shape_root t = Some n /\ parent n = par.
Proof. destruct t as [a ks]. rewrite tree_at_unfold. intros (n & ? & ? & _). eauto. Qed.

Lemma preorder_root t : shape_root t ∈ preorder t.
Proof. destruct t. by left. Qed.

Lemma height_positive t : 1 <= height t.
Proof. destruct t. simpl. lia. Qed.

(** *** [setTransformation] on a subtree *)

Lemma refresh_children_forest a ks :
  Forall refreshes_subtree ks ->
  forall h0 path ts fuel,
    Forall (tree_at h0 (Some a)) ks ->
    NoDup (concat (map preorder ks)) ->
    chain h0 (Some a) path ts ->
    (forall x, x ∈ path -> x ∉ concat (map preorder ks)) ->
    (forall k, k ∈ ks -> length path + 2 * height k <= S fuel) ->
    exists h1,
      refresh_children fuel h0 (map shape_root ks) = Some h1 /\
      refresh_post h0 h1 (concat (map preorder ks)).
Proof.
  induction 1 as [| k ks Hk _ IH]; intros h0 path ts fuel Htrees Hnodup Hchain Hdisj Hfuel.
  { exists h0. split; [done |]. split; [apply same_skeleton_refl |].
    split; [done |]. by intros b ?%elem_of_nil. }
  apply Forall_cons in Htrees as [Htree Htrees].
  cbn [map concat] in Hnodup, Hdisj |- *.
  apply NoDup_app in Hnodup as (Hnodup_k & Hsep & Hnodup_ks).
  destruct (tree_root_lookup _ _ _ Htree) as (nk & Hnk & Hpar).
  destruct (Hk h0 (Some a) (transformation nk) path ts fuel nk) as (h' & Hset & Hpost);
    try done.
  { intros x Hx Hin. eapply Hdisj; [done |]. apply elem_of_app. by left. }
  { apply Hfuel. by left. }
  rewrite with_transformation_id, list_insert_id in Hpost by done.
  destruct Hpost as (Hskel & Hout & Hin).
  destruct (IH h' path ts fuel) as (h1 & Hloop & Hskel1 & Hout1 & Hin1).
  { eapply Forall_impl; [exact Htrees |]. intros k'. by apply tree_at_same_skeleton. }
  { done. }
  { by eapply chain_same_skeleton. }
  { intros x Hx Hin'. eapply Hdisj; [done |]. apply elem_of_app. by right. }
  { intros k' Hk'. apply Hfuel. by right. }
  exists h1. split.
  { unfold refresh_children in *. cbn [for_each]. rewrite Hnk.
    cbn [mbind option_bind]. rewrite Hset. cbn [mbind option_bind]. exact Hloop. }
  split; [by eapply same_skeleton_trans |]. split.
  - intros b Hb. rewrite elem_of_app in Hb.
    rewrite Hout1 by tauto. apply Hout. tauto.
  - intros b [Hb | Hb]%elem_of_app; [| by apply Hin1].
    destruct (Hin b Hb) as [Hfresh Hsync].
    assert (h1 !! b = h' !! b) as Hsame by (apply Hout1; by apply Hsep).
    split; [by eapply world_fresh_agree | by eapply obj3d_synced_agree].
Qed.

Lemma height_kid a ks k : k ∈ ks -> S (height k) <= height (Shape a ks).
Proof.
  intros Hk. cbn [height]. apply le_n_S, max_list_elem_of_le.
  by apply (list_elem_of_fmap_2 height).
Qed.

Lemma setTransformation_subtree t : refreshes_subtree t.
Proof.
  induction t as [a ks IH] using shape_ind'.
  intros h par m path ts fuel node Htree Hnodup Hchain Hdisj Hfuel Hnode.
  apply tree_at_unfold in Htree as (n & Ha & Hpar & Hchildren & Hkids).
  cbn [shape_root] in *. simplify_eq. cbn [preorder] in Hnodup, Hdisj |- *.
  apply NoDup_cons in Hnodup as [Ha_kids Hnodup].
  destruct fuel as [| fuel]; [pose proof (height_positive (Shape a ks)); lia |].
  set (h0 := <[a := with_transformation m n]> h).
  assert (a < length h) as Hlt by (by eapply lookup_lt_Some).
  assert (h0 !! a = Some (with_transformation m n)) as Ha0.
  { by apply list_lookup_insert_eq. }
  assert (forall b, b <> a -> h0 !! b = h !! b) as Hother.
  { intros b Hb. by apply list_lookup_insert_ne. }
  assert (chain h0 (Some a) (a :: path) (m :: ts)) as Hchain0.
  { change m with (transformation (with_transformation m n)).
    econstructor; [done |]. cbn [parent with_transformation].
    eapply chain_agree; [| done]. intros x Hx. apply Hother.
    intros ->. eapply Hdisj; [done | by left]. }
  destruct (refresh_children_forest a ks IH h0 (a :: path) (m :: ts) fuel)
    as (h1 & Hloop & Hskel & Hout & Hin).
  { apply Forall_forall. intros k Hk. rewrite Forall_forall in Hkids.
    eapply tree_at_agree; [| by apply Hkids].
    intros x Hx. apply Hother. intros ->. apply Ha_kids, elem_of_forest. eauto. }
  { done. }
  { done. }
  { intros x [-> | Hx]%elem_of_cons; [done |]. intros Hin.
    eapply Hdisj; [done | by right]. }
  { intros k Hk. pose proof (height_kid a ks k Hk). simpl length. lia. }
  assert (h1 !! a = Some (with_transformation m n)) as Ha1.
  { by rewrite Hout. }
  eexists. split.
  { eapply setTransformation_step; [done | | | done].
    - rewrite Hchildren. exact Hloop.
    - eapply calculateWorldTransformation_chain.
      + by eapply chain_same_skeleton.
      + simpl length. pose proof (height_positive (Shape a ks)). lia. }
  set (w := product (rev (m :: ts))).
  set (h' := <[a := refreshed w (with_transformation m n)]> h1).
  assert (same_skeleton h1 h') as Hskel'.
  { eapply same_skeleton_insert; [done | apply skeleton_refreshed]. }
  assert (a < length h1) as Hlt1 by (by eapply lookup_lt_Some).
  assert (forall b, b <> a -> h' !! b = h1 !! b) as Hother'.
  { intros b Hb. by apply list_lookup_insert_ne. }
  split; [by eapply same_skeleton_trans |]. split.
  - intros b Hb. rewrite elem_of_cons in Hb.
    rewrite Hother' by tauto. apply Hout. tauto.
  - intros b [-> | Hb]%elem_of_cons.
    + assert (h' !! a = Some (refreshed w (with_transformation m n))) as Ha'.
      { by apply list_lookup_insert_eq. }
      split.
      * exists (refreshed w (with_transformation m n)), (a :: path), (m :: ts).
        split; [done |]. split; [| apply world_refreshed].
        eapply chain_same_skeleton; [| exact Hchain0].
        by eapply same_skeleton_trans.
      * intros n' o. rewrite Ha'. intros [= <-] Ho.
        rewrite world_refreshed. by eapply obj3d_refreshed.
    + destruct (Hin b Hb) as [Hfresh Hsync].
      assert (h' !! b = h1 !! b) as Hsame by (apply Hother'; by intros ->).
      split; [by eapply world_fresh_agree | by eapply obj3d_synced_agree].
Qed.

(** *** Finding a node in a tree *)

Lemma tree_at_same_links h h' t : forall par,
  same_links h h' -> tree_at h par t -> tree_at h' par t.
Proof.
  induction t as [a ks IH] using shape_ind'. intros par Hs.
  rewrite !tree_at_unfold. intros (n & Ha & Hp & Hc & Hks).
  pose proof (Hs a) as Hl. rewrite Ha in Hl.
  destruct (h' !! a) as [n' |]; [| done]. injection Hl as Hp' Hc'.
  exists n'. split; [done |]. split; [congruence |]. split; [congruence |].
  rewrite Forall_forall in IH, Hks |- *. intros k Hk. apply IH; auto.
Qed.

Lemma same_links_with_transformation h a n m :
  h !! a = Some n -> same_links h (<[a := with_transformation m n]> h).
Proof.
  intros Ha b. destruct (decide (a = b)) as [<- |].
  - rewrite list_lookup_insert_eq by (by eapply lookup_lt_Some). by rewrite Ha.
  - by rewrite list_lookup_insert_ne.
Qed.

Lemma same_skeleton_links h h' : same_skeleton h h' -> same_links h h'.
Proof.
  intros Hs a. specialize (Hs a).
  destruct (h !! a) as [n |], (h' !! a) as [n' |]; try done.
  unfold links, skeleton in *. simpl in *. congruence.
Qed.

Lemma height_le_size t : height t <= length (preorder t).
Proof.
  induction t as [a ks IH] using shape_ind'. cbn [height preorder length].
  apply le_n_S. induction IH as [| k ks Hk _ IHks]; cbn [map concat max_list]; [done |].
  rewrite length_app. simpl. lia.
Qed.

(** The walk from a node of a tree stays in the tree until it reaches the
    ancestors of the tree. *)
Lemma chain_within t : forall h par path ts,
  tree_at h par t -> chain h par path ts ->
  forall b pb tb, b ∈ preorder t -> chain h (Some b) pb tb ->
  forall x, x ∈ pb -> x ∈ preorder t \/ x ∈ path.
Proof.
  induction t as [a ks IH] using shape_ind'.
  intros h par path ts Htree Hchain b pb tb Hb Hcb x Hx.
  apply tree_at_unfold in Htree as (n & Ha & Hpar & Hchildren & Hkids).
  assert (chain h (Some a) (a :: path) (transformation n :: ts)) as Hca.
  { econstructor; [done |]. by rewrite Hpar. }
  cbn [preorder] in Hb |- *. apply elem_of_cons in Hb as [-> | Hb].
  - destruct (chain_deterministic _ _ _ _ _ _ Hcb Hca) as [-> _].
    apply elem_of_cons in Hx as [-> | Hx]; [left; by left | by right].
  - apply elem_of_forest in Hb as (k & Hk & Hb).
    rewrite Forall_forall in IH, Hkids.
    destruct (IH k Hk h (Some a) _ _ (Hkids k Hk) Hca b pb tb Hb Hcb x Hx)
      as [Hin | [-> | Hin]%elem_of_cons].
    + left. right. apply elem_of_forest. eauto.
    + left. by left.
    + by right.
Qed.

Lemma forest_disjoint (ks : list shape) k k' x :
  NoDup (concat (map preorder ks)) ->
  k ∈ ks -> k' ∈ ks -> x ∈ preorder k -> x ∈ preorder k' -> k = k'.
Proof.
  induction ks as [| k0 ks IH]; [by intros _ ?%elem_of_nil |].
  cbn [map concat]. intros (Hk0 & Hsep & Hks)%NoDup_app.
  intros [-> | Hk]%elem_of_cons [-> | Hk']%elem_of_cons Hx Hx'.
  - done.
  - exfalso. eapply Hsep; [done |]. apply elem_of_forest. eauto.
  - exfalso. eapply Hsep; [done |]. apply elem_of_forest. eauto.
  - by apply IH.
Qed.

Lemma forest_NoDup (ks : list shape) k :
  NoDup (concat (map preorder ks)) -> k ∈ ks -> NoDup (preorder k).
Proof.
  induction ks as [| k0 ks IH]; [by intros _ ?%elem_of_nil |].
  cbn [map concat]. intros (Hk0 & _ & Hks)%NoDup_app [-> | Hk]%elem_of_cons; auto.
Qed.

(** A node of a tree is the root of a subtree, hung under its parent,
    below its ancestors; the walks from the nodes outside that subtree do
    not meet the node. *)
Lemma locate t : forall h par path ts a,
  tree_at h par t -> NoDup (preorder t) ->
  chain h par path ts -> (forall x, x ∈ path -> x ∉ preorder t) ->
  a ∈ preorder t ->
  exists ta para patha tsa,
    shape_root ta = a /\ tree_at h para ta /\ NoDup (preorder ta) /\
    chain h para patha tsa /\ (forall x, x ∈ patha -> x ∉ preorder ta) /\
    length patha + height ta <= length path + height t /\
    (forall b, b ∈ preorder ta -> b ∈ preorder t) /\
    (forall b pb tb, b ∈ preorder t -> b ∉ preorder ta ->
                     chain h (Some b) pb tb -> a ∉ pb).
Proof.
  induction t as [r ks IH] using shape_ind'.
  intros h par path ts a Htree Hnodup Hchain Hdisj Ha.
  destruct (decide (a = r)) as [-> | Hne].
  { exists (Shape r ks), par, path, ts. repeat (split; [done |]). by intros. }
  pose proof Htree as Htree'.
  apply tree_at_unfold in Htree as (n & Hr & Hpar & Hchildren & Hkids).
  cbn [preorder] in Ha, Hnodup, Hdisj.
  apply elem_of_cons in Ha as [-> | Ha]; [done |].
  apply NoDup_cons in Hnodup as [Hr_kids Hnodup].
  apply elem_of_forest in Ha as (k & Hk & Ha).
  rewrite Forall_forall in IH, Hkids.
  assert (chain h (Some r) (r :: path) (transformation n :: ts)) as Hcr.
  { econstructor; [done |]. by rewrite Hpar. }
  destruct (IH k Hk h (Some r) (r :: path) (transformation n :: ts) a)
    as (ta & para & patha & tsa & Hroot & Hta & Hnd & Hca & Hda & Hlen & Hsub & Hout);
    try done.
  { by apply Hkids. }
  { by eapply forest_NoDup. }
  { intros x [-> | Hx]%elem_of_cons Hin.
    - apply Hr_kids, elem_of_forest. eauto.
    - eapply Hdisj; [done |]. right. apply elem_of_forest. eauto. }
  exists ta, para, patha, tsa. repeat (split; [done |]).
  split; [| split].
  - pose proof (height_kid r ks k Hk). simpl length in Hlen. lia.
  - intros b Hb. cbn [preorder]. right. apply elem_of_forest. eauto.
  - intros b pb tb Hb Hnot Hcb Hin. cbn [preorder] in Hb.
    apply elem_of_cons in Hb as [-> | Hb].
    + destruct (chain_deterministic _ _ _ _ _ _ Hcb Hcr) as [-> _].
      apply elem_of_cons in Hin as [-> | Hin]; [done |].
      eapply Hdisj; [done |]. right. apply elem_of_forest. eauto.
    + apply elem_of_forest in Hb as (k' & Hk' & Hb).
      destruct (decide (b ∈ preorder k)) as [Hbk | Hbk].
      { by eapply Hout. }
      destruct (chain_within k' h (Some r) _ _ (Hkids k' Hk') Hcr b pb tb Hb Hcb a Hin)
        as [Hak' | [-> | Hap]%elem_of_cons].
      * assert (k = k') as -> by (by eapply forest_disjoint). done.
      * done.
      * eapply Hdisj; [done |]. right. apply elem_of_forest. eauto.
Qed.

(** *** [setTransformation] on a node of a scene tree *)

Lemma setTransformation_in_tree h T a m fuel :
  scene_tree h T -> a ∈ preorder T -> 2 * height T <= S fuel ->
  exists h' node ta,
    h !! a = Some node /\
    setTransformation fuel h a m = Some h' /\
    same_skeleton (<[a := with_transformation m node]> h) h' /\
    scene_tree h' T /\
    a ∈ preorder ta /\
    (forall b, b ∈ preorder ta -> world_fresh h' b /\ obj3d_synced h' b) /\
    (forall b, b ∈ preorder T -> b ∉ preorder ta ->
               h' !! b = h !! b /\ (world_fresh h b -> world_fresh h' b)) /\
    (forall b pb tb, b ∈ preorder T -> b ∉ preorder ta ->
                     chain h (Some b) pb tb -> a ∉ pb).
Proof.
  intros [Htree Hnodup] Ha Hfuel.
  destruct (locate T h None [] [] a Htree Hnodup (chain_nil h)) as
    (ta & para & patha & tsa & Hroot & Hta & Hnd & Hca & Hda & Hlen & Hsub & Hout);
    [by intros x ?%elem_of_nil | done |].
  destruct (tree_root_lookup _ _ _ Hta) as (node & Hnode & _).
  rewrite Hroot in Hnode.
  destruct (setTransformation_subtree ta h para m patha tsa fuel node)
    as (h' & Hset & Hskel & Hframe & Hfresh); try done.
  { pose proof (height_positive ta). simpl length in Hlen. lia. }
  { by rewrite Hroot. }
  rewrite Hroot in Hset, Hskel, Hframe.
  assert (a ∈ preorder ta) as Ha_ta by (rewrite <- Hroot; apply preorder_root).
  assert (forall b, b <> a -> <[a := with_transformation m node]> h !! b = h !! b)
    as Hother by (intros b Hb; by apply list_lookup_insert_ne).
  exists h', node, ta. repeat (split; [done |]). split; [| split; [done |]; split; [done |]].
  { split; [| done]. eapply tree_at_same_links; [| exact Htree].
    intros b. rewrite (same_links_with_transformation h a node m Hnode b).
    by apply same_skeleton_links. }
  split; [| done].
  intros b Hb Hnot.
  assert (b <> a) as Hba by (by intros ->).
  assert (h' !! b = h !! b) as Hsame by (rewrite Hframe by done; by apply Hother).
  split; [done |]. intros (n & pb & tb & Hn & Hcb & Hw).
  exists n, pb, tb. split; [congruence |]. split; [| done].
  eapply chain_same_skeleton; [exact Hskel |].
  eapply chain_agree; [| exact Hcb]. intros x Hx. apply Hother.
  intros ->. by eapply Hout.
Qed.

(** The local transformations after a call: that of the node is the
    argument, the others are kept. *)
Lemma same_skeleton_transformations h h' a m node :
  h !! a = Some node ->
  same_skeleton (<[a := with_transformation m node]> h) h' ->
  (exists n', h' !! a = Some n' /\ transformation n' = m) /\
  (forall b n, h !! b = Some n -> b <> a ->
               exists n', h' !! b = Some n' /\ transformation n' = transformation n).
Proof.
  intros Ha Hskel. split.
  - destruct (same_skeleton_lookup _ _ a (with_transformation m node) Hskel)
      as (n' & Hn' & Hs).
    { apply list_lookup_insert_eq. by eapply lookup_lt_Some. }
    exists n'. split; [done |]. by apply skeleton_fields in Hs as (_ & _ & -> & _).
  - intros b n Hb Hne.
    destruct (same_skeleton_lookup _ _ b n Hskel) as (n' & Hn' & Hs).
    { by rewrite list_lookup_insert_ne. }
    exists n'. split; [done |]. by apply skeleton_fields in Hs as (_ & _ & -> & _).
Qed.

(** C6.  A call of [setTransformation] on a node of a tree returns; it
    gives the node the transformation passed and keeps the local
    transformation of every other node, the descendants among them; and
    every node whose walk to the root meets the node, that is every node
    of its subtree, itself included, has a fresh world transformation, the
    one its renderable is placed by when it has one. *)
Theorem setTransformation_frame h T a m fuel :
  scene_tree h T -> a ∈ preorder T -> 2 * length (preorder T) <= fuel ->
  exists h',
    setTransformation fuel h a m = Some h' /\
    (exists n', h' !! a = Some n' /\ transformation n' = m) /\
    (forall b n, h !! b = Some n -> b <> a ->
                 exists n', h' !! b = Some n' /\ transformation n' = transformation n) /\
    (forall b pb tb, b ∈ preorder T -> chain h (Some b) pb tb -> a ∈ pb ->
                     world_fresh h' b /\ obj3d_synced h' b).
Proof.
  intros Htree Ha Hfuel.
  destruct (setTransformation_in_tree h T a m fuel Htree Ha)
    as (h' & node & ta & Hnode & Hset & Hskel & _ & _ & Hfresh & _ & Hout).
  { pose proof (height_le_size T). lia. }
  destruct (same_skeleton_transformations _ _ _ _ _ Hnode Hskel) as [Hself Hothers].
  exists h'. repeat (split; [done |]).
  intros b pb tb Hb Hcb Hin. apply Hfresh.
  destruct (decide (b ∈ preorder ta)) as [| Hnot]; [done |].
  exfalso. by eapply Hout.
Qed.

(** *** Traversals *)

Lemma getNodes_tree t : forall h par fuel acc,
  tree_at h par t -> height t <= fuel ->
  getNodes fuel h (shape_root t) acc = Some (acc ++ preorder t).
Proof.
  induction t as [a ks IH] using shape_ind'. intros h par fuel acc Htree Hfuel.
  apply tree_at_unfold in Htree as (n & Ha & _ & Hchildren & Hkids).
  destruct fuel as [| fuel]; [pose proof (height_positive (Shape a ks)); lia |].
  cbn [getNodes shape_root preorder]. rewrite Ha. cbn [mbind option_bind].
  rewrite Hchildren.
  replace (acc ++ a :: concat (map preorder ks))
    with ((acc ++ [a]) ++ concat (map preorder ks)) by (by rewrite <- app_assoc).
  assert (forall k, k ∈ ks -> height k <= fuel) as Hheight.
  { intros k Hk. pose proof (height_kid a ks k Hk). lia. }
  clear Hfuel Hchildren Ha. generalize (acc ++ [a]). clear acc.
  induction ks as [| k ks IHks]; intros acc.
  - by rewrite app_nil_r.
  - apply Forall_cons in IH as [IHk IH]. apply Forall_cons in Hkids as [Hk Hkids].
    cbn [map for_each concat]. rewrite (IHk h (Some a) fuel acc Hk) by (apply Hheight; by left).
    cbn [mbind option_bind]. rewrite IHks; [by rewrite app_assoc | done | done |].
    intros k' Hk'. apply Hheight. by right.
Qed.

Lemma forest_segment (ks : list shape) k :
  k ∈ ks -> exists pre post, concat (map preorder ks) = pre ++ preorder k ++ post.
Proof.
  induction ks as [| k0 ks IH]; [by intros ?%elem_of_nil |].
  cbn [map concat]. intros [-> | Hk]%elem_of_cons.
  - by exists [], (concat (map preorder ks)).
  - destruct (IH Hk) as (pre & post & ->). exists (preorder k0 ++ pre), post.
    by rewrite <- app_assoc.
Qed.

(** In the pre-order of a tree a node comes before each of its children. *)
Lemma preorder_parent_first t : forall h par p n c,
  tree_at h par t -> p ∈ preorder t -> h !! p = Some n -> c ∈ children n ->
  exists l1 l2 l3, preorder t = l1 ++ p :: l2 ++ c :: l3.
Proof.
  induction t as [a ks IH] using shape_ind'. intros h par p n c Htree Hp Hn Hc.
  apply tree_at_unfold in Htree as (na & Ha & _ & Hchildren & Hkids).
  cbn [preorder] in Hp |- *. apply elem_of_cons in Hp as [-> | Hp].
  - simplify_eq. rewrite Hchildren in Hc.
    apply list_elem_of_fmap in Hc as (k & -> & Hk).
    assert (shape_root k ∈ concat (map preorder ks)) as Hin.
    { apply elem_of_forest. exists k. split; [done | apply preorder_root]. }
    apply list_elem_of_split in Hin as (l2 & l3 & ->). by exists [], l2, l3.
  - apply elem_of_forest in Hp as (k & Hk & Hp).
    rewrite Forall_forall in IH, Hkids.
    destruct (IH k Hk h (Some a) p n c (Hkids k Hk) Hp Hn Hc) as (l1 & l2 & l3 & Heq).
    destruct (forest_segment ks k Hk) as (pre & post & ->). rewrite Heq.
    exists (a :: pre ++ l1), l2, (l3 ++ post).
    by simplify_list_eq.
Qed.

(** In the pre-order of a tree the children of a node come in the order of
    its [children] array. *)
Lemma preorder_children_order t : forall h par p n,
  tree_at h par t -> p ∈ preorder t -> h !! p = Some n ->
  sublist (children n) (preorder t).
Proof.
  induction t as [a ks IH] using shape_ind'. intros h par p n Htree Hp Hn.
  apply tree_at_unfold in Htree as (na & Ha & _ & Hchildren & Hkids).
  cbn [preorder] in Hp |- *. apply elem_of_cons in Hp as [-> | Hp].
  - simplify_eq. rewrite Hchildren. apply sublist_cons. clear.
    induction ks as [| k ks IHks]; [done |]. cbn [map concat].
    destruct k as [b kb]. cbn [shape_root preorder].
    apply sublist_skip. by apply sublist_inserts_l.
  - apply elem_of_forest in Hp as (k & Hk & Hp).
    rewrite Forall_forall in IH, Hkids.
    pose proof (IH k Hk h (Some a) p n (Hkids k Hk) Hp Hn) as Hsub.
    destruct (forest_segment ks k Hk) as (pre & post & ->).
    apply sublist_cons. etrans; [exact Hsub |].
    apply sublist_inserts_l, sublist_inserts_r. done.
Qed.

Lemma find_app {A : Type} (f : A -> bool) l1 l2 :
  find f (l1 ++ l2) = match find f l1 with Some x => Some x | None => find f l2 end.
Proof. induction l1 as [| x l1 IH]; simpl; [done |]. by destruct (f x). Qed.

Lemma find_first {A : Type} (f : A -> bool) l (r : A) :
  find f l = Some r ->
  exists l1 l2, l = l1 ++ r :: l2 /\ f r = true /\ forall x, x ∈ l1 -> f x = false.
Proof.
  induction l as [| x l IH]; simpl; [done |]. destruct (f x) eqn:Hx.
  - intros [= ->]. exists [], l. split; [done |]. split; [done |].
    by intros y ?%elem_of_nil.
  - intros (l1 & l2 & -> & Ha & Hl1)%IH. exists (x :: l1), l2.
    split; [done |]. split; [done |].
    intros y [-> | Hy]%elem_of_cons; auto.
Qed.

Lemma find_none {A : Type} (f : A -> bool) l :
  (forall x, x ∈ l -> f x = false) -> find f l = None.
Proof.
  induction l as [| x l IH]; simpl; [done |]. intros Hall.
  rewrite (Hall x) by (by left). apply IH. intros y Hy. apply Hall. by right.
Qed.

Lemma find_none_elem {A : Type} (f : A -> bool) l (x : A) :
  find f l = None -> x ∈ l -> f x = false.
Proof.
  induction l as [| y l IH]; simpl; [by intros _ ?%elem_of_nil |].
  destruct (f y) eqn:Hy; [done |]. intros Hnone [-> | Hx]%elem_of_cons; auto.
Qed.

Lemma getNode_tree wanted t : forall h par fuel,
  tree_at h par t -> height t <= fuel ->
  getNode fuel h (shape_root t) wanted = Some (first_named h wanted (preorder t)).
Proof.
  induction t as [a ks IH] using shape_ind'. intros h par fuel Htree Hfuel.
  apply tree_at_unfold in Htree as (n & Ha & _ & Hchildren & Hkids).
  destruct fuel as [| fuel]; [pose proof (height_positive (Shape a ks)); lia |].
  unfold first_named. cbn [getNode shape_root preorder find].
  rewrite Ha. cbn [mbind option_bind]. unfold has_name at 1. rewrite Ha. simpl fmap.
  destruct (decide (name n = wanted)) as [Hname | Hname].
  { by rewrite bool_decide_eq_true_2 by congruence. }
  rewrite bool_decide_eq_false_2 by congruence. rewrite Hchildren.
  assert (forall k, k ∈ ks -> height k <= fuel) as Hheight.
  { intros k Hk. pose proof (height_kid a ks k Hk). lia. }
  clear Hfuel Hchildren Ha Hname.
  induction ks as [| k ks IHks]; [done |].
  apply Forall_cons in IH as [IHk IH]. apply Forall_cons in Hkids as [Hk Hkids].
  cbn [map first_found concat]. rewrite (IHk h (Some a) fuel Hk) by (apply Hheight; by left).
  cbn [mbind option_bind]. rewrite find_app. unfold first_named.
  destruct (find (has_name h wanted) (preorder k)); [done |].
  apply IHks; [done | done |]. intros k' Hk'. apply Hheight. by right.
Qed.

(** C7.  On a scene whose nodes form the tree [T], [getNodes] returns the
    nodes of [T] depth first, a node before its children: as many entries
    as the tree has nodes, no node twice, every parent before each of its
    children, the children of a node in the order of its [children]
    array. *)
Theorem getNodes_preorder (sc : Scene) T fuel :
  scene_tree (heap sc) T -> shape_root T = scenegraph sc ->
  length (preorder T) <= fuel ->
  exists nodes,
    Scene_getNodes fuel sc = Some nodes /\
    nodes = preorder T /\
    length nodes = length (preorder T) /\
    NoDup nodes /\
    (forall p n c, p ∈ nodes -> heap sc !! p = Some n -> c ∈ children n ->
                   exists l1 l2 l3, nodes = l1 ++ p :: l2 ++ c :: l3) /\
    (forall p n, p ∈ nodes -> heap sc !! p = Some n ->
                 sublist (children n) nodes).
Proof.
  intros [Htree Hnodup] Hroot Hfuel. exists (preorder T).
  split.
  { unfold Scene_getNodes. rewrite <- Hroot.
    rewrite (getNodes_tree T (heap sc) None fuel []); [done | done |].
    pose proof (height_le_size T). lia. }
  repeat (split; [done |]). split.
  - intros p n c. by apply (preorder_parent_first T (heap sc) None).
  - intros p n. by apply (preorder_children_order T (heap sc) None).
Qed.

(** C8.  On a scene whose nodes form the tree [T], [getNode] returns the
    first node that has the name, in the pre-order of [T], when a node has
    it; when none has it, it throws the not-found error.  The call reads
    the store and returns no store: the scene is as it was. *)
Theorem getNode_first_match (sc : Scene) T fuel wanted :
  scene_tree (heap sc) T -> shape_root T = scenegraph sc ->
  length (preorder T) <= fuel ->
  (forall b n, b ∈ preorder T -> heap sc !! b = Some n -> name n = wanted ->
     exists a na l1 l2,
       Scene_getNode fuel sc wanted = Some (Ok a) /\
       heap sc !! a = Some na /\ name na = wanted /\
       preorder T = l1 ++ a :: l2 /\
       forall x nx, x ∈ l1 -> heap sc !! x = Some nx -> name nx <> wanted) /\
  ((forall b n, b ∈ preorder T -> heap sc !! b = Some n -> name n <> wanted) ->
   Scene_getNode fuel sc wanted = Some (Throw (node_not_found wanted))).
Proof.
  intros [Htree Hnodup] Hroot Hfuel.
  assert (getNode fuel (heap sc) (scenegraph sc) wanted
          = Some (first_named (heap sc) wanted (preorder T))) as Hget.
  { rewrite <- Hroot. eapply getNode_tree; [done |].
    pose proof (height_le_size T). lia. }
  unfold Scene_getNode. rewrite Hget. cbn [mbind option_bind]. unfold first_named.
  split.
  - intros b n Hb Hn Hname.
    destruct (find (has_name (heap sc) wanted) (preorder T)) as [a |] eqn:Hfind.
    + apply find_first in Hfind as (l1 & l2 & Heq & Ha & Hl1).
      unfold has_name in Ha. apply bool_decide_eq_true_1 in Ha.
      destruct (heap sc !! a) as [na |] eqn:Hna; [| done].
      exists a, na, l1, l2. split; [done |]. split; [done |].
      split; [simpl in Ha; congruence |]. split; [done |].
      intros x nx Hx Hnx Hname'. specialize (Hl1 x Hx).
      unfold has_name in Hl1. apply bool_decide_eq_false_1 in Hl1.
      apply Hl1. rewrite Hnx. simpl. congruence.
    + exfalso. apply (find_none_elem _ _ b) in Hfind; [| done].
      unfold has_name in Hfind. apply bool_decide_eq_false_1 in Hfind.
      apply Hfind. rewrite Hn. simpl. congruence.
  - intros Hnone. rewrite find_none; [done |]. intros x Hx.
    unfold has_name. apply bool_decide_eq_false_2.
    destruct (heap sc !! x) as [nx |] eqn:Hnx; [| done].
    simpl. intros [= Hname]. by eapply Hnone.
Qed.

(** *** Building the tree *)

Lemma NodeConfig_ind' (P : NodeConfig -> Prop) :
  (forall nm ty tr content cs, Forall P cs -> P (mkNodeConfig nm ty tr content cs)) ->
  forall c, P c.
Proof.
  intros IH. fix rec 1. intros [nm ty tr content cs]. apply IH.
  induction cs as [| c cs IHcs]; constructor; [apply rec | apply IHcs].
Qed.

Lemma create_node_inv models nm ty tr content h a h1 :
  create_node models nm ty tr content h = Ok (Some a, h1) ->
  a = length h /\
  exists obj, h1 = h ++ [mkSceneNode nm ty (json2transform tr)
                           (multiply_all [json2transform tr]) None [] obj].
Proof.
  unfold create_node, new_node. repeat case_decide.
  - intros [= <- <-]. eauto.
  - destruct (instantiateModel models content); [| done]. intros [= <- <-]. eauto.
  - done.
Qed.

Lemma load_children_spec models a cs :
  Forall loads_tree cs ->
  forall h0 h1 ks0 n0,
    load_children (loadScenegraphNode models) (Some a) cs h0 = Ok h1 ->
    h0 !! a = Some n0 -> children n0 = map shape_root ks0 ->
    Forall (tree_at h0 (Some a)) ks0 ->
    concat (map preorder ks0) = seq (S a) (length h0 - S a) ->
    length h0 <= length h1 /\
    (forall x, x < a -> h1 !! x = h0 !! x) /\
    exists ks, h1 !! a = Some (with_children (map shape_root ks) n0) /\
               Forall (tree_at h1 (Some a)) ks /\
               concat (map preorder ks) = seq (S a) (length h1 - S a).
Proof.
  induction 1 as [| c cs Hc _ IH]; intros h0 h1 ks0 n0 Hload Ha Hchildren Hks0 Haddrs.
  { injection Hload as <-. split; [done |]. split; [done |]. exists ks0.
    rewrite <- Hchildren. split; [| done]. rewrite Ha. by destruct n0. }
  cbn [load_children] in Hload.
  destruct (loadScenegraphNode models c h0) as [[rc hc] |] eqn:Hloadc; [| done].
  cbn [mbind result_bind] in Hload. destruct rc as [ca |]; [| done].
  destruct (Hc models h0 ca hc Hloadc) as (-> & Hlen & Hprefix & tc & Hroot & Hpre & Htc).
  assert (a < length h0) as Hlt by (by eapply lookup_lt_Some).
  set (hB := setParent (addChild hc a (length h0)) (length h0) (Some a)) in *.
  assert (length hB = length hc) as HlenB.
  { unfold hB, setParent, addChild. by rewrite !length_alter. }
  assert (forall x, x <> a -> x <> length h0 -> hB !! x = hc !! x) as Hother.
  { intros x Hxa Hxc. unfold hB, setParent, addChild.
    by rewrite !list_lookup_alter_ne. }
  assert (hB !! a = Some (with_children (children n0 ++ [length h0]) n0)) as HaB.
  { unfold hB, setParent, addChild.
    rewrite list_lookup_alter_ne by lia. rewrite list_lookup_alter_eq.
    rewrite Hprefix by done. by rewrite Ha. }
  destruct tc as [ca kc]. cbn [shape_root] in Hroot. subst ca.
  apply tree_at_unfold in Htc as (nc & Hnc & Hparc & Hchc & Hkc).
  cbn [preorder] in Hpre.
  assert (concat (map preorder kc) = seq (S (length h0)) (length hc - S (length h0)))
    as Hpre_kc.
  { destruct (length hc - length h0) as [| d] eqn:Hd; [lia |].
    cbn [seq] in Hpre. injection Hpre as ->. f_equal. lia. }
  destruct (IH hB h1 (ks0 ++ [Shape (length h0) kc])
               (with_children (children n0 ++ [length h0]) n0))
    as (Hlen1 & Hprefix1 & ks & Ha1 & Hks & Haddrs1); try done.
  - cbn [children with_children]. by rewrite Hchildren, map_app.
  - apply Forall_app. split.
    + apply Forall_forall. intros k Hk. rewrite Forall_forall in Hks0.
      eapply tree_at_agree; [| by apply Hks0].
      intros x Hx.
      assert (x ∈ seq (S a) (length h0 - S a)) as Hseq.
      { rewrite <- Haddrs. apply elem_of_forest. eauto. }
      apply elem_of_seq in Hseq. rewrite Hother by lia. apply Hprefix. lia.
    + apply Forall_singleton. apply tree_at_unfold.
      exists (with_parent (Some a) nc). split.
      { unfold hB, setParent, addChild. rewrite list_lookup_alter_eq.
        rewrite list_lookup_alter_ne by lia. by rewrite Hnc. }
      split; [done |]. split; [done |].
      apply Forall_forall. intros k Hk. rewrite Forall_forall in Hkc.
      eapply tree_at_agree; [| by apply Hkc].
      intros x Hx.
      assert (x ∈ seq (S (length h0)) (length hc - S (length h0))) as Hseq.
      { rewrite <- Hpre_kc. apply elem_of_forest. eauto. }
      apply elem_of_seq in Hseq. apply Hother; lia.
  - rewrite map_app, concat_app, Haddrs. cbn [map concat preorder].
    rewrite app_nil_r, Hpre, HlenB.
    replace (length hc - S a) with ((length h0 - S a) + (length hc - length h0)) by lia.
    rewrite seq_app. do 2 f_equal. lia.
  - split; [lia |]. split.
    + intros x Hx. rewrite Hprefix1 by done. rewrite Hother by lia.
      apply Hprefix. lia.
    + exists ks. done.
Qed.

Lemma loadScenegraphNode_tree node_config : loads_tree node_config.
Proof.
  induction node_config as [nm ty tr content cs IH] using NodeConfig_ind'.
  intros models h a h' Hload. cbn [loadScenegraphNode] in Hload.
  destruct (create_node models nm ty tr content h) as [[node h1] |] eqn:Hcreate;
    [| done].
  cbn [mbind result_bind] in Hload.
  destruct (load_children (loadScenegraphNode models) node cs h1) as [h2 |] eqn:Hloop;
    [| done].
  cbn [mbind result_bind] in Hload. injection Hload as -> ->.
  apply create_node_inv in Hcreate as (-> & obj & ->).
  set (n0 := mkSceneNode nm ty (json2transform tr) (multiply_all [json2transform tr])
                         None [] obj) in *.
  destruct (load_children_spec models (length h) cs IH (h ++ [n0]) h' [] n0)
    as (Hlen & Hprefix & ks & Ha & Hks & Haddrs); try done.
  { by apply list_lookup_middle. }
  { rewrite length_app. simpl. by replace (length h + 1 - S (length h)) with 0 by lia. }
  rewrite length_app in Hlen. simpl in Hlen.
  split; [done |]. split; [lia |]. split.
  { intros x Hx. rewrite Hprefix by done. by apply lookup_app_l. }
  exists (Shape (length h) ks). split; [done |]. split.
  - cbn [preorder]. rewrite Haddrs.
    replace (length h' - length h) with (S (length h' - S (length h))) by lia.
    done.
  - apply tree_at_unfold. eexists. split; [exact Ha |]. done.
Qed.

(** *** The scene and the calls of its clients *)

Lemma same_skeleton_length h h' : same_skeleton h h' -> length h = length h'.
Proof.
  intros Hs. destruct (Nat.lt_trichotomy (length h) (length h')) as [Hlt | [Heq | Hlt]];
    [| done |].
  - specialize (Hs (length h)). rewrite lookup_ge_None_2 in Hs by lia.
    apply lookup_lt_is_Some_2 in Hlt as [n Hn]. by rewrite Hn in Hs.
  - specialize (Hs (length h')). rewrite (lookup_ge_None_2 h') in Hs by lia.
    apply lookup_lt_is_Some_2 in Hlt as [n Hn]. by rewrite Hn in Hs.
Qed.

(** The scene that the constructor returns: its nodes form a tree, they
    fill the store, and the call on the root has refreshed them all. *)
Lemma new_Scene_tree fuel config sc :
  new_Scene fuel config = Some (Ok sc) ->
  exists T,
    scene_tree (heap sc) T /\ shape_root T = scenegraph sc /\
    preorder T = seq 0 (length (heap sc)) /\
    forall a, a ∈ preorder T -> world_fresh (heap sc) a /\ obj3d_synced (heap sc) a.
Proof.
  unfold new_Scene.
  destruct (loadModels (cfg_models config)) as [models |]; [| done].
  cbn [mbind result_bind].
  destruct (loadScenegraphNode models (cfg_scenegraph config) []) as [[root h] |] eqn:Hload;
    [| done].
  cbn [mbind result_bind]. destruct root as [root |]; [| done].
  destruct (h !! root) as [node |] eqn:Hnode; [| done]. cbn [mbind option_bind].
  destruct (setTransformation fuel h root (transformation node)) as [h2 |] eqn:Hset;
    [| done].
  cbn [mbind option_bind]. intros [= <-]. cbn [heap scenegraph].
  destruct (loadScenegraphNode_tree _ _ _ _ _ Hload)
    as (-> & Hlen & _ & T & Hroot & Hpre & Htree).
  cbn [length] in *. rewrite Nat.sub_0_r in Hpre.
  assert (NoDup (preorder T)) as Hnodup by (rewrite Hpre; apply NoDup_seq).
  destruct (setTransformation_subtree T h None (transformation node) [] []
              (fuel + 2 * height T) node)
    as (h3 & Hset3 & Hskel & _ & Hfresh); try done.
  { constructor. }
  { by intros x ?%elem_of_nil. }
  { simpl. lia. }
  { by rewrite Hroot. }
  rewrite Hroot in Hset3, Hskel.
  rewrite (setTransformation_mono fuel (fuel + 2 * height T) _ _ _ _ ltac:(lia) Hset)
    in Hset3.
  injection Hset3 as <-.
  rewrite with_transformation_id, list_insert_id in Hskel by done.
  exists T. split; [| split; [done |]; split; [| done]].
  - split; [| done]. by eapply tree_at_same_skeleton.
  - by rewrite <- (same_skeleton_length _ _ Hskel).
Qed.

(** Calls on the nodes of a scene tree whose world transformations are
    fresh return and leave them fresh. *)
Lemma setTransformations_fresh T fuel calls : forall h,
  scene_tree h T ->
  (forall a, a ∈ preorder T -> world_fresh h a) ->
  Forall (fun call => fst call ∈ preorder T) calls ->
  2 * height T <= S fuel ->
  exists h',
    setTransformations fuel h calls = Some h' /\ length h' = length h /\
    scene_tree h' T /\ forall a, a ∈ preorder T -> world_fresh h' a.
Proof.
  induction calls as [| [a m] calls IH]; intros h Htree Hfresh Hcalls Hfuel.
  { by exists h. }
  apply Forall_cons in Hcalls as [Ha Hcalls]. cbn [fst] in Ha.
  destruct (setTransformation_in_tree h T a m fuel Htree Ha Hfuel)
    as (h1 & node & ta & Hnode & Hset & Hskel & Htree1 & _ & Hin & Hout & _).
  destruct (IH h1) as (h' & Hrun & Hlen & Htree' & Hfresh'); try done.
  { intros b Hb. destruct (decide (b ∈ preorder ta)) as [Hb_ta | Hb_ta].
    - by apply Hin.
    - apply Hout; auto. }
  exists h'. split.
  { unfold setTransformations in *. cbn [for_each fst snd]. rewrite Hset.
    exact Hrun. }
  split; [| done].
  rewrite Hlen, <- (same_skeleton_length _ _ Hskel). apply length_insert.
Qed.

(** C2.  After the constructor of a scene, and after each of any calls of
    [setTransformation] on nodes of the scene, which all return, the cached
    world transformation of every node is the product, from the identity,
    of the local transformations from the root down to the node. *)
Theorem world_transformations_fresh fuel0 config sc calls fuel :
  new_Scene fuel0 config = Some (Ok sc) ->
  Forall (fun call => fst call < length (heap sc)) calls ->
  2 * length (heap sc) <= fuel ->
  exists h',
    setTransformations fuel (heap sc) calls = Some h' /\
    length h' = length (heap sc) /\
    forall a, a < length h' -> world_fresh h' a.
Proof.
  intros Hnew Hcalls Hfuel.
  destruct (new_Scene_tree _ _ _ Hnew) as (T & Htree & _ & Hpre & Hfresh).
  destruct (setTransformations_fresh T fuel calls (heap sc))
    as (h' & Hrun & Hlen & _ & Hfresh'); try done.
  - intros a Ha. by apply Hfresh.
  - eapply Forall_impl; [exact Hcalls |]. intros call Hcall. simpl in Hcall.
    rewrite Hpre. apply elem_of_seq. lia.
  - pose proof (height_le_size T) as Hh. rewrite Hpre, length_seq in Hh. lia.
  - exists h'. split; [done |]. split; [done |]. intros a Ha. apply Hfresh'.
    rewrite Hpre. apply elem_of_seq. lia.
Qed.

(** *** A model that the table does not hold *)

Lemma instantiateModel_missing (models : gmap string Mesh) (nm : string) :
  models !! nm = None -> nm <> "" -> models !! "false" = None ->
  instantiateModel models nm = Throw TypeError.
Proof.
  intros Hnm Hne Hfalse. unfold instantiateModel.
  destruct (decide (nm = "")) as [| _]; [done |].
  destruct (decide (is_Some (models !! "false"))) as [[x Hx] | _]; [congruence |].
  by rewrite Hnm.
Qed.

End SceneTrees.

(** ** The sample scene *)

Section SampleScene.

Lemma sample_scene_tree : scene_tree sample_heap sample_shape.
Proof.
  split.
  - cbn. repeat (eexists; repeat split).
  - apply (bool_decide_unpack _). by vm_compute.
Qed.

(** C1.  The sample scene whose model node asks for the undeclared model
    [teapot]: the constructor fails, with the TypeError of the
    destructuring, not with the error of the guard of
    [instantiateModel]. *)
Theorem missing_model_raises_TypeError :
  new_Scene 10 missing_config = Some (Throw TypeError) /\
  new_Scene 10 missing_config <> Some (Throw (model_not_found "teapot")).
Proof. split; [by vm_compute | by vm_compute]. Qed.

Lemma world_transformations_fresh_witness :
  exists sc h',
    new_Scene 10 sample_config = Some (Ok sc) /\
    setTransformations 8 (heap sc) [(1, [7]); (0, [9]); (2, [5])] = Some h' /\
    length h' = length (heap sc) /\
    forall a, a < length h' -> world_fresh h' a.
Proof.
  destruct (new_Scene 10 sample_config) as [[sc | e] |] eqn:Hnew;
    [| vm_compute in Hnew; discriminate Hnew ..].
  assert (length (heap sc) = 4) as Hsize.
  { vm_compute in Hnew. by injection Hnew as <-. }
  destruct (world_transformations_fresh 10 sample_config sc
              [(1, [7]); (0, [9]); (2, [5])] 8 Hnew) as (h' & Hrun & Hlen & Hfresh).
  - rewrite Hsize. repeat (apply Forall_cons; split; [simpl; lia |]). by apply Forall_nil.
  - rewrite Hsize. lia.
  - exists sc, h'. split; [reflexivity |]. split; [exact Hrun |].
    split; [exact Hlen |]. exact Hfresh.
Defined.

Lemma setTransformation_frame_witness :
  exists h',
    setTransformation 8 sample_heap 1 [7] = Some h' /\
    (exists n', h' !! 1 = Some n' /\ transformation n' = [7]) /\
    (forall b n, sample_heap !! b = Some n -> b <> 1 ->
                 exists n', h' !! b = Some n' /\ transformation n' = transformation n) /\
    (forall b pb tb, b ∈ preorder sample_shape -> chain sample_heap (Some b) pb tb ->
                     1 ∈ pb -> world_fresh h' b /\ obj3d_synced h' b).
Proof.
  apply (setTransformation_frame sample_heap sample_shape 1 [7] 8).
  - apply sample_scene_tree.
  - vm_compute. repeat constructor.
  - simpl. lia.
Defined.

Lemma getNodes_preorder_witness :
  exists nodes,
    Scene_getNodes 4 sample_scene = Some nodes /\
    nodes = [0; 1; 2; 3] /\
    length nodes = 4 /\
    NoDup nodes /\
    (forall p n c, p ∈ nodes -> sample_heap !! p = Some n -> c ∈ children n ->
                   exists l1 l2 l3, nodes = l1 ++ p :: l2 ++ c :: l3) /\
    (forall p n, p ∈ nodes -> sample_heap !! p = Some n ->
                 sublist (children n) nodes).
Proof.
  apply (getNodes_preorder sample_scene sample_shape 4).
  - apply sample_scene_tree.
  - reflexivity.
  - simpl. lia.
Defined.

Lemma getNode_first_match_witness :
  (forall b n, b ∈ [0; 1; 2; 3] -> sample_heap !! b = Some n -> name n = "c" ->
     exists a na l1 l2,
       Scene_getNode 4 sample_scene "c" = Some (Ok a) /\
       sample_heap !! a = Some na /\ name na = "c" /\
       [0; 1; 2; 3] = l1 ++ a :: l2 /\
       forall x nx, x ∈ l1 -> sample_heap !! x = Some nx -> name nx <> "c") /\
  ((forall b n, b ∈ [0; 1; 2; 3] -> sample_heap !! b = Some n -> name n <> "c") ->
   Scene_getNode 4 sample_scene "c" = Some (Throw (node_not_found "c"))).
Proof.
  apply (getNode_first_match sample_scene sample_shape 4 "c").
  - apply sample_scene_tree.
  - reflexivity.
  - simpl. lia.
Defined.

End SampleScene.

(** * Further properties *)

(** ** The loader *)

Section LoaderRecords.
Import JSString JSGlobal OBJLoader.

Lemma trimEnd_cons c s :
  trimEnd (String c s)
  = match trimEnd s with
    | EmptyString => if is_whitespace c then EmptyString else String c EmptyString
    | t => String c t
    end.
Proof. done. Qed.

Lemma trimEnd_idempotent s : trimEnd (trimEnd s) = trimEnd s.
Proof.
  induction s as [| c s IH]; [done |]. rewrite trimEnd_cons.
  destruct (trimEnd s) as [| d t] eqn:Ht.
  - destruct (is_whitespace c) eqn:Hc; [done |]. rewrite trimEnd_cons. cbn [trimEnd].
    by rewrite Hc.
  - rewrite trimEnd_cons. by rewrite IH.
Qed.

Lemma trimStart_head s :
  trimStart s = "" \/ exists c t, trimStart s = String c t /\ is_whitespace c = false.
Proof.
  induction s as [| c s IH]; [by left |]. cbn [trimStart].
  destruct (is_whitespace c) eqn:Hc; [done |]. right. eauto.
Qed.

Lemma trimStart_trimEnd c t :
  is_whitespace c = false ->
  trimStart (trimEnd (String c t)) = trimEnd (String c t).
Proof.
  intros Hc. rewrite trimEnd_cons. destruct (trimEnd t); rewrite ?Hc; cbn [trimStart];
    by rewrite Hc.
Qed.

Lemma trim_idempotent s : trim (trim s) = trim s.
Proof.
  unfold trim. destruct (trimStart_head s) as [-> | (c & t & -> & Hc)]; [done |].
  rewrite trimStart_trimEnd by done. apply trimEnd_idempotent.
Qed.

Lemma load_line_trim st line : load_line st (trim line) = load_line st line.
Proof. unfold load_line. by rewrite trim_idempotent. Qed.

Lemma is_record_false line :
  is_record line = false -> is_vertex_line line = false /\ is_face_line line = false.
Proof. unfold is_record. by intros ?%orb_false_elim. Qed.

(** The loop of [load] sees the records only. *)
Lemma load_lines_records lines : forall st,
  load_lines st lines
  = load_lines st (filter (fun l => is_record l = true) (map trim lines)).
Proof.
  induction lines as [| line lines IH]; intros st; [done |].
  cbn [map]. destruct (is_record (trim line)) eqn:Hr.
  - rewrite filter_cons_True by done. cbn [load_lines]. rewrite load_line_trim.
    destruct (load_line st line) as [st1 |]; [| done]. apply IH.
  - rewrite filter_cons_False by (by rewrite Hr).
    apply is_record_false in Hr as [Hv Hf]. cbn [load_lines].
    rewrite load_line_other by done. apply IH.
Qed.

Lemma load_records contents :
  load contents = (st ← load_lines load_init (records contents); Ok (load_finish st)).
Proof. unfold load. fold LF. by rewrite load_lines_records. Qed.

(** X1.  [load] reads the vertex and face records only: two files whose
    trimmed lines that start a vertex or a face are the same, in the same
    order, load alike, to the same buffers or to the same error.  Comments,
    blank lines, records of other kinds, indentation and carriage returns
    at the end of the lines change nothing. *)
Theorem load_reads_records_only contents1 contents2 :
  records contents1 = records contents2 -> load contents1 = load contents2.
Proof. intros Heq. by rewrite !load_records, Heq. Qed.

Lemma load_reads_records_only_witness : load dressed_mesh = load sample_mesh.
Proof. apply load_reads_records_only. vm_compute. reflexivity. Defined.

(** X2.  A file without a vertex or face record, the empty file among
    them, loads without error to two empty buffers. *)
Theorem load_without_records contents :
  records contents = [] -> load contents = Ok ([], []).
Proof. intros Hnil. by rewrite load_records, Hnil. Qed.

Lemma load_without_records_witness :
  load (unlines ["# nothing here"; ""; "vn 0 0 1"; "vt 0 0"; "g empty"]) = Ok ([], []).
Proof. apply load_without_records. vm_compute. reflexivity. Defined.


(** *** What makes [load] throw *)

Lemma parseFace_throws_arity s e :
  parseFace s = Throw e ->
  length (face_parts s) <> 3%nat /\ length (face_parts s) <> 4%nat.
Proof.
  unfold parseFace. rewrite length_map.
  destruct (Nat.eqb_spec (length (face_parts s)) 3); [done |].
  destruct (Nat.eqb_spec (length (face_parts s)) 4); done.
Qed.

Lemma load_lines_throws lines : forall st e,
  load_lines st lines = Throw e ->
  e = unsupported_face /\
  exists line, line ∈ map trim lines /\ is_face_line line = true /\
               length (face_parts line) <> 3%nat /\ length (face_parts line) <> 4%nat.
Proof.
  induction lines as [| l lines IH]; intros st e H; [done |].
  cbn [load_lines] in H. destruct (load_line st l) as [st1 |] eqn:H1.
  - destruct (IH _ _ H) as (-> & line & Hin & Hrest). split; [done |].
    exists line. split; [| done]. cbn [map]. by right.
  - injection H as <-. split; [by eapply load_line_throws |].
    exists (trim l). split; [cbn [map]; by left |].
    destruct (is_vertex_line (trim l)) eqn:Hv.
    { by rewrite load_line_vertex in H1. }
    destruct (is_face_line (trim l)) eqn:Hf.
    + split; [done |]. rewrite load_line_face in H1 by done.
      destruct (parseFace (trim l)) eqn:Hp; [done |].
      by eapply parseFace_throws_arity.
    + by rewrite load_line_other in H1.
Qed.

(** X3.  The only error that [load] throws is that of an unsupported
    face, and when it throws the file has a face record whose number of
    references is neither three nor four: no vertex record and no token of a
    face, whatever it holds, makes [load] fail. *)
Theorem load_fails_only_on_faces contents e :
  load contents = Throw e ->
  e = unsupported_face /\
  exists line, line ∈ file_lines contents /\ is_face_line line = true /\
               length (face_parts line) <> 3%nat /\ length (face_parts line) <> 4%nat.
Proof.
  unfold load. fold LF.
  destruct (load_lines load_init (split_char LF contents)) as [st |] eqn:Hst; [done |].
  intros [= <-]. by eapply load_lines_throws.
Qed.

Lemma load_fails_only_on_faces_witness :
  exists line,
    line ∈ file_lines (unlines ["v 0 0 0"; "v x y z"; "f 1 2"; "f 1 2 3"]) /\
    is_face_line line = true /\
    length (face_parts line) <> 3%nat /\ length (face_parts line) <> 4%nat.
Proof.
  destruct (load_fails_only_on_faces
              (unlines ["v 0 0 0"; "v x y z"; "f 1 2"; "f 1 2 3"]) unsupported_face)
    as [_ H]; [vm_compute; reflexivity | exact H].
Defined.

(** *** The sizes of the buffers *)

Lemma length_flat (vs : list Vec3) : length (flat vs) = 3 * length vs.
Proof. induction vs as [| v vs IH]; [done |]. unfold flat in *. simpl. lia. Qed.

Lemma load_lines_indices_length lines : forall st st',
  load_lines st lines = Ok st' ->
  let faces := filter (fun l => is_face_line l = true) (map trim lines) in
  length (indices st')
  = length (indices st)
    + 3 * length (filter (fun l => length (face_parts l) = 3%nat) faces)
    + 6 * length (filter (fun l => length (face_parts l) = 4%nat) faces).
Proof.
  induction lines as [| l lines IH]; intros st st' H; [injection H as <-; simpl; lia |].
  cbn [load_lines] in H. destruct (load_line st l) as [st1 |] eqn:H1; [| done].
  apply IH in H. cbn zeta in H |- *. rewrite H. clear H IH. cbn [map].
  destruct (is_face_line (trim l)) eqn:Hf.
  - rewrite filter_cons_True by done. rewrite load_line_face in H1 by done.
    unfold parseFace in H1. rewrite length_map in H1.
    destruct (Nat.eqb_spec (length (face_parts (trim l))) 3) as [H3 |H3].
    + injection H1 as <-. cbn [indices]. rewrite length_app, length_map.
      rewrite filter_cons_True by done. rewrite filter_cons_False by lia.
      cbn [length]. lia.
    + destruct (Nat.eqb_spec (length (face_parts (trim l))) 4) as [H4 |H4]; [| done].
      injection H1 as <-. cbn [indices]. rewrite length_app.
      rewrite filter_cons_False by lia. rewrite filter_cons_True by done.
      cbn [length triangulateFace]. lia.
  - rewrite filter_cons_False by (by rewrite Hf).
    destruct (is_vertex_line (trim l)) eqn:Hv.
    + rewrite load_line_vertex in H1 by done. by injection H1 as <-.
    + rewrite load_line_other in H1 by done. by injection H1 as <-.
Qed.

(** X4.  The sizes of the buffers that [load] returns: three numbers for
    each vertex record, three indices for each face of three references and
    six for each face of four. *)
Theorem buffer_sizes contents vs ids :
  load contents = Ok (vs, ids) ->
  length vs = 3 * length (vertex_records contents) /\
  length ids = 3 * length (faces_of_arity 3 contents)
               + 6 * length (faces_of_arity 4 contents).
Proof.
  intros H. apply load_inv in H as (st & Hst & Hfin).
  unfold load_finish in Hfin. injection Hfin as <- <-. split.
  - destruct (loop_result _ _ Hst) as (-> & _).
    rewrite length_flat, length_map. unfold parsed_vertices. by rewrite length_map.
  - by rewrite (load_lines_indices_length _ _ _ Hst).
Qed.

Lemma buffer_sizes_witness :
  exists vs ids,
    load (unlines ["v 0 0 0"; "v 1 0 0"; "v 1 1 0"; "v 0 1 0"; "f 1 2 3 4"; "f 1 2 3"])
    = Ok (vs, ids) /\
    length vs = 12 /\ length ids = 9.
Proof.
  destruct (load (unlines ["v 0 0 0"; "v 1 0 0"; "v 1 1 0"; "v 0 1 0";
                           "f 1 2 3 4"; "f 1 2 3"]))
    as [[vs ids] | e] eqn:Hload; [| vm_compute in Hload; discriminate Hload].
  exists vs, ids. split; [reflexivity |]. exact (buffer_sizes _ vs ids Hload).
Defined.

(** *** The two buffers do not depend on each other *)

Lemma emitted_indices_faces lines :
  concat (map emitted_indices lines)
  = concat (map emitted_indices (filter (fun l => is_face_line l = true) lines)).
Proof.
  induction lines as [| l lines IH]; [done |]. cbn [map concat].
  destruct (is_face_line l) eqn:Hf.
  - rewrite filter_cons_True by done. cbn [map concat]. by rewrite IH.
  - rewrite filter_cons_False by (by rewrite Hf). rewrite <- IH.
    unfold emitted_indices. rewrite Hf. by destruct (is_vertex_line l).
Qed.

Lemma load_finish_vertices st1 st2 :
  vertices st1 = vertices st2 -> minExtent st1 = minExtent st2 ->
  maxExtent st1 = maxExtent st2 ->
  fst (load_finish st1) = fst (load_finish st2).
Proof.
  intros Hv Hmin Hmax.
  unfold load_finish, load_scale, load_offset, largest_extent. cbn [fst].
  by rewrite Hv, Hmin, Hmax.
Qed.

(** X5.  The two buffers do not depend on each other: of two files that
    load, those with the same vertex records yield the same vertex buffer
    whatever their faces, and those with the same face records the same
    index buffer whatever their vertices.  A face may come before the
    vertices it refers to. *)
Theorem buffers_independent contents1 contents2 vs1 ids1 vs2 ids2 :
  load contents1 = Ok (vs1, ids1) -> load contents2 = Ok (vs2, ids2) ->
  (vertex_records contents1 = vertex_records contents2 -> vs1 = vs2) /\
  (face_records contents1 = face_records contents2 -> ids1 = ids2).
Proof.
  intros (st1 & Hst1 & Hfin1)%load_inv (st2 & Hst2 & Hfin2)%load_inv.
  destruct (loop_result _ _ Hst1) as (Hv1 & Hi1 & Hext1).
  destruct (loop_result _ _ Hst2) as (Hv2 & Hi2 & Hext2).
  split.
  - intros Heq.
    assert (parsed_vertices contents1 = parsed_vertices contents2) as Hpv.
    { unfold parsed_vertices. unfold vertex_records in Heq. by rewrite Heq. }
    apply (f_equal fst) in Hfin1, Hfin2. cbn [fst] in Hfin1, Hfin2.
    rewrite <- Hfin1, <- Hfin2. apply load_finish_vertices.
    + congruence.
    + apply vec3_ext. intros a. destruct (Hext1 a) as [-> _], (Hext2 a) as [-> _].
      by rewrite Hpv.
    + apply vec3_ext. intros a. destruct (Hext1 a) as [_ ->], (Hext2 a) as [_ ->].
      by rewrite Hpv.
  - intros Heq. unfold load_finish in Hfin1, Hfin2.
    injection Hfin1 as _ <-. injection Hfin2 as _ <-.
    rewrite Hi1, Hi2, (emitted_indices_faces (file_lines contents1)),
      (emitted_indices_faces (file_lines contents2)).
    unfold face_records in Heq. by rewrite Heq.
Qed.


Lemma buffers_independent_witness :
  exists vs ids1 ids2,
    load (unlines ["f 1 2 3"; "v 0 0 0"; "v 1 2 4"]) = Ok (vs, ids1) /\
    load (unlines ["v 0 0 0"; "f 3 2 1 1"; "v 1 2 4"; "f 2 2 2"]) = Ok (vs, ids2).
Proof.
  destruct (load (unlines ["f 1 2 3"; "v 0 0 0"; "v 1 2 4"]))
    as [[vs1 ids1] | e] eqn:H1; [| vm_compute in H1; discriminate H1].
  destruct (load (unlines ["v 0 0 0"; "f 3 2 1 1"; "v 1 2 4"; "f 2 2 2"]))
    as [[vs2 ids2] | e] eqn:H2; [| vm_compute in H2; discriminate H2].
  destruct (buffers_independent _ _ _ _ _ _ H1 H2) as [Hvs _].
  exists vs1, ids1, ids2. split; [reflexivity |].
  rewrite (Hvs eq_refl). reflexivity.
Defined.

End LoaderRecords.

Section LoaderNumbers.
Import JSString JSGlobal OBJLoader.

(** *** A coordinate that is not a number *)

Lemma min2_NaN_r m : min2 m NaN = NaN.
Proof. by destruct m. Qed.

Lemma max2_NaN_r m : max2 m NaN = NaN.
Proof. by destruct m. Qed.

Lemma fold_NaN (f : Number -> Number -> Number) cs :
  (forall c, f NaN c = NaN) -> fold_left f cs NaN = NaN.
Proof. intros Hf. induction cs as [| c cs IH]; [done |]. simpl. by rewrite Hf. Qed.

Lemma fold_meets_NaN (f : Number -> Number -> Number) cs : forall m0,
  (forall c, f NaN c = NaN) -> (forall m, f m NaN = NaN) ->
  NaN ∈ cs -> fold_left f cs m0 = NaN.
Proof.
  intros m0 Hl Hr Hin. revert m0.
  induction cs as [| c cs IH]; intros m0; [by apply elem_of_nil in Hin |].
  cbn [fold_left]. apply elem_of_cons in Hin as [<- | Hin].
  - rewrite Hr. by apply fold_NaN.
  - by apply IH.
Qed.

Lemma Math_min_NaN_l c : Math_min [NaN; c] = NaN.
Proof. done. Qed.

Lemma Math_min_NaN_r m : Math_min [m; NaN] = NaN.
Proof. by destruct m. Qed.

Lemma Math_max_NaN_l c : Math_max [NaN; c] = NaN.
Proof. done. Qed.

Lemma Math_max_NaN_r m : Math_max [m; NaN] = NaN.
Proof. by destruct m. Qed.

Lemma add_NaN_r x : add x NaN = NaN.
Proof. by destruct x. Qed.

Lemma sub_NaN_r x : sub x NaN = NaN.
Proof. by destruct x. Qed.

Lemma mul_NaN_r x : mul x NaN = NaN.
Proof. by destruct x. Qed.

Lemma Math_max_meets_NaN args : NaN ∈ args -> Math_max args = NaN.
Proof.
  apply fold_meets_NaN; [done | apply max2_NaN_r].
Qed.

Lemma elem_of_flat x (vs : list Vec3) :
  x ∈ flat vs <-> exists v a, v ∈ vs /\ x = coord a v.
Proof.
  unfold flat. induction vs as [| v vs IH]; cbn [map concat].
  - split; [by intros ?%elem_of_nil | by intros (v & a & ?%elem_of_nil & _)].
  - rewrite elem_of_app, IH. split.
    + intros [Hx | (w & a & Hw & ->)].
      * exists v. apply list_elem_of_In in Hx.
        destruct Hx as [<- | [<- | [<- | []]]];
          [exists Axis0 | exists Axis1 | exists Axis2]; (split; [by left | done]).
      * exists w, a. split; [by right | done].
    + intros (w & a & [-> | Hw]%elem_of_cons & ->).
      * left. destruct a; cbn [coord]; [by left | right; by left | right; right; by left].
      * right. eauto.
Qed.

(** X6.  A single coordinate that is not a number, as [parseFloat] gives
    for a missing or malformed token, spoils the whole vertex buffer: every
    number that [load] returns is [NaN]. *)
Theorem nan_coordinate_poisons contents vs ids :
  load contents = Ok (vs, ids) ->
  (exists v a, v ∈ parsed_vertices contents /\ coord a v = NaN) ->
  forall x, x ∈ vs -> x = NaN.
Proof.
  intros (st & Hst & Hfin)%load_inv (v & a & Hv & Hnan).
  destruct (loop_result _ _ Hst) as (Hvs & _ & Hext).
  assert (coord a (minExtent st) = NaN) as Hmin.
  { destruct (Hext a) as [-> _].
    apply fold_meets_NaN; [done | apply Math_min_NaN_r |].
    rewrite <- Hnan. by apply list_elem_of_fmap_2. }
  assert (largest_extent st = NaN) as HE.
  { rewrite largest_extent_coord. apply Math_max_meets_NaN.
    destruct a; cbn [coord] in Hmin; cbn [coord]; rewrite Hmin, sub_NaN_r;
      [by left | right; by left | right; right; by left]. }
  unfold load_finish, load_scale in Hfin. rewrite HE in Hfin.
  injection Hfin as <- _. intros x (w & b & Hw & ->)%elem_of_flat.
  apply list_elem_of_fmap in Hw as (u & -> & _).
  rewrite normalize_coord. apply mul_NaN_r.
Qed.

Lemma nan_coordinate_poisons_witness :
  exists vs ids, load truncated_mesh = Ok (vs, ids) /\ forall x, x ∈ vs -> x = NaN.
Proof.
  destruct (load truncated_mesh) as [[vs ids] | e] eqn:Hload;
    [| vm_compute in Hload; discriminate Hload].
  exists vs, ids. split; [reflexivity |].
  apply (nan_coordinate_poisons truncated_mesh vs ids Hload).
  exists (parseVertex "v 1 2"), Axis2. split.
  - vm_compute. right. left.
  - reflexivity.
Defined.


(** *** The cube that holds the vertices returned *)

Local Open Scope Qc_scope.

Lemma centred_hi lo hi E :
  E <> 0 -> (hi + offset_of lo hi) * scale_of E = (hi - lo) / E.
Proof. intros HE. unfold offset_of, scale_of. rewrite two_Qc_sum. field. done. Qed.

Lemma centred_lo lo hi E :
  E <> 0 -> (lo + offset_of lo hi) * scale_of E = - ((hi - lo) / E).
Proof. intros HE. unfold offset_of, scale_of. rewrite two_Qc_sum. field. done. Qed.

Lemma ratio_le_1 d E : 0 < E -> d <= E -> d / E <= 1.
Proof.
  intros HE Hd. assert (E <> 0) as HE0 by (intros ->; by apply Qclt_not_eq in HE).
  rewrite <- (Qcmult_inv_r E HE0). unfold Qcdiv.
  apply Qcmult_le_mono_pos_r; [by apply Qcinv_pos | done].
Qed.

(** X7.  When the coordinates of the vertex records are finite, the largest
    extent [E] is positive and the normalization rounds nothing on the
    mesh, every number of the vertex buffer that [load] returns is finite
    and lies between -1 and 1: the mesh fits the cube of side 2 centred on
    the origin. *)
Theorem normalized_in_unit_cube contents vs ids (lo hi : Axis -> Qc) (E : Qc) :
  load contents = Ok (vs, ids) ->
  (forall a, bounds a (parsed_vertices contents) (lo a) (hi a)) ->
  (forall a, hi a - lo a <= E) ->
  (exists a, hi a - lo a = E) ->
  0 < E ->
  normalization_exact (parsed_vertices contents) lo hi E ->
  forall x, x ∈ vs -> exists q, val x = Some q /\ - (1) <= q /\ q <= 1.
Proof.
  intros Hload Hb HleE HaE HE Hex x Hx.
  apply load_inv in Hload as (st & Hst & Hfin).
  destruct (loop_result _ _ Hst) as (Hv & _ & _).
  destruct (load_exact _ _ _ _ _ Hst Hb HleE HaE HE Hex) as (Hscale & _ & Hout).
  assert (E <> 0) as HE0 by (intros ->; by apply Qclt_not_eq in HE).
  unfold load_finish in Hfin. rewrite Hscale, Hv in Hfin. injection Hfin as <- _.
  apply elem_of_flat in Hx as (w & a & Hw & ->).
  apply list_elem_of_fmap in Hw as (u & -> & Hu).
  destruct (Hb a) as (Hall & _). destruct (Hall u Hu) as (q & Hq & Hloq & Hqhi).
  rewrite (Hout u a q Hu Hq). eexists. split; [done |].
  assert (0 < scale_of E) as Hs by (by apply scale_positive).
  split.
  - apply (Qcle_trans _ ((lo a + offset_of (lo a) (hi a)) * scale_of E)).
    + rewrite centred_lo by done. apply Qcopp_le_compat. by apply ratio_le_1.
    + apply Qcmult_le_mono_pos_r; [done |]. by apply Qcplus_le_mono_r.
  - apply (Qcle_trans _ ((hi a + offset_of (lo a) (hi a)) * scale_of E)).
    + apply Qcmult_le_mono_pos_r; [done |]. by apply Qcplus_le_mono_r.
    + rewrite centred_hi by done. by apply ratio_le_1.
Qed.

Lemma normalized_in_unit_cube_witness :
  exists vs ids,
    load sample_mesh = Ok (vs, ids) /\
    forall x, x ∈ vs -> exists q, val x = Some q /\ - (1) <= q /\ q <= 1.
Proof.
  destruct (load sample_mesh) as [[vs ids] | e] eqn:Hload;
    [| vm_compute in Hload; discriminate Hload].
  exists vs, ids. split; [reflexivity |].
  apply (normalized_in_unit_cube sample_mesh vs ids sample_lo sample_hi
           (Q2Qc (inject_Z 4)) Hload).
  - apply sample_mesh_bounds.
  - intros a. destruct a; apply (bool_decide_unpack _); vm_compute; exact I.
  - exists Axis2. by apply Qc_is_canon.
  - apply (bool_decide_unpack _). vm_compute. exact I.
  - apply sample_mesh_exact.
Defined.

End LoaderNumbers.

Section LoaderIndices.
Import JSString JSGlobal OBJLoader.

(** *** No index is a fraction *)

(** [parseInt] returns no fraction, and neither does a decrement. *)
Lemma parseInt_whole s q :
  parseInt s = Fin q -> exists z, q = Q2Qc (inject_Z z).
Proof.
  unfold parseInt. destruct (strip_sign (trimStart s)) as [negative s1].
  destruct (if (startsWith s1 "0x" || startsWith s1 "0X")%bool
            then digits_prefix hex_digit_value 16 None (drop2 s1)
            else digits_prefix digit_value 10 None s1) as [m |]; [| done].
  unfold of_magnitude. destruct (Qeq_bool (inject_Z m) 0).
  - destruct negative; [done |]. intros [= <-]. by exists 0%Z.
  - destruct negative.
    + apply (round_whole _ (- m)). by rewrite inject_Z_opp.
    + by apply (round_whole _ m).
Qed.

Lemma face_index_whole part q :
  face_index part = Fin q -> exists z, q = Q2Qc (inject_Z z).
Proof.
  unfold face_index, sub. change (neg (of_Z 1)) with (of_Z (-1)).
  destruct (parseInt (entry (split_char "/" part) 0)) as [| | | | r] eqn:Hp;
    try done.
  - intros [= <-]. by exists (-1)%Z.
  - apply parseInt_whole in Hp as [z ->]. unfold of_Z. cbn [add].
    rewrite Q2Qc_plus_Z. apply (round_whole _ (z + -1)).
    simpl. by rewrite Qred_correct.
Qed.

Lemma parseFace_Ok_elem s l i :
  parseFace s = Ok l -> i ∈ l -> exists part, i = face_index part.
Proof.
  unfold parseFace. rewrite length_map.
  destruct (face_parts s) as [| p0 [| p1 [| p2 [| p3 [| p4 ps]]]]]; try done.
  - intros [= <-] Hi. apply list_elem_of_In in Hi.
    destruct Hi as [<- | [<- | [<- | []]]]; by eexists.
  - intros [= <-] Hi. apply list_elem_of_In in Hi.
    destruct Hi as [<- | [<- | [<- | [<- | [<- | [<- | []]]]]]]; by eexists.
Qed.

Lemma elem_of_concat {A : Type} (x : A) (ls : list (list A)) :
  x ∈ concat ls -> exists l, x ∈ l /\ l ∈ ls.
Proof.
  induction ls as [| l ls IH]; cbn [concat]; [by intros ?%elem_of_nil |].
  intros [Hx | Hx]%elem_of_app.
  - exists l. split; [done | by left].
  - destruct (IH Hx) as (l' & Hx' & Hl'). exists l'. split; [done | by right].
Qed.

(** X27.  No index that [load] returns is a fraction: the token of a
    reference is read by [parseInt], which drops what follows the digits,
    so that an index that is a finite number is a whole number. *)
Theorem indices_are_whole_numbers contents vs ids :
  load contents = Ok (vs, ids) ->
  forall i q, i ∈ ids -> i = Fin q -> exists z, q = Q2Qc (inject_Z z).
Proof.
  intros (st & Hst & Hfin)%load_inv i q Hi Hq.
  destruct (loop_result _ _ Hst) as (_ & Hids & _).
  unfold load_finish in Hfin. injection Hfin as _ <-. rewrite Hids in Hi.
  apply elem_of_concat in Hi as (l & Hi & Hl).
  apply list_elem_of_fmap in Hl as (line & -> & _).
  unfold emitted_indices in Hi. destruct (is_vertex_line line).
  { by apply elem_of_nil in Hi. }
  destruct (is_face_line line); [| by apply elem_of_nil in Hi].
  destruct (parseFace line) as [l |] eqn:Hp; [| by apply elem_of_nil in Hi].
  destruct (parseFace_Ok_elem _ _ _ Hp Hi) as [part ->].
  by apply (face_index_whole part).
Qed.

End LoaderIndices.

(** ** The scenegraph *)

Section SceneWalks.
Context `{Imports}.
Abbreviation Heap := (list SceneNode).
Implicit Types (h : Heap) (a b : addr) (n : SceneNode).

(** *** The walk to the root, from the code to the relation *)

Lemma getTransformationHierarchy_inv fuel : forall h a acc r,
  getTransformationHierarchy fuel h a acc = Some r ->
  exists path ts, chain h (Some a) path ts /\ length path <= fuel /\ r = acc ++ ts.
Proof.
  induction fuel as [| fuel IH]; intros h a acc r; [done |].
  cbn [getTransformationHierarchy]. destruct (h !! a) as [n |] eqn:Ha; [| done].
  cbn [mbind option_bind]. destruct (parent n) as [p |] eqn:Hp.
  - intros (path & ts & Hc & Hlen & ->)%IH.
    exists (a :: path), (transformation n :: ts).
    split; [econstructor; [done | by rewrite Hp] |].
    split; [simpl; lia | by rewrite <- app_assoc].
  - intros [= <-]. exists [a], [transformation n].
    split; [econstructor; [done |]; rewrite Hp; constructor |].
    split; [simpl; lia | done].
Qed.

(** X8.  [calculateWorldTransformation] returns exactly when the walk up
    the parents reaches a root within the bound, and what it returns is the
    product, from the identity, of the local transformations from that root
    down to the node. *)
Theorem calculateWorldTransformation_walk fuel h a w :
  calculateWorldTransformation fuel h a = Some w <->
  exists path ts, chain h (Some a) path ts /\ length path <= fuel /\
                  w = product (rev ts).
Proof.
  split.
  - unfold calculateWorldTransformation.
    destruct (getTransformationHierarchy fuel h a []) as [r |] eqn:Hr; [| done].
    apply getTransformationHierarchy_inv in Hr as (path & ts & Hc & Hlen & ->).
    intros [= <-]. by exists path, ts.
  - intros (path & ts & Hc & Hlen & ->).
    by eapply calculateWorldTransformation_chain.
Qed.

(** *** What [setTransformation] keeps, on any store *)

Lemma outline_refreshed w n : outline (refreshed w n) = outline n.
Proof. destruct n as [nm ty t w0 p cs [o |]]; reflexivity. Qed.

Lemma outline_with_transformation n :
  outline (with_transformation (transformation n) n) = outline n.
Proof. done. Qed.

Lemma map_outline_insert h a n n' :
  h !! a = Some n -> outline n' = outline n ->
  map outline (<[a := n']> h) = map outline h.
Proof.
  intros Ha Ho. rewrite list_fmap_insert. apply list_insert_id.
  rewrite list_lookup_fmap, Ha. simpl. by rewrite Ho.
Qed.

Lemma for_each_invariant {A S : Type} (P : S -> S -> Prop) (f : S -> A -> option S) l :
  (forall s, P s s) -> (forall s1 s2 s3, P s1 s2 -> P s2 s3 -> P s1 s3) ->
  (forall s x s', f s x = Some s' -> P s s') ->
  forall s r, for_each f s l = Some r -> P s r.
Proof.
  intros Hrefl Htrans Hstep. induction l as [| x l IH]; intros s r.
  - intros [= <-]. apply Hrefl.
  - cbn [for_each]. destruct (f s x) as [s' |] eqn:Hf; [| done].
    cbn [mbind option_bind]. intros Hr. eapply Htrans; [by eapply Hstep | by apply IH].
Qed.

Lemma setTransformation_outlines fuel : forall h a m h' node,
  h !! a = Some node ->
  setTransformation fuel h a m = Some h' ->
  map outline h' = map outline (<[a := with_transformation m node]> h).
Proof.
  induction fuel as [| fuel IH]; intros h a m h' node Ha Hset; [done |].
  apply setTransformation_inv in Hset
    as (node' & h1 & world & node1 & Ha' & Hloop & Hcalc & Hnode1 & ->).
  simplify_eq.
  assert (map outline h1 = map outline (<[a := with_transformation m node]> h)) as <-.
  { symmetry. revert Hloop. unfold refresh_children.
    apply (for_each_invariant (fun s r => map outline s = map outline r)).
    - done.
    - congruence.
    - intros s c s'. destruct (s !! c) as [cn |] eqn:Hc; [| done].
      cbn [mbind option_bind]. intros Hs. rewrite (IH _ _ _ _ _ Hc Hs).
      symmetry. by apply (map_outline_insert s c cn). }
  apply (map_outline_insert h1 a node1); [done | apply outline_refreshed].
Qed.

Lemma refresh_children_outlines fuel h cs h1 :
  refresh_children fuel h cs = Some h1 -> map outline h1 = map outline h.
Proof.
  intros Hloop. symmetry. revert Hloop. unfold refresh_children.
  apply (for_each_invariant (fun s r => map outline s = map outline r)).
  - done.
  - congruence.
  - intros s c s'. destruct (s !! c) as [cn |] eqn:Hc; [| done].
    cbn [mbind option_bind]. intros Hs.
    rewrite (setTransformation_outlines _ _ _ _ _ _ Hc Hs).
    symmetry. by apply (map_outline_insert s c cn).
Qed.

Lemma outline_lookup h h' a n :
  map outline h' = map outline h -> h !! a = Some n ->
  exists n', h' !! a = Some n' /\ outline n' = outline n.
Proof.
  intros Heq Ha. apply (f_equal (fun l => l !! a)) in Heq.
  rewrite !list_lookup_fmap, Ha in Heq.
  destruct (h' !! a) as [n' |]; [| done]. exists n'. split; [done |].
  simpl in Heq. congruence.
Qed.

(** X10.  On any store, tree or not, a call of [setTransformation] that
    returns changes caches only, the local transformation of its node
    apart: the store keeps its size, every node keeps its name, its type,
    its parent, its children, and the buffers and the draw mode of its
    renderable; the node of the call has the transformation passed and
    every other node keeps its own. *)
Theorem setTransformation_touches_caches_only fuel h a m h' :
  setTransformation fuel h a m = Some h' ->
  length h' = length h /\
  forall b n, h !! b = Some n ->
    exists n', h' !! b = Some n' /\
      name n' = name n /\ type n' = type n /\
      parent n' = parent n /\ children n' = children n /\
      mesh_of <$> obj3d n' = mesh_of <$> obj3d n /\
      transformation n' = (if decide (b = a) then m else transformation n).
Proof.
  intros Hset. destruct fuel as [| fuel]; [done |].
  pose proof Hset as Hinv. apply setTransformation_inv in Hinv as (node & _ & _ & _ & Ha & _).
  pose proof (setTransformation_outlines _ _ _ _ _ _ Ha Hset) as Heq.
  assert (a < length h) as Hlt by (by eapply lookup_lt_Some).
  split.
  { apply (f_equal length) in Heq. by rewrite !length_map, length_insert in Heq. }
  intros b n Hb. destruct (decide (b = a)) as [-> | Hne].
  - destruct (outline_lookup _ _ a (with_transformation m node) Heq) as (n' & Hn' & Ho).
    { by apply list_lookup_insert_eq. }
    rewrite Ha in Hb. injection Hb as <-.
    exists n'. split; [done |]. unfold outline in Ho. simpl in Ho.
    injection Ho as H1 H2 H3 H4 H5 H6. done.
  - destruct (outline_lookup _ _ b n Heq) as (n' & Hn' & Ho).
    { by rewrite list_lookup_insert_ne. }
    exists n'. split; [done |]. unfold outline in Ho.
    injection Ho as H1 H2 H3 H4 H5 H6. done.
Qed.

(** *** A node that is its own parent *)

Lemma chain_self_parent h a n :
  h !! a = Some n -> parent n = Some a -> forall path ts, ~ chain h (Some a) path ts.
Proof.
  intros Ha Hp path ts Hc. remember (Some a) as p eqn:Heq.
  induction Hc as [| a' n' path ts Ha' Hc IH]; [done |].
  injection Heq as ->. simplify_eq. by apply IH.
Qed.

(** X9.  [setParent] checks nothing: once a node is made its own parent,
    [calculateWorldTransformation] and [setTransformation] on it return for
    no bound of the recursion. *)
Theorem self_parent_never_returns h a n fuel m :
  h !! a = Some n ->
  calculateWorldTransformation fuel (setParent h a (Some a)) a = None /\
  setTransformation fuel (setParent h a (Some a)) a m = None.
Proof.
  intros Ha. set (h0 := setParent h a (Some a)).
  assert (h0 !! a = Some (with_parent (Some a) n)) as Ha0.
  { unfold h0, setParent. by rewrite list_lookup_alter_eq, Ha. }
  split.
  - destruct (calculateWorldTransformation fuel h0 a) as [w |] eqn:Hw; [| done].
    apply calculateWorldTransformation_walk in Hw as (path & ts & Hc & _).
    by apply (chain_self_parent h0 a _ Ha0 eq_refl) in Hc.
  - destruct (setTransformation fuel h0 a m) as [h' |] eqn:Hset; [| done].
    destruct fuel as [| fuel]; [done |].
    pose proof Hset as Hinv. apply setTransformation_inv in Hinv
      as (node & h1 & world & node1 & Ha' & Hloop & Hcalc & Hnode1 & ->).
    simplify_eq.
    apply calculateWorldTransformation_walk in Hcalc as (path & ts & Hc & _).
    exfalso. eapply (chain_self_parent h1 a node1); [done | | exact Hc].
    pose proof (refresh_children_outlines _ _ _ _ Hloop) as Heq.
    destruct (outline_lookup _ _ a (with_transformation m (with_parent (Some a) n)) Heq)
      as (n1 & Hn1 & Ho).
    { apply list_lookup_insert_eq. by eapply lookup_lt_Some. }
    simplify_eq. unfold outline in Ho. simpl in Ho. congruence.
Qed.

End SceneWalks.

Section SceneModels.
Context `{Imports}.
Abbreviation Heap := (list SceneNode).
Import OBJLoader.

(** *** The table of models *)

Lemma load_throws contents e : load contents = Throw e -> e = unsupported_face.
Proof.
  unfold load.
  destruct (load_lines load_init (JSString.split_char "010" contents)) as [st |] eqn:Hst;
    [done |].
  intros [= <-]. revert Hst. generalize load_init.
  induction (JSString.split_char "010" contents) as [| l lines IH]; intros st; [done |].
  cbn [load_lines]. destruct (load_line st l) as [st1 |] eqn:H1.
  - apply IH.
  - intros [= <-]. by eapply load_line_throws.
Qed.

Lemma last_declared_cons mc cfgs nm :
  last_declared (mc :: cfgs) nm
  = match last_declared cfgs nm with
    | Some mc' => Some mc'
    | None => if decide (mc_name mc = nm) then Some mc else None
    end.
Proof.
  unfold last_declared. destruct (decide (mc_name mc = nm)) as [Heq | Hne].
  - rewrite filter_cons_True by done. apply last_cons.
  - rewrite filter_cons_False by done. by destruct (last _).
Qed.

Lemma last_declared_Some cfgs nm mc :
  last_declared cfgs nm = Some mc -> mc ∈ cfgs /\ mc_name mc = nm.
Proof.
  unfold last_declared. intros Hl. apply last_Some_elem_of in Hl.
  by apply list_elem_of_filter in Hl as [? ?].
Qed.

Lemma last_declared_None cfgs nm :
  last_declared cfgs nm = None <-> ~ declared cfgs nm.
Proof.
  unfold last_declared, declared. rewrite last_None. split.
  - intros Hnil (mc & Hin & Hname).
    assert (mc ∈ filter (fun mc => mc_name mc = nm) cfgs) as Hf
      by (by apply list_elem_of_filter).
    rewrite Hnil in Hf. by apply elem_of_nil in Hf.
  - intros Hno. destruct (filter _ cfgs) as [| mc l] eqn:Hf; [done |].
    exfalso. apply Hno. exists mc.
    assert (mc ∈ filter (fun mc => mc_name mc = nm) cfgs) as Hin
      by (rewrite Hf; by left).
    apply list_elem_of_filter in Hin as [? ?]. done.
Qed.

(** The mesh of a file, when it loads. *)
Lemma loadModels_from_lookup cfgs : forall acc models nm,
  loadModels_from acc cfgs = Ok models ->
  models !! nm
  = match last_declared cfgs nm with
    | Some mc =>
        match load (loadExternalFile (mc_obj mc)) with
        | Ok mesh => Some mesh
        | Throw _ => None
        end
    | None => acc !! nm
    end.
Proof.
  induction cfgs as [| mc cfgs IH]; intros acc models nm.
  - by intros [= <-].
  - cbn [loadModels_from].
    destruct (load (loadExternalFile (mc_obj mc))) as [mesh |] eqn:Hload; [| done].
    cbn [mbind result_bind]. intros Hrest. rewrite (IH _ _ nm Hrest).
    rewrite last_declared_cons. destruct (last_declared cfgs nm) as [mc' |]; [done |].
    destruct (decide (mc_name mc = nm)) as [<- | Hne].
    + by rewrite Hload, lookup_insert_eq.
    + by rewrite lookup_insert_ne.
Qed.

(** X11.  The table that [loadModels] builds holds under a name the mesh
    of the last declaration of that name: a later declaration replaces an
    earlier one, and a name that is not declared is not in the table. *)
Theorem loadModels_last_wins cfgs models nm mesh :
  loadModels cfgs = Ok models ->
  models !! nm = Some mesh <->
  exists mc, last_declared cfgs nm = Some mc /\
             load (loadExternalFile (mc_obj mc)) = Ok mesh.
Proof.
  intros Hload. rewrite (loadModels_from_lookup _ _ _ nm Hload).
  destruct (last_declared cfgs nm) as [mc |].
  - destruct (load (loadExternalFile (mc_obj mc))) as [mesh' |] eqn:Hmc.
    + split; [intros [= ->]; eauto | intros (mc' & [= <-] & Hok); congruence].
    + split; [done | intros (mc' & [= <-] & Hok); congruence].
  - rewrite lookup_empty. split; [done | by intros (mc & ? & _)].
Qed.

Lemma loadModels_declared cfgs models nm :
  loadModels cfgs = Ok models -> is_Some (models !! nm) <-> declared cfgs nm.
Proof.
  intros Hload. rewrite (loadModels_from_lookup _ _ _ nm Hload). split.
  - destruct (last_declared cfgs nm) as [mc |] eqn:Hl.
    + intros _. apply last_declared_Some in Hl as [? ?]. by exists mc.
    + rewrite lookup_empty. by intros [? ?].
  - intros Hd. destruct (last_declared cfgs nm) as [mc |] eqn:Hl.
    + apply last_declared_Some in Hl as [Hin _].
      destruct (load (loadExternalFile (mc_obj mc))) as [mesh |] eqn:Hmc; [done |].
      exfalso. revert Hload Hin Hmc. unfold loadModels. generalize (∅ : gmap string Mesh).
      clear. induction cfgs as [| mc0 cfgs IH]; intros acc Hload Hin Hmc.
      * by apply elem_of_nil in Hin.
      * cbn [loadModels_from] in Hload.
        destruct (load (loadExternalFile (mc_obj mc0))) as [mesh |] eqn:H0; [| done].
        apply elem_of_cons in Hin as [-> | Hin]; [congruence |]. by eapply IH.
    + by apply last_declared_None in Hl.
Qed.

Lemma loadModels_from_throws cfgs : forall acc e,
  loadModels_from acc cfgs = Throw e ->
  e = unsupported_face /\
  exists mc, mc ∈ cfgs /\ load (loadExternalFile (mc_obj mc)) = Throw unsupported_face.
Proof.
  induction cfgs as [| mc cfgs IH]; intros acc e; [done |].
  cbn [loadModels_from].
  destruct (load (loadExternalFile (mc_obj mc))) as [mesh |] eqn:Hload.
  - cbn [mbind result_bind]. intros (-> & mc' & Hin & Hmc')%IH. split; [done |].
    exists mc'. split; [by right | done].
  - intros [= <-]. pose proof (load_throws _ _ Hload) as ->. split; [done |].
    exists mc. split; [by left | done].
Qed.

Lemma loadModels_from_broken cfgs : forall acc mc e,
  mc ∈ cfgs -> load (loadExternalFile (mc_obj mc)) = Throw e ->
  loadModels_from acc cfgs = Throw unsupported_face.
Proof.
  induction cfgs as [| mc0 cfgs IH]; intros acc mc e Hin Hmc.
  { by apply elem_of_nil in Hin. }
  cbn [loadModels_from].
  destruct (load (loadExternalFile (mc_obj mc0))) as [mesh |] eqn:Hload.
  - apply elem_of_cons in Hin as [-> | Hin]; [congruence |].
    cbn [mbind result_bind]. by eapply IH.
  - by rewrite (load_throws _ _ Hload).
Qed.

Lemma loadModels_total cfgs :
  (forall mc, mc ∈ cfgs -> faces_supported (loadExternalFile (mc_obj mc))) ->
  exists models, loadModels cfgs = Ok models.
Proof.
  intros Hok. destruct (loadModels cfgs) as [models | e] eqn:Hload; [by eexists |].
  apply loadModels_from_throws in Hload as (_ & mc & Hin & Hmc).
  destruct (load_total _ (Hok mc Hin)) as (st & _ & Hload). congruence.
Qed.

(** X12.  The constructor loads every declared model before it looks at
    the scenegraph: a declared model whose file does not load makes it throw
    the unsupported-face error, whether a node uses the model or not. *)
Theorem broken_model_fails_scene fuel config mc e :
  mc ∈ cfg_models config ->
  load (loadExternalFile (mc_obj mc)) = Throw e ->
  new_Scene fuel config = Some (Throw unsupported_face).
Proof.
  intros Hin Hmc. unfold new_Scene, loadModels.
  by rewrite (loadModels_from_broken _ _ _ _ Hin Hmc).
Qed.

(** *** [instantiateModel], on the table that [loadModels] builds *)

Lemma instantiateModel_Ok (models : gmap string Mesh) nm o :
  instantiateModel models nm = Ok o ->
  exists vertices indices,
    models !! nm = Some (vertices, indices) /\
    o = new_Object3D vertices indices TRIANGLES.
Proof.
  unfold instantiateModel. case_decide; [done |].
  destruct (models !! nm) as [[v i] |]; [| done]. intros [= <-]. eauto.
Qed.

Lemma instantiateModel_throws (models : gmap string Mesh) nm e :
  instantiateModel models nm = Throw e ->
  e = TypeError \/
  (e = model_not_found nm /\
   (is_Some (models !! "true") \/ is_Some (models !! "false"))).
Proof.
  unfold instantiateModel. case_decide as Hkey.
  - intros [= <-]. right. split; [done |]. by destruct (decide (nm = "")); [left | right].
  - destruct (models !! nm) as [[v i] |]; [done |]. intros [= <-]. by left.
Qed.

(** X13.  What [instantiateModel] does on the table of the declared
    models.  Its guard looks up [false] (or [true], for the empty name)
    instead of the name: when a model is declared under that word the call
    throws the not-found error, even for a declared name; otherwise an
    undeclared name raises a TypeError, and a declared one yields the
    renderable of the mesh last declared under it, drawn as triangles and
    not yet placed. *)
Theorem instantiateModel_outcomes cfgs models nm :
  loadModels cfgs = Ok models ->
  let guard := if decide (nm = "") then "true" else "false" in
  (declared cfgs guard -> instantiateModel models nm = Throw (model_not_found nm)) /\
  (~ declared cfgs guard -> ~ declared cfgs nm ->
   instantiateModel models nm = Throw TypeError) /\
  (~ declared cfgs guard -> declared cfgs nm ->
   exists mc vertices indices,
     last_declared cfgs nm = Some mc /\
     load (loadExternalFile (mc_obj mc)) = Ok (vertices, indices) /\
     instantiateModel models nm
     = Ok (mkObject3D vertices indices TRIANGLES mat4_create)).
Proof.
  intros Hload guard. unfold instantiateModel. fold guard.
  split; [| split].
  - intros Hg. apply (loadModels_declared _ _ _ Hload) in Hg. by rewrite decide_True.
  - intros Hg Hnm. rewrite decide_False by (by rewrite (loadModels_declared _ _ _ Hload)).
    destruct (models !! nm) as [mesh |] eqn:Hm; [| done].
    exfalso. apply Hnm. apply (loadModels_declared _ _ _ Hload). by rewrite Hm.
  - intros Hg Hnm. rewrite decide_False by (by rewrite (loadModels_declared _ _ _ Hload)).
    apply (loadModels_declared _ _ _ Hload) in Hnm as [[v i] Hm]. rewrite Hm.
    rewrite (loadModels_from_lookup _ _ _ nm Hload) in Hm.
    destruct (last_declared cfgs nm) as [mc |] eqn:Hl; [| by rewrite lookup_empty in Hm].
    destruct (load (loadExternalFile (mc_obj mc))) as [mesh |] eqn:Hmc; [| done].
    assert (mesh = (v, i)) as -> by congruence. by exists mc, v, i.
Qed.

End SceneModels.

Section SceneBuilding.
Context `{Imports}.
Abbreviation Heap := (list SceneNode).
Implicit Types (h : Heap) (a b : addr) (n : SceneNode) (c : NodeConfig).

(** *** The layout of a description *)

Lemma layout_unfold models par a nm ty tr content cs :
  layout models par a (mkNodeConfig nm ty tr content cs)
  = (nm, ty, json2transform tr, par, child_addrs (S a) cs,
     expected_mesh models ty content)
    :: layout_forest models a (S a) cs.
Proof.
  cbn [layout]. f_equal. generalize (S a).
  induction cs as [| c cs IH]; intros b; [done |].
  cbn [layout_forest]. by rewrite <- IH.
Qed.

Lemma config_nodes_unfold nm ty tr content cs :
  config_nodes (mkNodeConfig nm ty tr content cs)
  = mkNodeConfig nm ty tr content cs :: concat (map config_nodes cs).
Proof. done. Qed.

Lemma layout_length models c : forall par a,
  length (layout models par a c) = length (config_nodes c).
Proof.
  induction c as [nm ty tr content cs IH] using NodeConfig_ind'. intros par a.
  rewrite layout_unfold, config_nodes_unfold. cbn [length]. f_equal.
  generalize (S a). induction IH as [| c cs Hc _ IHcs]; intros b; [done |].
  cbn [layout_forest map concat]. rewrite !length_app, Hc, IHcs. done.
Qed.

(** The parent under which a description is laid out shows in its first
    outline only. *)
Lemma layout_parent models par par' a c o rest :
  layout models par a c = o :: rest ->
  layout models par' a c = (o.1.1.1, par', o.1.2, o.2) :: rest.
Proof.
  destruct c as [nm ty tr content cs]. rewrite !layout_unfold.
  by intros [= <- <-].
Qed.


Lemma create_node_outline models nm ty tr content h a h1 :
  create_node models nm ty tr content h = Ok (Some a, h1) ->
  a = length h /\
  accepted models (mkNodeConfig nm ty tr content []) /\
  exists n0, h1 = h ++ [n0] /\
             outline n0 = (nm, ty, json2transform tr, None, [],
                           expected_mesh models ty content).
Proof.
  unfold create_node, new_node, accepted, expected_mesh. cbn [cfg_type cfg_content].
  destruct (decide (ty = "node")) as [-> | Hnode].
  - intros [= <- <-]. split; [done |]. split; [by left |]. eexists. split; [done |].
    by rewrite decide_False.
  - destruct (decide (ty = "model")) as [-> | Hmodel]; [| done].
    destruct (instantiateModel models content) as [obj |] eqn:Hinst; [| done].
    intros [= <- <-]. apply instantiateModel_Ok in Hinst as (v & i & Hm & ->).
    split; [done |]. split; [right; by rewrite Hm |]. eexists. split; [done |].
    unfold outline. cbn. by rewrite Hm.
Qed.


Lemma with_children_twice cs1 cs2 n :
  with_children cs2 (with_children cs1 n) = with_children cs2 n.
Proof. by destruct n. Qed.

Lemma with_children_id n : with_children (children n) n = n.
Proof. by destruct n. Qed.

Lemma load_children_layout models a cs :
  Forall (builds models) cs ->
  forall h0 h1 pre n0 rest,
    load_children (loadScenegraphNode models) (Some a) cs h0 = Ok h1 ->
    h0 = pre ++ n0 :: rest -> length pre = a ->
    Forall (accepted models) (concat (map config_nodes cs)) /\
    exists rest',
      h1 = pre ++ with_children (children n0 ++ child_addrs (length h0) cs) n0
               :: rest ++ rest' /\
      map outline rest' = layout_forest models a (length h0) cs.
Proof.
  induction 1 as [| c cs Hc _ IH]; intros h0 h1 pre n0 rest Hload Hh0 Hpre.
  { injection Hload as <-. split; [constructor |]. exists [].
    cbn [child_addrs]. by rewrite !app_nil_r, with_children_id. }
  cbn [load_children] in Hload.
  destruct (loadScenegraphNode models c h0) as [[rc hc] |] eqn:Hloadc; [| done].
  cbn [mbind result_bind] in Hload. destruct rc as [ca |]; [| done].
  destruct (Hc h0 ca hc Hloadc) as (-> & Hacc & new & -> & Hnew).
  destruct new as [| nc new'].
  { apply (f_equal length) in Hnew. rewrite layout_length in Hnew.
    destruct c. done. }
  set (n0' := with_children (children n0 ++ [length h0]) n0).
  assert (setParent (addChild (h0 ++ nc :: new') a (length h0)) (length h0) (Some a)
          = pre ++ n0' :: (rest ++ with_parent (Some a) nc :: new')) as HB.
  { unfold setParent, addChild, n0'.
    assert (length h0 = length pre + S (length rest)) as Hl0
      by (rewrite Hh0, length_app; done).
    generalize (length h0) Hl0. intros k Hk. rewrite Hh0, <- app_assoc.
    rewrite alter_app_r_alt by lia. rewrite Hpre, Nat.sub_diag. cbn [app].
    change (alter ?f 0 (n0 :: ?l)) with (f n0 :: l).
    set (m0 := with_children (children n0 ++ [k]) n0).
    replace (pre ++ m0 :: rest ++ nc :: new')
      with ((pre ++ m0 :: rest) ++ nc :: new') by (by rewrite <- app_assoc).
    rewrite alter_app_r_alt by (rewrite !length_app; simpl; lia).
    replace (k - length (pre ++ m0 :: rest)) with 0
      by (rewrite !length_app; simpl; lia).
    by rewrite <- app_assoc. }
  rewrite HB in Hload.
  destruct (IH _ h1 pre n0' (rest ++ with_parent (Some a) nc :: new') Hload eq_refl Hpre)
    as (Hacc' & rest' & -> & Hrest').
  assert (length (pre ++ n0' :: rest ++ with_parent (Some a) nc :: new')
          = length h0 + length (config_nodes c)) as Hlen.
  { apply (f_equal length) in Hnew. rewrite length_map, layout_length in Hnew.
    rewrite <- Hnew, Hh0, !length_app. simpl. rewrite !length_app. simpl. lia. }
  rewrite Hlen in Hrest' |- *.
  split. { cbn [map concat]. by apply Forall_app. }
  exists (with_parent (Some a) nc :: new' ++ rest'). split.
  - unfold n0'. rewrite with_children_twice. cbn [children with_children child_addrs].
    rewrite <- !app_assoc. done.
  - cbn [layout_forest map]. rewrite map_app, Hrest'. cbn [map] in Hnew.
    rewrite (layout_parent _ None (Some a) _ _ _ _ (eq_sym Hnew)).
    cbn [app]. by f_equal.
Qed.

Lemma loadScenegraphNode_builds models c : builds models c.
Proof.
  induction c as [nm ty tr content cs IH] using NodeConfig_ind'.
  intros h a h' Hload. cbn [loadScenegraphNode] in Hload.
  destruct (create_node models nm ty tr content h) as [[node h1] |] eqn:Hcreate;
    [| done].
  cbn [mbind result_bind] in Hload.
  destruct (load_children (loadScenegraphNode models) node cs h1) as [h2 |] eqn:Hloop;
    [| done].
  cbn [mbind result_bind] in Hload. injection Hload as -> ->.
  apply create_node_outline in Hcreate as (-> & Hacc & n0 & -> & Hn0).
  destruct (load_children_layout models (length h) cs IH (h ++ [n0]) h' h n0 [] Hloop)
    as (Haccs & rest' & -> & Hrest'); [done | done |].
  split; [done |]. split.
  { rewrite config_nodes_unfold. constructor; [| done].
    destruct Hacc as [? | [? ?]]; [by left | by right]. }
  eexists. split; [done |]. rewrite layout_unfold. cbn [map app].
  rewrite length_app, Nat.add_1_r in Hrest' |- *. rewrite Hrest'. f_equal.
  unfold outline in *. cbn [name type transformation parent children obj3d with_children].
  injection Hn0 as -> -> -> -> -> ->. done.
Qed.

End SceneBuilding.

Section SceneConstructor.
Context `{Imports}.
Abbreviation Heap := (list SceneNode).
Implicit Types (h : Heap) (a b : addr) (n : SceneNode) (c : NodeConfig).

(** *** The constructor, step by step *)

Lemma new_Scene_inv fuel config sc :
  new_Scene fuel config = Some (Ok sc) ->
  exists h node,
    loadModels (cfg_models config) = Ok (models sc) /\
    loadScenegraphNode (models sc) (cfg_scenegraph config) []
      = Ok (Some (scenegraph sc), h) /\
    h !! scenegraph sc = Some node /\
    setTransformation fuel h (scenegraph sc) (transformation node) = Some (heap sc).
Proof.
  unfold new_Scene.
  destruct (loadModels (cfg_models config)) as [models |] eqn:Hmodels; [| done].
  cbn [mbind result_bind].
  destruct (loadScenegraphNode models (cfg_scenegraph config) []) as [[root h] |] eqn:Hload;
    [| done].
  cbn [mbind result_bind]. destruct root as [root |]; [| done].
  destruct (h !! root) as [node |] eqn:Hnode; [| done]. cbn [mbind option_bind].
  destruct (setTransformation fuel h root (transformation node)) as [h2 |] eqn:Hset;
    [| done].
  cbn [mbind option_bind]. intros [= <-]. by exists h, node.
Qed.

Lemma new_Scene_outlines fuel config sc :
  new_Scene fuel config = Some (Ok sc) ->
  loadModels (cfg_models config) = Ok (models sc) /\
  scenegraph sc = 0 /\
  Forall (accepted (models sc)) (config_nodes (cfg_scenegraph config)) /\
  map outline (heap sc) = layout (models sc) None 0 (cfg_scenegraph config).
Proof.
  intros (h & node & Hmodels & Hload & Hnode & Hset)%new_Scene_inv.
  destruct (loadScenegraphNode_builds _ _ _ _ _ Hload) as (Hroot & Hacc & new & -> & Hnew).
  split; [done |]. split; [done |]. split; [done |].
  rewrite (setTransformation_outlines _ _ _ _ _ _ Hnode Hset).
  rewrite with_transformation_id, list_insert_id by done. done.
Qed.

(** X14.  The store of a scene that the constructor returns is, caches
    apart, the layout of the scenegraph description: the root at address 0,
    the nodes depth first in the order of the description, each with the
    name, the type and the decoded transformation of its description, linked
    to its parent and to its children in their order, and for a model with
    the mesh that the table holds under its content, drawn as triangles. *)
Theorem new_Scene_layout fuel config sc :
  new_Scene fuel config = Some (Ok sc) ->
  loadModels (cfg_models config) = Ok (models sc) /\
  scenegraph sc = 0 /\
  map outline (heap sc) = layout (models sc) None 0 (cfg_scenegraph config).
Proof.
  intros (Hm & Hroot & _ & Hlayout)%new_Scene_outlines. done.
Qed.

(** *** Descriptions that the constructor accepts *)


Lemma instantiateModel_accepted (models : gmap string Mesh) nm :
  models !! "true" = None -> models !! "false" = None -> is_Some (models !! nm) ->
  exists o, instantiateModel models nm = Ok o.
Proof.
  intros Ht Hf [[v i] Hm]. unfold instantiateModel.
  rewrite decide_False.
  - rewrite Hm. by eexists.
  - destruct (decide (nm = "")); [rewrite Ht | rewrite Hf]; by intros [? ?].
Qed.

Lemma load_children_total models a cs :
  Forall (loads models) cs ->
  Forall (accepted models) (concat (map config_nodes cs)) ->
  forall h0, exists h1,
    load_children (loadScenegraphNode models) (Some a) cs h0 = Ok h1.
Proof.
  induction 1 as [| c cs Hc _ IH]; intros Hacc h0; [by eexists |].
  cbn [map concat] in Hacc. apply Forall_app in Hacc as [Hacc_c Hacc_cs].
  destruct (Hc Hacc_c h0) as [hc Hloadc]. cbn [load_children]. rewrite Hloadc.
  cbn [mbind result_bind]. by apply IH.
Qed.

Lemma loadScenegraphNode_loads models c :
  models !! "true" = None -> models !! "false" = None -> loads models c.
Proof.
  intros Ht Hf. induction c as [nm ty tr content cs IH] using NodeConfig_ind'.
  intros Hacc h. rewrite config_nodes_unfold in Hacc.
  apply Forall_cons in Hacc as [Hacc Haccs].
  cbn [loadScenegraphNode].
  assert (exists n0, create_node models nm ty tr content h
                     = Ok (Some (length h), h ++ [n0])) as [n0 ->].
  { unfold create_node, new_node. unfold accepted in Hacc.
    cbn [cfg_type cfg_content] in Hacc. destruct Hacc as [-> | [-> Hm]].
    - rewrite decide_True by done. by eexists.
    - rewrite decide_False by done. rewrite decide_True by done.
      destruct (instantiateModel_accepted models content Ht Hf Hm) as [o ->].
      by eexists. }
  cbn [mbind result_bind].
  destruct (load_children_total models (length h) cs IH Haccs (h ++ [n0])) as [h1 ->].
  by eexists.
Qed.

Lemma well_formed_accepted config models :
  well_formed config -> loadModels (cfg_models config) = Ok models ->
  models !! "true" = None /\ models !! "false" = None /\
  Forall (accepted models) (config_nodes (cfg_scenegraph config)).
Proof.
  intros (_ & Ht & Hf & Hnodes) Hload.
  split; [| split].
  - apply eq_None_not_Some. by rewrite (loadModels_declared _ _ _ Hload).
  - apply eq_None_not_Some. by rewrite (loadModels_declared _ _ _ Hload).
  - apply Forall_forall. intros c Hc. destruct (Hnodes c Hc) as [Hn | [Hm Hd]].
    + by left.
    + right. split; [done |]. by rewrite (loadModels_declared _ _ _ Hload).
Qed.

(** X15.  The constructor accepts every well-formed configuration: when
    the faces of the declared meshes are supported, no model is named [true]
    or [false], and every node is a plain node or a model whose content is
    declared, it returns a scene, with one node for each description, as
    soon as the bound is twice the number of descriptions. *)
Theorem new_Scene_accepts fuel config :
  well_formed config ->
  2 * length (config_nodes (cfg_scenegraph config)) <= fuel ->
  exists sc, new_Scene fuel config = Some (Ok sc) /\
             length (heap sc) = length (config_nodes (cfg_scenegraph config)).
Proof.
  intros Hwf Hfuel. pose proof Hwf as (Hfiles & _).
  destruct (loadModels_total _ Hfiles) as [models Hmodels].
  destruct (well_formed_accepted _ _ Hwf Hmodels) as (Ht & Hf & Hacc).
  destruct (loadScenegraphNode_loads models _ Ht Hf Hacc []) as [h Hload].
  destruct (loadScenegraphNode_builds _ _ _ _ _ Hload) as (_ & _ & new & Hnew & Hlayout).
  cbn [app length] in Hnew, Hlayout. subst new.
  assert (length h = length (config_nodes (cfg_scenegraph config))) as Hsize.
  { apply (f_equal length) in Hlayout. by rewrite length_map, layout_length in Hlayout. }
  destruct (loadScenegraphNode_tree _ _ _ _ _ Hload)
    as (_ & _ & _ & T & Hroot & Hpre & Htree).
  cbn [length] in *. rewrite Nat.sub_0_r in Hpre.
  destruct (tree_root_lookup _ _ _ Htree) as (node & Hnode & _).
  rewrite Hroot in Hnode.
  destruct (setTransformation_subtree T h None (transformation node) [] [] fuel node)
    as (h2 & Hset & Hskel & _); try done.
  { rewrite Hpre. apply NoDup_seq. }
  { constructor. }
  { by intros x ?%elem_of_nil. }
  { pose proof (height_le_size T) as Hh. rewrite Hpre, length_seq in Hh.
    simpl length. lia. }
  { by rewrite Hroot. }
  rewrite Hroot in Hset.
  exists (mkScene config models 0 h2). split.
  - unfold new_Scene. rewrite Hmodels. cbn [mbind result_bind]. rewrite Hload.
    cbn [mbind result_bind]. rewrite Hnode. cbn [mbind option_bind]. rewrite Hset.
    done.
  - cbn [heap]. rewrite <- Hsize, <- (same_skeleton_length _ _ Hskel).
    apply length_insert.
Qed.

(** *** Descriptions that the constructor refuses *)

(** X16.  A description whose type is neither [node] nor [model],
    wherever it stands in the scenegraph, makes the constructor throw: no
    scene is returned. *)
Theorem unknown_type_fails fuel config c :
  c ∈ config_nodes (cfg_scenegraph config) ->
  cfg_type c <> "node" -> cfg_type c <> "model" ->
  exists e, new_Scene fuel config = Some (Throw e).
Proof.
  intros Hc Hnode Hmodel. unfold new_Scene.
  destruct (loadModels (cfg_models config)) as [models |]; [| by eexists].
  cbn [mbind result_bind].
  destruct (loadScenegraphNode models (cfg_scenegraph config) []) as [[root h] |] eqn:Hload;
    [| by eexists].
  cbn [mbind result_bind]. destruct root as [root |]; [| by eexists].
  destruct (loadScenegraphNode_builds _ _ _ _ _ Hload) as (_ & Hacc & _).
  rewrite Forall_forall in Hacc. destruct (Hacc c Hc) as [? | [? _]]; done.
Qed.


Lemma load_children_throws models node cs :
  Forall (throws_as_expected models) cs ->
  forall h e,
    load_children (loadScenegraphNode models) node cs h = Throw e ->
    e = TypeError \/
    (exists nm, e = model_not_found nm) /\
    (is_Some (models !! "true") \/ is_Some (models !! "false")).
Proof.
  induction 1 as [| c cs Hc _ IH]; intros h e; [done |].
  cbn [load_children].
  destruct (loadScenegraphNode models c h) as [[rc hc] |] eqn:Hloadc.
  - cbn [mbind result_bind]. destruct node as [this |], rc as [ca |];
      try (intros [= <-]; by left). apply IH.
  - intros [= <-]. by eapply Hc.
Qed.

Lemma loadScenegraphNode_throws models c : throws_as_expected models c.
Proof.
  induction c as [nm ty tr content cs IH] using NodeConfig_ind'.
  intros h e. cbn [loadScenegraphNode].
  destruct (create_node models nm ty tr content h) as [[node h1] |] eqn:Hcreate.
  - cbn [mbind result_bind].
    destruct (load_children (loadScenegraphNode models) node cs h1) as [h2 |] eqn:Hloop;
      [done |].
    intros [= <-]. by eapply load_children_throws.
  - intros [= <-]. revert Hcreate. unfold create_node.
    repeat case_decide; try done.
    destruct (instantiateModel models content) as [o |] eqn:Hinst; [done |].
    intros [= <-]. apply instantiateModel_throws in Hinst as [-> | [-> Hkey]]; [by left |].
    right. split; [by eexists | done].
Qed.

(** X17.  What the constructor throws, the imported functions being taken
    to return, is the unsupported-face error of a mesh, a TypeError, or the
    not-found error of [instantiateModel]; and the last one only when a
    model is declared under the name [true] or [false]. *)
Theorem new_Scene_errors fuel config e :
  new_Scene fuel config = Some (Throw e) ->
  e = unsupported_face \/ e = TypeError \/
  (exists nm, e = model_not_found nm) /\
  (declared (cfg_models config) "true" \/ declared (cfg_models config) "false").
Proof.
  unfold new_Scene.
  destruct (loadModels (cfg_models config)) as [models |] eqn:Hmodels.
  - cbn [mbind result_bind].
    destruct (loadScenegraphNode models (cfg_scenegraph config) []) as [[root h] |] eqn:Hload.
    + cbn [mbind result_bind]. destruct root as [root |]; [| intros [= <-]; auto].
      destruct (h !! root) as [node |]; [| done]. cbn [mbind option_bind].
      by destruct (setTransformation fuel h root (transformation node)).
    + intros [= <-]. apply loadScenegraphNode_throws in Hload as [-> | [Hnm Hkey]];
        [auto |].
      right. right. split; [done |].
      by rewrite <- !(loadModels_declared _ _ _ Hmodels).
  - intros [= <-]. left. by apply loadModels_from_throws in Hmodels as [-> _].
Qed.

End SceneConstructor.

Section BuiltScenes.
Context `{Imports}.
Abbreviation Heap := (list SceneNode).
Implicit Types (h : Heap) (a b : addr) (n : SceneNode) (c : NodeConfig).

(** *** The nodes of a scene and the descriptions they come from *)

Lemma layout_mirrors models c : forall par a,
  Forall2 (fun o c' => o.1.1.1 = cfg_label c' /\
                       o.2 = expected_mesh models (cfg_type c') (cfg_content c'))
          (layout models par a c) (config_nodes c).
Proof.
  induction c as [nm ty tr content cs IH] using NodeConfig_ind'. intros par a.
  rewrite layout_unfold, config_nodes_unfold. constructor; [done |].
  generalize (S a). induction IH as [| c cs Hc _ IHcs]; intros b; [constructor |].
  cbn [layout_forest map concat]. apply Forall2_app; [apply Hc | apply IHcs].
Qed.

Lemma built_scene_mirrors fuel config sc :
  new_Scene fuel config = Some (Ok sc) ->
  Forall2 (mirrors (models sc)) (heap sc) (config_nodes (cfg_scenegraph config)).
Proof.
  intros (_ & _ & _ & Hlayout)%new_Scene_outlines.
  pose proof (layout_mirrors (models sc) (cfg_scenegraph config) None 0) as Hm.
  rewrite <- Hlayout in Hm. apply Forall2_fmap_l in Hm.
  eapply Forall2_impl; [exact Hm |]. intros n c [Hl Hmesh]. by split.
Qed.

Lemma built_scene_size fuel config sc :
  new_Scene fuel config = Some (Ok sc) ->
  length (heap sc) = length (config_nodes (cfg_scenegraph config)).
Proof. intros Hm%built_scene_mirrors. by eapply Forall2_length. Qed.

Lemma built_scene_nodes fuel config sc fuel' :
  new_Scene fuel config = Some (Ok sc) ->
  length (config_nodes (cfg_scenegraph config)) <= fuel' ->
  Scene_getNodes fuel' sc = Some (seq 0 (length (heap sc))).
Proof.
  intros Hnew Hfuel. pose proof (built_scene_size _ _ _ Hnew) as Hsize.
  destruct (new_Scene_tree _ _ _ Hnew) as (T & [Htree _] & Hroot & Hpre & _).
  unfold Scene_getNodes. rewrite <- Hroot, <- Hpre.
  apply (getNodes_tree T (heap sc) None fuel' []); [done |].
  pose proof (height_le_size T) as Hh. rewrite Hpre, length_seq in Hh. lia.
Qed.

(** X18.  [getNodes] on a scene that the constructor returned lists the
    nodes in the depth-first order of the description: the node at each
    rank has the name, the type and the decoded transformation of the
    description at that rank, and the mesh of its content when it is a
    model. *)
Theorem built_scene_lists_descriptions fuel config sc fuel' :
  new_Scene fuel config = Some (Ok sc) ->
  length (config_nodes (cfg_scenegraph config)) <= fuel' ->
  exists nodes,
    Scene_getNodes fuel' sc = Some nodes /\
    Forall2 (fun a c => exists n, heap sc !! a = Some n /\ mirrors (models sc) n c)
            nodes (config_nodes (cfg_scenegraph config)).
Proof.
  intros Hnew Hfuel. exists (seq 0 (length (heap sc))).
  split; [by eapply built_scene_nodes |].
  pose proof (built_scene_mirrors _ _ _ Hnew) as Hm.
  apply Forall2_same_length_lookup_2.
  - rewrite length_seq. by eapply Forall2_length.
  - intros i a c [-> Hi]%lookup_seq Hc. cbn [Nat.add].
    destruct (Forall2_lookup_r _ _ _ _ _ Hm Hc) as (n & Hn & Hmir). eauto.
Qed.

(** *** Looking a name up in a scene *)

Lemma find_seq (f : nat -> bool) N i :
  i < N -> f i = true -> (forall j, j < i -> f j = false) ->
  find f (seq 0 N) = Some i.
Proof.
  intros Hi Hfi Hbefore.
  replace N with (i + S (N - S i)) by lia.
  rewrite seq_app, find_app. cbn [Nat.add seq find].
  rewrite find_none.
  - by rewrite Hfi.
  - intros x Hx. apply elem_of_seq in Hx. apply Hbefore. lia.
Qed.


Lemma built_scene_name fuel config sc j c :
  new_Scene fuel config = Some (Ok sc) ->
  config_nodes (cfg_scenegraph config) !! j = Some c ->
  name <$> heap sc !! j = Some (cfg_name c).
Proof.
  intros Hm%built_scene_mirrors Hc.
  destruct (Forall2_lookup_r _ _ _ _ _ Hm Hc) as (n & -> & [Hl _]).
  unfold label, cfg_label in Hl. simpl. congruence.
Qed.

(** X19.  [getNode] on a scene that the constructor returned: for a name
    that a description carries it returns the node made of the first such
    description, in depth-first order, so that a later node of the same
    name cannot be reached by name; for a name that no description carries
    it throws the not-found error. *)
Theorem built_scene_finds_first_description fuel config sc fuel' nm :
  new_Scene fuel config = Some (Ok sc) ->
  length (config_nodes (cfg_scenegraph config)) <= fuel' ->
  (forall i c,
     config_nodes (cfg_scenegraph config) !! i = Some c -> cfg_name c = nm ->
     (forall j c', j < i -> config_nodes (cfg_scenegraph config) !! j = Some c' ->
                   cfg_name c' <> nm) ->
     Scene_getNode fuel' sc nm = Some (Ok i)) /\
  ((forall c, c ∈ config_nodes (cfg_scenegraph config) -> cfg_name c <> nm) ->
   Scene_getNode fuel' sc nm = Some (Throw (node_not_found nm))).
Proof.
  intros Hnew Hfuel. pose proof (built_scene_size _ _ _ Hnew) as Hsize.
  destruct (new_Scene_tree _ _ _ Hnew) as (T & [Htree _] & Hroot & Hpre & _).
  assert (getNode fuel' (heap sc) (scenegraph sc) nm
          = Some (find (has_name (heap sc) nm) (seq 0 (length (heap sc))))) as Hget.
  { rewrite <- Hroot, <- Hpre. apply (getNode_tree nm T (heap sc) None fuel'); [done |].
    pose proof (height_le_size T) as Hh. rewrite Hpre, length_seq in Hh. lia. }
  unfold Scene_getNode. rewrite Hget. cbn [mbind option_bind]. split.
  - intros i c Hc Hname Hfirst. rewrite (find_seq _ _ i); [done | | |].
    + rewrite Hsize. by eapply lookup_lt_Some.
    + unfold has_name. apply bool_decide_eq_true_2.
      rewrite (built_scene_name _ _ _ _ _ Hnew Hc). by rewrite Hname.
    + intros j Hj. unfold has_name. apply bool_decide_eq_false_2.
      destruct (lookup_lt_is_Some_2 (config_nodes (cfg_scenegraph config)) j)
        as [c' Hc']; [apply lookup_lt_Some in Hc; lia |].
      rewrite (built_scene_name _ _ _ _ _ Hnew Hc'). intros [= Heq].
      by eapply Hfirst.
  - intros Hnone. rewrite find_none; [done |].
    intros j [_ Hj]%elem_of_seq. unfold has_name. apply bool_decide_eq_false_2.
    destruct (lookup_lt_is_Some_2 (config_nodes (cfg_scenegraph config)) j)
      as [c' Hc']; [lia |].
    rewrite (built_scene_name _ _ _ _ _ Hnew Hc'). intros [= Heq].
    eapply Hnone; [| done]. by eapply list_elem_of_lookup_2.
Qed.

(** *** The draw mode *)

Lemma built_scene_typed fuel config sc :
  new_Scene fuel config = Some (Ok sc) ->
  Forall (fun n => type n = "model" <-> is_Some (obj3d n)) (heap sc).
Proof.
  intros Hnew. pose proof (built_scene_mirrors _ _ _ Hnew) as Hm.
  destruct (new_Scene_outlines _ _ _ Hnew) as (_ & _ & Hacc & _).
  apply Forall_forall. intros n Hn.
  apply list_elem_of_lookup in Hn as [i Hi].
  destruct (Forall2_lookup_l _ _ _ _ _ Hm Hi) as (c & Hc & [Hl Hmesh]).
  rewrite Forall_forall in Hacc. specialize (Hacc c (list_elem_of_lookup_2 _ _ _ Hc)).
  assert (type n = cfg_type c) as -> by (unfold label, cfg_label in Hl; congruence).
  unfold expected_mesh in Hmesh. destruct Hacc as [Hnode | [Hmodel [mesh Hcontent]]].
  - rewrite Hnode in Hmesh |- *. rewrite decide_False in Hmesh by done.
    destruct (obj3d n); [done |]. split; [done | by intros [? ?]].
  - rewrite Hmodel in Hmesh |- *. rewrite decide_True, Hcontent in Hmesh by done.
    destruct (obj3d n); [| done]. split; [by eexists | done].
Qed.

Lemma setDrawModes_all glDrawMode todo : forall done_,
  Forall (fun n => type n = "model" <-> is_Some (obj3d n)) todo ->
  setDrawModes glDrawMode (seq (length done_) (length todo)) (done_ ++ todo)
  = Some (Ok (done_ ++ map (with_draw_mode glDrawMode) todo)).
Proof.
  induction todo as [| n todo IH]; intros done_ Htyped.
  { done. }
  apply Forall_cons in Htyped as [Hn Htyped].
  assert (forall n', setDrawModes glDrawMode (seq (S (length done_)) (length todo))
                       (done_ ++ n' :: todo)
                     = Some (Ok (done_ ++ n' :: map (with_draw_mode glDrawMode) todo)))
    as Hrest.
  { intros n'. specialize (IH (done_ ++ [n']) Htyped).
    rewrite length_app, Nat.add_1_r, <- !app_assoc in IH. exact IH. }
  cbn [length seq setDrawModes map]. rewrite list_lookup_middle by done.
  cbn [mbind option_bind]. unfold with_draw_mode at 1.
  destruct (decide (type n = "model")) as [Hmodel | Hplain].
  - apply Hn in Hmodel as [o Ho]. unfold setDrawMode.
    rewrite list_lookup_middle by done. cbn [mbind option_bind]. rewrite Ho.
    cbn [mbind option_bind].
    rewrite insert_app_r_alt by done. rewrite Nat.sub_diag. cbn [insert list_insert].
    apply Hrest.
  - assert (obj3d n = None) as ->.
    { destruct (obj3d n) eqn:Ho; [| done]. exfalso. apply Hplain, Hn. by eexists. }
    apply Hrest.
Qed.

(** X20.  On a scene that the constructor returned, the loop of [update]
    that applies the draw mode raises no TypeError, since every node of type
    [model] has a renderable; it gives the mode to every renderable and
    changes nothing else. *)
Theorem update_sets_every_draw_mode fuel config sc fuel' glDrawMode :
  new_Scene fuel config = Some (Ok sc) ->
  length (config_nodes (cfg_scenegraph config)) <= fuel' ->
  update_draw_mode fuel' sc glDrawMode
  = Some (Ok (map (with_draw_mode glDrawMode) (heap sc))).
Proof.
  intros Hnew Hfuel. unfold update_draw_mode.
  rewrite (built_scene_nodes _ _ _ _ Hnew Hfuel). cbn [mbind option_bind].
  apply (setDrawModes_all glDrawMode (heap sc) []).
  by eapply built_scene_typed.
Qed.

End BuiltScenes.

Section Rendering.
Context `{Imports}.
Abbreviation Heap := (list SceneNode).
Implicit Types (h : Heap) (t : shape) (a b : addr) (n : SceneNode).

(** *** The rendering pass *)

Lemma render_tree t : forall h par fuel drawn,
  tree_at h par t -> height t <= fuel ->
  render fuel h (shape_root t) drawn
  = Some (drawn ++ omap (renderable h) (preorder t)).
Proof.
  induction t as [a ks IH] using shape_ind'. intros h par fuel drawn Htree Hfuel.
  apply tree_at_unfold in Htree as (n & Ha & _ & Hchildren & Hkids).
  destruct fuel as [| fuel]; [pose proof (height_positive (Shape a ks)); lia |].
  cbn [render shape_root preorder]. rewrite Ha.
  cbn [mbind option_bind]. rewrite Hchildren.
  assert (omap (renderable h) (a :: concat (map preorder ks))
          = match obj3d n with
            | Some o => o :: omap (renderable h) (concat (map preorder ks))
            | None => omap (renderable h) (concat (map preorder ks))
            end) as ->.
  { change (omap (renderable h) (a :: concat (map preorder ks)))
      with (match renderable h a with
            | Some o => o :: omap (renderable h) (concat (map preorder ks))
            | None => omap (renderable h) (concat (map preorder ks))
            end).
    unfold renderable at 1. by rewrite Ha. }
  assert (forall k, k ∈ ks -> height k <= fuel) as Hheight.
  { intros k Hk. pose proof (height_kid a ks k Hk). lia. }
  set (drawn1 := match obj3d n with Some o => drawn ++ [o] | None => drawn end).
  assert (drawn ++ match obj3d n with
                   | Some o => o :: omap (renderable h) (concat (map preorder ks))
                   | None => omap (renderable h) (concat (map preorder ks))
                   end
          = drawn1 ++ omap (renderable h) (concat (map preorder ks))) as ->.
  { unfold drawn1. destruct (obj3d n); [by rewrite <- app_assoc | done]. }
  clear Hfuel Hchildren Ha. generalize drawn1. clear drawn drawn1.
  induction ks as [| k ks IHks]; intros drawn.
  - by rewrite app_nil_r.
  - apply Forall_cons in IH as [IHk IH]. apply Forall_cons in Hkids as [Hk Hkids].
    cbn [map for_each concat].
    rewrite (IHk h (Some a) fuel drawn Hk) by (apply Hheight; by left).
    cbn [mbind option_bind]. rewrite omap_app, app_assoc. apply IHks; [done | done |].
    intros k' Hk'. apply Hheight. by right.
Qed.

(** X21.  On a scene whose nodes form the tree [T], [render] returns and
    draws the renderables of the nodes that have one, each once, in the
    depth-first order of [T], a node before its children. *)
Theorem render_draws_in_preorder (sc : Scene) T fuel :
  scene_tree (heap sc) T -> shape_root T = scenegraph sc ->
  length (preorder T) <= fuel ->
  Scene_render fuel sc = Some (omap (renderable (heap sc)) (preorder T)).
Proof.
  intros [Htree _] Hroot Hfuel. unfold Scene_render. rewrite <- Hroot.
  rewrite (render_tree T (heap sc) None fuel []); [done | done |].
  pose proof (height_le_size T). lia.
Qed.

End Rendering.

Section SceneClientsProperties.
Context `{Imports}.
Abbreviation Heap := (list SceneNode).
Implicit Types (h : Heap) (t : shape) (a b : addr) (n : SceneNode).

(** *** The draw mode, then the rendering pass *)

Lemma tree_at_fmap (f : SceneNode -> SceneNode) h t : forall par,
  (forall n, parent (f n) = parent n /\ children (f n) = children n) ->
  tree_at h par t -> tree_at (map f h) par t.
Proof.
  intros par Hf. apply tree_at_same_links. intros a.
  rewrite list_lookup_fmap. destruct (h !! a) as [n |]; [| done].
  simpl. unfold links. by destruct (Hf n) as [-> ->].
Qed.

Lemma with_draw_mode_links glDrawMode n :
  parent (with_draw_mode glDrawMode n) = parent n /\
  children (with_draw_mode glDrawMode n) = children n.
Proof. unfold with_draw_mode. by destruct (obj3d n). Qed.

Lemma renderable_with_draw_mode glDrawMode h a o :
  renderable (map (with_draw_mode glDrawMode) h) a = Some o ->
  o_draw_mode o = glDrawMode.
Proof.
  unfold renderable. rewrite list_lookup_fmap.
  destruct (h !! a) as [n |]; [| done]. simpl. unfold with_draw_mode.
  destruct (obj3d n) as [o' |] eqn:Ho; simpl; [by intros [= <-] | by rewrite Ho].
Qed.

Lemma renderables_seq pre (l : Heap) :
  omap (renderable (pre ++ l)) (seq (length pre) (length l)) = omap obj3d l.
Proof.
  revert pre. induction l as [| n l IH]; intros pre; [done |].
  cbn [length seq].
  change (omap (renderable (pre ++ n :: l)) (length pre :: seq (S (length pre)) (length l)))
    with (match renderable (pre ++ n :: l) (length pre) with
          | Some o => o :: omap (renderable (pre ++ n :: l)) (seq (S (length pre)) (length l))
          | None => omap (renderable (pre ++ n :: l)) (seq (S (length pre)) (length l))
          end).
  change (omap obj3d (n :: l))
    with (match obj3d n with
          | Some o => o :: omap obj3d l
          | None => omap obj3d l
          end).
  unfold renderable at 1. rewrite list_lookup_middle by done. cbn [mbind option_bind].
  specialize (IH (pre ++ [n])). rewrite length_app, Nat.add_1_r, <- app_assoc in IH.
  cbn [app] in IH. by rewrite IH.
Qed.

Lemma count_renderables glDrawMode (h : Heap) :
  Forall (fun n => type n = "model" <-> is_Some (obj3d n)) h ->
  length (omap obj3d (map (with_draw_mode glDrawMode) h))
  = length (filter (fun n => type n = "model") h).
Proof.
  induction 1 as [| n h Hn _ IH]; [done |]. cbn [map].
  change (omap obj3d (with_draw_mode glDrawMode n :: map (with_draw_mode glDrawMode) h))
    with (match obj3d (with_draw_mode glDrawMode n) with
          | Some o => o :: omap obj3d (map (with_draw_mode glDrawMode) h)
          | None => omap obj3d (map (with_draw_mode glDrawMode) h)
          end).
  unfold with_draw_mode at 1. destruct (obj3d n) as [o |] eqn:Ho.
  - rewrite filter_cons_True by (apply Hn; by eexists). cbn [obj3d with_obj3d length].
    by rewrite IH.
  - rewrite filter_cons_False by (intros [? ?]%Hn; done). by rewrite Ho.
Qed.

(** X22.  After the loop of [update] has applied a draw mode to a scene
    that the constructor returned, [render] draws one renderable for each
    node of type [model], every one of them in that mode. *)
Theorem update_then_render fuel config sc fuel' glDrawMode :
  new_Scene fuel config = Some (Ok sc) ->
  length (config_nodes (cfg_scenegraph config)) <= fuel' ->
  exists h' drawn,
    update_draw_mode fuel' sc glDrawMode = Some (Ok h') /\
    Scene_render fuel' (mkScene (scene_config sc) (models sc) (scenegraph sc) h')
      = Some drawn /\
    length drawn = length (filter (fun n => type n = "model") (heap sc)) /\
    Forall (fun o => o_draw_mode o = glDrawMode) drawn.
Proof.
  intros Hnew Hfuel. pose proof (built_scene_size _ _ _ Hnew) as Hsize.
  destruct (new_Scene_tree _ _ _ Hnew) as (T & [Htree _] & Hroot & Hpre & _).
  pose proof (built_scene_typed _ _ _ Hnew) as Htyped.
  set (h' := map (with_draw_mode glDrawMode) (heap sc)).
  exists h', (omap (renderable h') (preorder T)).
  split; [| split; [| split]].
  - unfold update_draw_mode. rewrite (built_scene_nodes _ _ _ _ Hnew Hfuel).
    cbn [mbind option_bind].
    by apply (setDrawModes_all glDrawMode (heap sc) []).
  - unfold Scene_render. cbn [heap scenegraph]. rewrite <- Hroot.
    rewrite (render_tree T h' None fuel' []); [done | |].
    + apply tree_at_fmap; [apply with_draw_mode_links | done].
    + pose proof (height_le_size T) as Hh. rewrite Hpre, length_seq in Hh. lia.
  - rewrite Hpre, <- (count_renderables glDrawMode) by done.
    replace (length (heap sc)) with (length h') by apply length_map.
    pose proof (renderables_seq [] h') as Hr. cbn [app length] in Hr.
    by rewrite Hr.
  - apply Forall_forall. intros o Ho. apply list_elem_of_omap in Ho as (a & _ & Ho).
    by eapply renderable_with_draw_mode.
Qed.

(** *** [getNodes] on a node of a tree *)

Lemma chain_parent h p path ts x nx q :
  chain h p path ts -> x ∈ path -> h !! x = Some nx -> parent nx = Some q ->
  q ∈ path.
Proof.
  induction 1 as [| a n path ts Ha Hc IH]; intros Hx Hnx Hq.
  { by apply elem_of_nil in Hx. }
  apply elem_of_cons in Hx as [-> | Hx].
  - simplify_eq. rewrite Hq in Hc. inversion Hc; subst. right. by left.
  - right. by apply IH.
Qed.

Lemma chain_through_root t : forall h par path ts b,
  tree_at h par t -> chain h par path ts -> b ∈ preorder t ->
  exists pb tb, chain h (Some b) pb tb /\ shape_root t ∈ pb.
Proof.
  induction t as [a ks IH] using shape_ind'. intros h par path ts b Htree Hchain Hb.
  apply tree_at_unfold in Htree as (n & Ha & Hpar & Hchildren & Hkids).
  assert (chain h (Some a) (a :: path) (transformation n :: ts)) as Hca.
  { econstructor; [done |]. by rewrite Hpar. }
  cbn [preorder shape_root] in *. apply elem_of_cons in Hb as [-> | Hb].
  { eexists _, _. split; [exact Hca | by left]. }
  apply elem_of_forest in Hb as (k & Hk & Hb).
  rewrite Forall_forall in IH, Hkids.
  destruct (IH k Hk h (Some a) _ _ b (Hkids k Hk) Hca Hb) as (pb & tb & Hcb & Hroot).
  exists pb, tb. split; [done |].
  destruct (tree_root_lookup _ _ _ (Hkids k Hk)) as (nk & Hnk & Hpk).
  by eapply chain_parent.
Qed.

(** X23.  [getNodes] on a node of a tree keeps what the array passed
    holds and appends the node followed by its descendants, each once: the
    nodes appended are those of the tree whose walk to the root meets the
    node. *)
Theorem getNodes_lists_subtree h T a nodes fuel :
  scene_tree h T -> a ∈ preorder T -> length (preorder T) <= fuel ->
  exists sub,
    getNodes fuel h a nodes = Some (nodes ++ a :: sub) /\
    NoDup (a :: sub) /\
    forall b, b ∈ a :: sub <->
              b ∈ preorder T /\ exists pb tb, chain h (Some b) pb tb /\ a ∈ pb.
Proof.
  intros [Htree Hnodup] Ha Hfuel.
  destruct (locate T h None [] [] a Htree Hnodup (chain_nil h)) as
    (ta & para & patha & tsa & Hroot & Hta & Hnd & Hca & Hda & Hlen & Hsub & Hout);
    [by intros x ?%elem_of_nil | done |].
  destruct ta as [a' ks]. cbn [shape_root] in Hroot. subst a'.
  exists (concat (map preorder ks)).
  change (a :: concat (map preorder ks)) with (preorder (Shape a ks)).
  split; [| split; [done |]].
  - apply (getNodes_tree (Shape a ks) h para fuel nodes Hta).
    pose proof (height_le_size T). simpl length in Hlen. lia.
  - intros b. split.
    + intros Hb. split; [by apply Hsub |].
      by apply (chain_through_root (Shape a ks) h para patha tsa b).
    + intros (Hb & pb & tb & Hcb & Hin).
      destruct (decide (b ∈ preorder (Shape a ks))) as [| Hnot]; [done |].
      exfalso. by eapply Hout.
Qed.

(** *** The scene node that the mouse moves *)

Lemma chain_same_links h h' p path ts :
  same_links h h' -> chain h p path ts -> exists ts', chain h' p path ts'.
Proof.
  intros Hl. induction 1 as [| a n path ts Ha _ [ts' IH]]; [eexists; constructor |].
  pose proof (Hl a) as Hla. rewrite Ha in Hla.
  destruct (h' !! a) as [n' |] eqn:Ha'; [| done]. injection Hla as Hp _.
  exists (transformation n' :: ts'). econstructor; [done |]. by rewrite <- Hp.
Qed.

(** X24.  The end of [updateSceneNode] on a node of a tree: the call of
    [setTransformation] returns, the node has for local transformation the
    product translation, scale, rotation, old transformation, the other
    nodes keep theirs, and the node and its descendants have a fresh world
    transformation, handed to their renderables. *)
Theorem updateSceneNode_composes h T a n fuel rotation scale translation :
  scene_tree h T -> a ∈ preorder T -> h !! a = Some n ->
  2 * length (preorder T) <= fuel ->
  exists h',
    updateSceneNode_apply fuel h a true rotation scale translation = Some h' /\
    getTransformation h' a
    = Some (mat4_multiply translation
              (mat4_multiply scale (mat4_multiply rotation (transformation n)))) /\
    (forall b, b <> a -> getTransformation h' b = getTransformation h b) /\
    (forall b pb tb, b ∈ preorder T -> chain h (Some b) pb tb -> a ∈ pb ->
                     world_fresh h' b /\ obj3d_synced h' b).
Proof.
  intros [Htree Hnodup] Ha Hn Hfuel.
  set (m := mat4_multiply translation
              (mat4_multiply scale (mat4_multiply rotation (transformation n)))).
  set (h0 := <[a := with_transformation m n]> h).
  assert (same_links h h0) as Hlinks by (by apply same_links_with_transformation).
  assert (scene_tree h0 T) as Htree0.
  { split; [| done]. by eapply tree_at_same_links. }
  destruct (setTransformation_in_tree h0 T a m fuel Htree0 Ha)
    as (h' & node & ta & Hnode & Hset & Hskel & _ & _ & Hfresh & _ & Hout).
  { pose proof (height_le_size T). lia. }
  assert (h0 !! a = Some (with_transformation m n)) as Ha0.
  { apply list_lookup_insert_eq. by eapply lookup_lt_Some. }
  rewrite Ha0 in Hnode. injection Hnode as <-.
  unfold h0 in Hskel. rewrite list_insert_insert_eq in Hskel. fold h0 in Hskel.
  exists h'. split; [| split; [| split]].
  - unfold updateSceneNode_apply, getTransformation. rewrite Hn.
    cbn [fmap option_fmap option_map mbind option_bind]. exact Hset.
  - unfold getTransformation.
    destruct (same_skeleton_lookup _ _ _ _ Hskel Ha0) as (n' & -> & Hs).
    apply skeleton_fields in Hs as (_ & _ & Ht & _). simpl. by rewrite Ht.
  - intros b Hb. unfold getTransformation. specialize (Hskel b). unfold h0 in Hskel.
    rewrite list_lookup_insert_ne in Hskel by done.
    destruct (h !! b) as [nb |], (h' !! b) as [nb' |]; try done.
    simpl in *. unfold skeleton in Hskel. congruence.
  - intros b pb tb Hb Hcb Hin. apply Hfresh.
    destruct (decide (b ∈ preorder ta)) as [| Hnot]; [done |].
    exfalso. destruct (chain_same_links _ _ _ _ _ Hlinks Hcb) as [tb' Hcb'].
    by eapply Hout.
Qed.

End SceneClientsProperties.

Section FreshScenes.
Context `{Imports}.
Abbreviation Heap := (list SceneNode).
Implicit Types (h : Heap) (t : shape) (a b : addr) (n : SceneNode).

(** *** The tree of a scene, and a call that changes nothing *)

(** X25.  The nodes of a scene that the constructor returned form a tree
    that spans the store, rooted at the scenegraph of the scene; every node
    has a fresh world transformation, by which its renderable is placed
    when it has one. *)
Theorem built_scene_is_tree fuel config sc :
  new_Scene fuel config = Some (Ok sc) ->
  exists T,
    scene_tree (heap sc) T /\ shape_root T = scenegraph sc /\
    (forall a, a ∈ preorder T <-> a < length (heap sc)) /\
    forall a, a < length (heap sc) ->
              world_fresh (heap sc) a /\ obj3d_synced (heap sc) a.
Proof.
  intros (T & Htree & Hroot & Hpre & Hfresh)%new_Scene_tree.
  exists T. split; [done |]. split; [done |].
  assert (forall a, a ∈ preorder T <-> a < length (heap sc)) as Hspan.
  { intros a. rewrite Hpre, elem_of_seq. lia. }
  split; [done |]. intros a Ha. by apply Hfresh, Hspan.
Qed.

Lemma node_eq n n' :
  outline n' = outline n -> world_transformation n' = world_transformation n ->
  (forall o o', obj3d n = Some o -> obj3d n' = Some o' ->
                o_transformation o' = o_transformation o) ->
  n' = n.
Proof.
  destruct n as [nm ty t w p cs o], n' as [nm' ty' t' w' p' cs' o'].
  unfold outline. cbn. intros [= -> -> -> -> -> Hmesh] -> Hplace. f_equal.
  destruct o as [[v i d tr] |], o' as [[v' i' d' tr'] |]; try done.
  cbn in Hmesh. injection Hmesh as -> -> ->. f_equal. f_equal.
  by apply (Hplace _ _ eq_refl eq_refl).
Qed.

(** X26.  On a tree whose caches are fresh, handing to a node the
    transformation it has changes nothing: [setTransformation] returns the
    store it was given. *)
Theorem setTransformation_same_is_noop h T a n fuel :
  scene_tree h T ->
  (forall b, b ∈ preorder T -> world_fresh h b /\ obj3d_synced h b) ->
  a ∈ preorder T -> h !! a = Some n ->
  2 * length (preorder T) <= fuel ->
  setTransformation fuel h a (transformation n) = Some h.
Proof.
  intros [Htree Hnodup] Hfresh Ha Hn Hfuel.
  destruct (locate T h None [] [] a Htree Hnodup (chain_nil h)) as
    (ta & para & patha & tsa & Hroot & Hta & Hnd & Hca & Hda & Hlen & Hsub & _);
    [by intros x ?%elem_of_nil | done |].
  destruct (setTransformation_subtree ta h para (transformation n) patha tsa fuel n)
    as (h' & Hset & Hskel & Hframe & Hfresh'); try done.
  { pose proof (height_positive ta). pose proof (height_le_size T).
    simpl length in Hlen. lia. }
  { by rewrite Hroot. }
  rewrite Hroot in Hset, Hskel, Hframe.
  rewrite with_transformation_id, list_insert_id in Hskel, Hframe by done.
  rewrite Hset. f_equal. apply list_eq. intros b.
  destruct (decide (b ∈ preorder ta)) as [Hb | Hb]; [| by apply Hframe].
  destruct (Hfresh' b Hb) as [(n' & path' & ts' & Hn' & Hc' & Hw') Hsync'].
  destruct (Hfresh b (Hsub b Hb)) as [(nb & path & ts & Hnb & Hc & Hw) Hsync].
  rewrite Hn', Hnb. f_equal.
  pose proof (setTransformation_outlines _ _ _ _ _ _ Hn Hset) as Hout.
  rewrite with_transformation_id, list_insert_id in Hout by done.
  destruct (outline_lookup _ _ _ _ Hout Hnb) as (n'' & Hn'' & Ho).
  rewrite Hn' in Hn''. injection Hn'' as <-.
  assert (world_transformation n' = world_transformation nb) as Hworld.
  { rewrite Hw', Hw. apply (chain_same_skeleton _ _ _ _ _ Hskel) in Hc.
    by destruct (chain_deterministic _ _ _ _ _ _ Hc Hc') as [_ ->]. }
  apply node_eq; [done | done |].
  intros o o' Ho1 Ho2. rewrite (Hsync _ _ Hnb Ho1), (Hsync' _ _ Hn' Ho2). done.
Qed.

End FreshScenes.

(** ** Samples *)

Section SceneSamples.

Lemma self_parent_never_returns_witness :
  calculateWorldTransformation 100 (setParent sample_heap 1 (Some 1)) 1 = None /\
  setTransformation 100 (setParent sample_heap 1 (Some 1)) 1 [7] = None.
Proof.
  exact (self_parent_never_returns sample_heap 1 _ 100 [7] eq_refl).
Defined.

Lemma setTransformation_touches_caches_only_witness :
  exists h' : list (@SceneNode sample_imports),
    setTransformation 8 sample_heap 1 [7] = Some h' /\
    length h' = length sample_heap /\
    forall b n, sample_heap !! b = Some n ->
      exists n', h' !! b = Some n' /\
        name n' = name n /\ type n' = type n /\
        parent n' = parent n /\ children n' = children n /\
        mesh_of <$> obj3d n' = mesh_of <$> obj3d n /\
        transformation n' = (if decide (b = 1) then [7] else transformation n).
Proof.
  destruct (setTransformation 8 sample_heap 1 [7]) as [h' |] eqn:Hset;
    [| vm_compute in Hset; discriminate Hset].
  exists h'. split; [reflexivity |].
  exact (setTransformation_touches_caches_only 8 sample_heap 1 [7] h' Hset).
Defined.

Lemma library_models_load :
  exists models, loadModels (H := library_imports) library_models = Ok models.
Proof.
  destruct (loadModels (H := library_imports) library_models) as [models | e] eqn:Hload;
    [by exists models | vm_compute in Hload; discriminate Hload].
Qed.

Lemma library_scene_built :
  exists sc : @Scene library_imports, new_Scene 8 library_config = Some (Ok sc).
Proof.
  destruct (new_Scene 8 library_config) as [[sc | e] |] eqn:Hnew;
    [by exists sc | vm_compute in Hnew; discriminate Hnew ..].
Qed.

Lemma loadModels_last_wins_witness :
  exists models : gmap string Mesh,
    loadModels (H := library_imports) library_models = Ok models /\
    forall mesh,
      models !! "shape" = Some mesh <->
      exists mc, last_declared library_models "shape" = Some mc /\
                 OBJLoader.load (library_file (mc_obj mc)) = Ok mesh.
Proof.
  destruct library_models_load as [models Hload].
  exists models. split; [exact Hload |]. intros mesh.
  exact (loadModels_last_wins (H := library_imports) library_models models "shape" mesh
           Hload).
Defined.

Lemma broken_model_fails_scene_witness :
  new_Scene 10 broken_config = Some (Throw unsupported_face).
Proof.
  apply (broken_model_fails_scene 10 broken_config (mkModelConfig "unused" "broken.obj")
           unsupported_face).
  - vm_compute. do 3 right. left.
  - vm_compute. reflexivity.
Defined.

Lemma library_file_supported mc :
  mc ∈ library_models -> faces_supported (library_file (mc_obj mc)).
Proof.
  intros Hmc line Hin Hface. apply list_elem_of_In in Hmc.
  destruct Hmc as [<- | [<- | [<- | []]]]; vm_compute in Hin;
    apply list_elem_of_In in Hin; simpl in Hin;
    repeat (destruct Hin as [<- | Hin]; [try discriminate Hface; auto |]);
    try done.
Qed.

Lemma library_config_well_formed : well_formed library_config.
Proof.
  split; [apply library_file_supported |]. split; [| split].
  - intros (mc & Hin & Hname). apply list_elem_of_In in Hin.
    destruct Hin as [<- | [<- | [<- | []]]]; discriminate Hname.
  - intros (mc & Hin & Hname). apply list_elem_of_In in Hin.
    destruct Hin as [<- | [<- | [<- | []]]]; discriminate Hname.
  - intros c Hc. apply list_elem_of_In in Hc.
    destruct Hc as [<- | [<- | [<- | [<- | []]]]]; [by left | right | right | by left];
      (split; [done |]).
    + exists (mkModelConfig "shape" "triangle.obj"). split; [by left | done].
    + exists (mkModelConfig "tri" "triangle.obj"). split; [right; by left | done].
Qed.

Lemma new_Scene_accepts_witness :
  exists sc : @Scene library_imports, new_Scene 8 library_config = Some (Ok sc) /\ length (heap sc) = 4.
Proof.
  apply (new_Scene_accepts 8 library_config library_config_well_formed).
  simpl. lia.
Defined.


Lemma new_Scene_layout_witness :
  exists sc : @Scene library_imports,
    new_Scene 8 library_config = Some (Ok sc) /\
    loadModels (H := library_imports) (cfg_models library_config) = Ok (models sc) /\
    scenegraph sc = 0 /\
    map outline (heap sc) = layout (models sc) None 0 library_graph.
Proof.
  destruct library_scene_built as [sc Hnew].
  exists sc. split; [exact Hnew |]. exact (new_Scene_layout 8 library_config sc Hnew).
Defined.

Lemma built_scene_lists_descriptions_witness :
  exists (sc : @Scene library_imports) nodes,
    new_Scene 8 library_config = Some (Ok sc) /\
    Scene_getNodes 4 sc = Some nodes /\
    Forall2 (fun a c => exists n, heap sc !! a = Some n /\ mirrors (models sc) n c)
            nodes (config_nodes library_graph).
Proof.
  destruct library_scene_built as [sc Hnew].
  destruct (built_scene_lists_descriptions 8 library_config sc 4 Hnew)
    as (nodes & Hnodes & Hm); [simpl; lia |].
  exists sc, nodes. split; [exact Hnew |]. split; [exact Hnodes | exact Hm].
Defined.

Lemma unknown_type_fails_witness :
  exists e, new_Scene 8 light_config = Some (Throw e).
Proof.
  apply (unknown_type_fails 8 light_config
           (mkNodeConfig (H := library_imports) "sun" "light" [2] "" [])).
  - simpl. right. left.
  - discriminate.
  - discriminate.
Defined.

Lemma built_scene_finds_first_description_witness :
  exists sc : @Scene library_imports,
    new_Scene 8 library_config = Some (Ok sc) /\
    Scene_getNode 4 sc "wing" = Some (Ok 1) /\
    Scene_getNode 4 sc "tail" = Some (Throw (node_not_found "tail")).
Proof.
  destruct library_scene_built as [sc Hnew].
  exists sc. split; [exact Hnew |].
  assert (length (config_nodes (cfg_scenegraph library_config)) <= 4) as Hfuel
    by (simpl; lia).
  split.
  - destruct (built_scene_finds_first_description 8 library_config sc 4 "wing" Hnew Hfuel)
      as [Hfound _].
    apply (Hfound 1 (mkNodeConfig (H := library_imports) "wing" "model" [2] "shape"
                       [mkNodeConfig (H := library_imports) "tip" "model" [4] "tri" []]));
      [reflexivity | reflexivity |].
    intros j c' Hj Hc'. assert (j = 0) as -> by lia. simpl in Hc'.
    injection Hc' as <-. discriminate.
  - destruct (built_scene_finds_first_description 8 library_config sc 4 "tail" Hnew Hfuel)
      as [_ Hnone].
    apply Hnone. intros c Hc. apply list_elem_of_In in Hc.
    destruct Hc as [<- | [<- | [<- | [<- | []]]]]; discriminate.
Defined.

Lemma new_Scene_errors_witness :
  TypeError = unsupported_face \/ TypeError = TypeError \/
  (exists nm, TypeError = model_not_found nm) /\
  (declared (cfg_models missing_config) "true" \/
   declared (cfg_models missing_config) "false").
Proof.
  apply (new_Scene_errors 10 missing_config TypeError). vm_compute. reflexivity.
Defined.

Lemma render_draws_in_preorder_witness :
  Scene_render 4 sample_scene = Some (omap (renderable sample_heap) [0; 1; 2; 3]).
Proof.
  apply (render_draws_in_preorder sample_scene sample_shape 4).
  - apply sample_scene_tree.
  - reflexivity.
  - simpl. lia.
Defined.

Lemma update_sets_every_draw_mode_witness :
  exists sc : @Scene library_imports,
    new_Scene 8 library_config = Some (Ok sc) /\
    update_draw_mode 4 sc POINTS = Some (Ok (map (with_draw_mode POINTS) (heap sc))).
Proof.
  destruct library_scene_built as [sc Hnew].
  exists sc. split; [exact Hnew |].
  apply (update_sets_every_draw_mode 8 library_config sc 4 POINTS Hnew). simpl. lia.
Defined.

Lemma instantiateModel_outcomes_witness :
  exists models : gmap string Mesh,
    loadModels (H := library_imports) library_models = Ok models /\
    instantiateModel (H := library_imports) models "teapot" = Throw TypeError /\
    exists mc vertices indices,
      last_declared library_models "shape" = Some mc /\
      OBJLoader.load (library_file (mc_obj mc)) = Ok (vertices, indices) /\
      instantiateModel (H := library_imports) models "shape"
      = Ok (mkObject3D (H := library_imports) vertices indices TRIANGLES []).
Proof.
  destruct library_models_load as [models Hload].
  exists models. split; [exact Hload |].
  assert (~ declared library_models "false") as Hfalse.
  { intros (mc & Hin & Hname). apply list_elem_of_In in Hin.
    destruct Hin as [<- | [<- | [<- | []]]]; discriminate Hname. }
  split.
  - destruct (instantiateModel_outcomes (H := library_imports) library_models models
                "teapot" Hload) as (_ & Hmissing & _).
    apply Hmissing; [exact Hfalse |].
    intros (mc & Hin & Hname). apply list_elem_of_In in Hin.
    destruct Hin as [<- | [<- | [<- | []]]]; discriminate Hname.
  - destruct (instantiateModel_outcomes (H := library_imports) library_models models
                "shape" Hload) as (_ & _ & Hfound).
    apply Hfound; [exact Hfalse |].
    exists (mkModelConfig "shape" "triangle.obj"). split; [by left | done].
Defined.

Lemma update_then_render_witness :
  exists (sc : @Scene library_imports) h' drawn,
    new_Scene 8 library_config = Some (Ok sc) /\
    update_draw_mode 4 sc POINTS = Some (Ok h') /\
    Scene_render 4 (mkScene (H := library_imports) (scene_config sc) (models sc)
                            (scenegraph sc) h')
      = Some drawn /\
    length drawn = length (filter (fun n => type n = "model") (heap sc)) /\
    Forall (fun o => o_draw_mode o = POINTS) drawn.
Proof.
  destruct library_scene_built as [sc Hnew].
  destruct (update_then_render 8 library_config sc 4 POINTS Hnew)
    as (h' & drawn & H1 & H2 & H3 & H4); [simpl; lia |].
  exists sc, h', drawn. split; [exact Hnew |]. repeat split; assumption.
Defined.

Lemma getNodes_lists_subtree_witness :
  exists sub,
    getNodes 4 sample_heap 1 [7; 7] = Some ([7; 7] ++ 1 :: sub) /\
    NoDup (1 :: sub) /\
    forall b, b ∈ 1 :: sub <->
              b ∈ preorder sample_shape /\
              exists pb tb, chain sample_heap (Some b) pb tb /\ 1 ∈ pb.
Proof.
  apply (getNodes_lists_subtree sample_heap sample_shape 1 [7; 7] 4).
  - apply sample_scene_tree.
  - simpl. right. left.
  - simpl. lia.
Defined.

Lemma updateSceneNode_composes_witness :
  exists h',
    updateSceneNode_apply 8 sample_heap 1 true [5] [6] [7] = Some h' /\
    getTransformation h' 1 = Some [7; 6; 5; 2] /\
    (forall b, b <> 1 -> getTransformation h' b = getTransformation sample_heap b) /\
    (forall b pb tb, b ∈ preorder sample_shape -> chain sample_heap (Some b) pb tb ->
                     1 ∈ pb -> world_fresh h' b /\ obj3d_synced h' b).
Proof.
  assert (1 ∈ preorder sample_shape) as Hin by (simpl; right; left).
  assert (2 * length (preorder sample_shape) <= 8) as Hfuel by (simpl; lia).
  exact (updateSceneNode_composes sample_heap sample_shape 1 _ 8 [5] [6] [7]
           sample_scene_tree Hin eq_refl Hfuel).
Defined.


Lemma built_scene_is_tree_witness :
  exists (sc : @Scene library_imports) T,
    new_Scene 8 library_config = Some (Ok sc) /\
    scene_tree (heap sc) T /\ shape_root T = scenegraph sc /\
    (forall a, a ∈ preorder T <-> a < length (heap sc)) /\
    forall a, a < length (heap sc) ->
              world_fresh (heap sc) a /\ obj3d_synced (heap sc) a.
Proof.
  destruct library_scene_built as [sc Hnew].
  destruct (built_scene_is_tree 8 library_config sc Hnew) as (T & HT).
  exists sc, T. split; [exact Hnew | exact HT].
Defined.

Lemma setTransformation_same_is_noop_witness :
  exists (sc : @Scene library_imports) n,
    new_Scene 8 library_config = Some (Ok sc) /\
    heap sc !! 0 = Some n /\
    setTransformation 8 (heap sc) 0 (transformation n) = Some (heap sc).
Proof.
  destruct library_scene_built as [sc Hnew].
  destruct (new_Scene_tree _ _ _ Hnew) as (T & Htree & Hroot & Hpre & Hfresh).
  pose proof (built_scene_size _ _ _ Hnew) as Hsize. simpl in Hsize.
  assert (0 ∈ preorder T) as Hin by (rewrite Hpre, Hsize; by left).
  destruct (lookup_lt_is_Some_2 (heap sc) 0) as [n Hn]; [lia |].
  exists sc, n. split; [exact Hnew |]. split; [exact Hn |].
  apply (setTransformation_same_is_noop (heap sc) T 0 n 8 Htree Hfresh Hin Hn).
  rewrite Hpre, length_seq, Hsize. lia.
Defined.

End SceneSamples.

Section LoaderSamples.
Import OBJLoader.

Lemma indices_are_whole_numbers_witness :
  exists vs ids,
    load (unlines ["v 0 0 0"; "f 1.5 x 3"; "f -1 0x10 2/7 4"]) = Ok (vs, ids) /\
    forall i q, i ∈ ids -> i = Fin q -> exists z, q = Q2Qc (inject_Z z).
Proof.
  destruct (load (unlines ["v 0 0 0"; "f 1.5 x 3"; "f -1 0x10 2/7 4"]))
    as [[vs ids] | e] eqn:Hload; [| vm_compute in Hload; discriminate Hload].
  exists vs, ids. split; [reflexivity |].
  exact (indices_are_whole_numbers _ vs ids Hload).
Defined.

End LoaderSamples.
